(** * streaming.frequent: the frequent-items sketch and its selector

    A shallow embedding of [src/streaming/frequent.py] (Python 2):
    the order-statistic routine [select] with its nested helpers
    [partition] and [qselect], and the [Counter] class.

    Python integers are unbounded, so they are [Z].  A Python list is a
    [list Z] read and written by index, a tuple one that is only read;
    a Python dict is a [gmap].  Exceptions are values of [exn]; a
    computation ends in an [outcome].

    The module defines neither [_Counter] nor [_select], so the
    [cythonize] decorator hands back the Python class and the Python
    function, which are the ones embedded here. *)

From Stdlib Require Import ZArith Lia.
From stdpp Require Import gmap strings list sorting.

Local Open Scope Z_scope.

(** ** Outcomes of a Python computation *)

Inductive exn : Type :=
  | ValueError (msg : string)
  | IndexError
  | KeyError
  | AssertionError
  | TypeError
  | OverflowError.

(** [Diverge] is what a loop of the embedding answers when its iteration
    budget is spent; the theorems below show it never arises. *)
Inductive outcome (A : Type) : Type :=
  | Return (a : A)
  | Raise (e : exn)
  | Diverge.
Arguments Return {A} a.
Arguments Raise {A} e.
Arguments Diverge {A}.

Global Instance outcome_ret : MRet outcome := fun A a => Return a.
Global Instance outcome_bind : MBind outcome := fun A B f m =>
  match m with
  | Return a => f a
  | Raise e => Raise e
  | Diverge => Diverge
  end.

(** ** Python lists of integers *)

(** [seq[i]]: a negative index counts from the end, anything outside the
    list raises [IndexError]. *)
Definition norm_index (seq : list Z) (i : Z) : Z :=
  if i <? 0 then i + Z.of_nat (length seq) else i.

Definition getitem (seq : list Z) (i : Z) : outcome Z :=
  let p := norm_index seq i in
  if (p <? 0) || (Z.of_nat (length seq) <=? p) then Raise IndexError
  else match seq !! Z.to_nat p with
       | Some x => Return x
       | None => Raise IndexError
       end.

(** [seq[i] = x] *)
Definition setitem (seq : list Z) (i : Z) (x : Z) : outcome (list Z) :=
  let p := norm_index seq i in
  if (p <? 0) || (Z.of_nat (length seq) <=? p) then Raise IndexError
  else Return (<[Z.to_nat p := x]> seq).

(** [seq[i], seq[j] = seq[j], seq[i]]: the right-hand side is evaluated
    first, then the two stores happen left to right. *)
Definition swap (seq : list Z) (i j : Z) : outcome (list Z) :=
  a ← getitem seq j;
  b ← getitem seq i;
  seq ← setitem seq i a;
  setitem seq j b.

(** [sorted(s)] on integers: the ascending rearrangement. *)
Definition sorted (s : list Z) : list Z := merge_sort Z.le s.

(** ** The selector *)

Module Select.

(** First inner loop of [partition]:
    [while True: i += 1; if i == hi or seq[i] >= v: break]. *)
Fixpoint scan_up (fuel : nat) (seq : list Z) (v hi i : Z) : outcome Z :=
  match fuel with
  | O => Diverge
  | S fuel =>
      let i := i + 1 in
      if i =? hi then Return i
      else x ← getitem seq i;
           if x >=? v then Return i else scan_up fuel seq v hi i
  end.

(** Second inner loop of [partition]:
    [while True: j -= 1; if j == lo or seq[j] <= v: break]. *)
Fixpoint scan_down (fuel : nat) (seq : list Z) (v lo j : Z) : outcome Z :=
  match fuel with
  | O => Diverge
  | S fuel =>
      let j := j - 1 in
      if j =? lo then Return j
      else x ← getitem seq j;
           if x <=? v then Return j else scan_down fuel seq v lo j
  end.

(** Outer loop of [partition]; [gas] bounds each inner loop, [fuel] the
    outer one.  It leaves the loop with the sequence and [j]. *)
Fixpoint partition_loop (gas fuel : nat) (seq : list Z) (lo hi v i j : Z)
  : outcome (list Z * Z) :=
  match fuel with
  | O => Diverge
  | S fuel =>
      i ← scan_up gas seq v hi i;
      j ← scan_down gas seq v lo j;
      if i >=? j then Return (seq, j)
      else seq ← swap seq i j;
           partition_loop gas fuel seq lo hi v i j
  end.

Definition partition (gas : nat) (seq : list Z) (lo hi : Z)
  : outcome (list Z * Z) :=
  v ← getitem seq lo;
  '(seq, j) ← partition_loop gas gas seq lo hi v lo (hi + 1);
  seq ← swap seq lo j;
  Return (seq, j).

(** [qselect]: [while hi > lo: ...; return seq[pivot]].  The sequence is
    returned next to the value because the caller's list is reordered. *)
Fixpoint qselect_loop (gas fuel : nat) (seq : list Z) (lo hi pivot : Z)
  : outcome (Z * list Z) :=
  match fuel with
  | O => Diverge
  | S fuel =>
      if hi >? lo then
        '(seq, idx) ← partition gas seq lo hi;
        if idx =? pivot then x ← getitem seq idx; Return (x, seq)
        else if idx >? pivot
             then qselect_loop gas fuel seq lo (idx - 1) pivot
             else qselect_loop gas fuel seq (idx + 1) hi pivot
      else x ← getitem seq pivot; Return (x, seq)
  end.

Definition qselect (seq : list Z) (lo hi pivot : Z) : outcome (Z * list Z) :=
  let gas := S (length seq) in
  qselect_loop gas gas seq lo hi pivot.

End Select.

(** [select(sequence, k)] on a Python list, the mutable sequence the
    routine reorders in place and the only kind of argument [_decrement]
    passes: the [isinstance] test lets a list through as it is.  The
    answer is the value together with the reordered list.  The other
    kinds of argument follow below, in [select_on]. *)
Definition select (sequence : list Z) (k : Z) : outcome (Z * list Z) :=
  if (k <? 0) || (k >=? Z.of_nat (length sequence))
  then Raise (ValueError "k value out of range")
  else Select.qselect sequence 0 (Z.of_nat (length sequence) - 1) k.

(** *** Arguments other than lists

    The docstring of [select] announces "a list (or tuple or sequence)
    of numbers", and the [isinstance] test of its first line lets a list,
    a tuple and any other [collections.Sequence] through as they are;
    only an iterable that is none of these is copied with
    [list(sequence)].  The loops then read and write [seq[i]] on
    whatever came through.  Three kinds of argument tell the cases
    apart: a list, a tuple (the sequence that accepts no item
    assignment), and an iterable that is no sequence. *)
Inductive argument : Type :=
  | PyList (items : list Z)
  | PyTuple (items : list Z)
  | PyIterable (items : list Z).

Definition items_of (a : argument) : list Z :=
  match a with
  | PyList items | PyTuple items | PyIterable items => items
  end.

(** Whether [seq[i] = x] is available on what the loops work on: a list
    has it, so has the list made from an iterable; a tuple has not. *)
Definition assignable (a : argument) : bool :=
  match a with
  | PyList _ | PyIterable _ => true
  | PyTuple _ => false
  end.

(** [seq[i] = x]: a tuple answers [TypeError] (it does not support item
    assignment), whatever the index. *)
Definition setitem_on (mutable : bool) (seq : list Z) (i : Z) (x : Z)
  : outcome (list Z) :=
  if mutable then setitem seq i x else Raise TypeError.

Definition swap_on (mutable : bool) (seq : list Z) (i j : Z)
  : outcome (list Z) :=
  a ← getitem seq j;
  b ← getitem seq i;
  seq ← setitem_on mutable seq i a;
  setitem_on mutable seq j b.

(** The loops of [Select], with the store of the argument's kind. *)
Module SelectOn.

Fixpoint partition_loop (mutable : bool) (gas fuel : nat) (seq : list Z)
    (lo hi v i j : Z) : outcome (list Z * Z) :=
  match fuel with
  | O => Diverge
  | S fuel =>
      i ← Select.scan_up gas seq v hi i;
      j ← Select.scan_down gas seq v lo j;
      if i >=? j then Return (seq, j)
      else seq ← swap_on mutable seq i j;
           partition_loop mutable gas fuel seq lo hi v i j
  end.

Definition partition (mutable : bool) (gas : nat) (seq : list Z) (lo hi : Z)
  : outcome (list Z * Z) :=
  v ← getitem seq lo;
  '(seq, j) ← partition_loop mutable gas gas seq lo hi v lo (hi + 1);
  seq ← swap_on mutable seq lo j;
  Return (seq, j).

Fixpoint qselect_loop (mutable : bool) (gas fuel : nat) (seq : list Z)
    (lo hi pivot : Z) : outcome (Z * list Z) :=
  match fuel with
  | O => Diverge
  | S fuel =>
      if hi >? lo then
        '(seq, idx) ← partition mutable gas seq lo hi;
        if idx =? pivot then x ← getitem seq idx; Return (x, seq)
        else if idx >? pivot
             then qselect_loop mutable gas fuel seq lo (idx - 1) pivot
             else qselect_loop mutable gas fuel seq (idx + 1) hi pivot
      else x ← getitem seq pivot; Return (x, seq)
  end.

Definition qselect (mutable : bool) (seq : list Z) (lo hi pivot : Z)
  : outcome (Z * list Z) :=
  let gas := S (length seq) in
  qselect_loop mutable gas gas seq lo hi pivot.

End SelectOn.

(** [select(sequence, k)] on an argument of any of the three kinds.  The
    answer is the value together with the items of the sequence the
    loops worked on, in their final order. *)
Definition select_on (sequence : argument) (k : Z) : outcome (Z * list Z) :=
  let seq := items_of sequence in
  if (k <? 0) || (k >=? Z.of_nat (length seq))
  then Raise (ValueError "k value out of range")
  else SelectOn.qselect (assignable sequence) seq
         0 (Z.of_nat (length seq) - 1) k.

(** ** Sources of nondeterminism

    Two things in a run are not fixed by the program text: the draws of
    the [random] module, and the order in which a Python 2 dict hands out
    its entries.  Both are resolved by an oracle, a list of naturals read
    front to back (an exhausted oracle answers 0).  Quantifying over the
    oracle covers every outcome of the sampling and every iteration
    order. *)

Definition Oracle : Type := list nat.

Definition next (o : Oracle) : nat * Oracle :=
  match o with
  | [] => (0%nat, [])
  | d :: o => (d, o)
  end.

Module random.

(** The [random] module belongs to the Python standard library; it is
    embedded by what it documents.  [k] draws without replacement: each
    draw picks a position of what is left of the pool. *)
Fixpoint draw {A} (pool : list A) (k : nat) (o : Oracle) : list A * Oracle :=
  match k with
  | O => ([], o)
  | S k =>
      let '(d, o) := next o in
      let j := (d mod length pool)%nat in
      match pool !! j with
      | None => ([], o)
      | Some x =>
          let '(rest, o) := draw (delete j pool) k o in
          (x :: rest, o)
      end
  end.

(** [random.sample(population, k)] of the Python standard library: a list
    of [k] entries taken at distinct positions of [population];
    [ValueError] unless [0 <= k <= len(population)]. *)
Definition sample {A} (population : list A) (k : Z) (o : Oracle)
  : outcome (list A) * Oracle :=
  if (k <? 0) || (Z.of_nat (length population) <? k)
  then (Raise (ValueError "sample larger than population"), o)
  else let '(l, o) := draw population (Z.to_nat k) o in (Return l, o).

End random.

(** [d.iteritems()]: the entries of the dict, in an order the oracle
    picks. *)
Definition iteritems `{Countable K} {V} (d : gmap K V) (o : Oracle)
  : list (K * V) * Oracle :=
  random.draw (map_to_list d) (size d) o.

(** [d.values()] *)
Definition values `{Countable K} {V} (d : gmap K V) (o : Oracle)
  : list V * Oracle :=
  let '(items, o) := iteritems d o in (items.*2, o).

(** ** The counter *)

Module Counter.
Section definitions.
Context `{Countable K}.

(** The attributes set by [__init__]. *)
Record t : Type := mk {
  size : Z;
  sample : Z;
  order : Z;
  length : Z;
  offset : Z;
  index : gmap K Z;
}.

Definition set_length (v : Z) (c : t) : t :=
  mk (size c) (sample c) (order c) v (offset c) (index c).
Definition set_offset (v : Z) (c : t) : t :=
  mk (size c) (sample c) (order c) (length c) v (index c).
Definition set_index (d : gmap K Z) (c : t) : t :=
  mk (size c) (sample c) (order c) (length c) (offset c) d.

(** [Counter(k=4096, sample=None, order=None)].  An omitted argument is
    [None].  In Python 2 [/] on integers is floor division. *)
Definition __init__ (k sample order : option Z) : outcome t :=
  let k := default 4096 k in
  let sample := match sample with None => Z.min k 1024 | Some s => s end in
  let order := match order with None => sample / 2 | Some r => r end in
  if (sample <? 0) || (sample >? k)
  then Raise (ValueError "sample rate out of range")
  else if (order <? 0) || (order >=? sample)
  then Raise (ValueError "order out of range")
  else Return (mk k sample order 0 0 ∅).

(** A method runs on the object and the oracle.  The object outlives an
    exception: what was stored before the [raise] stays stored. *)
Definition State : Type := t * Oracle.
Definition M (A : Type) : Type := State → outcome A * State.

Global Instance M_ret : MRet M := fun A a s => (Return a, s).
Global Instance M_bind : MBind M := fun A B f m s =>
  match m s with
  | (Return a, s) => f a s
  | (Raise e, s) => (Raise e, s)
  | (Diverge, s) => (Diverge, s)
  end.

Definition raise {A} (e : exn) : M A := fun s => (Raise e, s).
Definition getattr {A} (f : t → A) : M A := fun s => (Return (f s.1), s).
Definition setattr (g : t → t) : M unit := fun s => (Return tt, (g s.1, s.2)).
Definition ask {A} (f : Oracle → A * Oracle) : M A :=
  fun s => let '(a, o) := f s.2 in (Return a, (s.1, o)).
Definition ask_outcome {A} (f : Oracle → outcome A * Oracle) : M A :=
  fun s => let '(r, o) := f s.2 in (r, (s.1, o)).
Definition lift {A} (r : outcome A) : M A := fun s => (r, s).

(** [for x in l: body(x)] *)
Fixpoint for_each {A} (l : list A) (body : A → M unit) : M unit :=
  match l with
  | [] => mret tt
  | x :: l => _ ← body x; for_each l body
  end.

(** [assert b] *)
Definition assert_ (b : bool) : M unit :=
  if b then mret tt else raise AssertionError.

(** [len(self.index)] *)
Definition len_index : M Z :=
  d ← getattr index; mret (Z.of_nat (base.size d)).

(** [self.index[key] = v] *)
Definition store (key : K) (v : Z) : M unit :=
  d ← getattr index; setattr (set_index (<[key := v]> d)).

(** [self.index.pop(key)]: an absent key raises [KeyError]. *)
Definition pop (key : K) : M unit :=
  d ← getattr index;
  match d !! key with
  | Some _ => setattr (set_index (delete key d))
  | None => raise KeyError
  end.

(** The sweep of [_decrement]:
    [for key, val in self.index.iteritems():
       if val <= threshold: zeros.append(key)
       else: self.index[key] = val - threshold] *)
Fixpoint sweep (threshold : Z) (items : list (K * Z)) (zeros : list K)
  : M (list K) :=
  match items with
  | [] => mret zeros
  | (key, val) :: items =>
      if val <=? threshold
      then sweep threshold items (zeros ++ [key])
      else _ ← store key (val - threshold); sweep threshold items zeros
  end.

(** [_decrement()]: the threshold is the order statistic of a sample of
    the stored counts; the sweep subtracts it everywhere, the second loop
    pops what the sweep collected, and the offset takes it up. *)
Definition _decrement : M Z :=
  d ← getattr index;
  vals ← ask (values d);
  k ← getattr sample;
  smp ← ask_outcome (random.sample vals k);
  r ← getattr order;
  '(threshold, _) ← lift (select smp r);
  d ← getattr index;
  items ← ask (iteritems d);
  zeros ← sweep threshold items [];
  _ ← for_each zeros pop;
  off ← getattr offset;
  _ ← setattr (set_offset (off + threshold));
  mret threshold.

(** [update(key, val)]; a call that leaves [val] out passes 1. *)
Definition update (key : K) (val : Z) : M unit :=
  if val =? 0 then mret tt
  else if val <? 0 then raise (ValueError "value out of range")
  else
    l ← getattr length;
    _ ← setattr (set_length (l + val));
    d ← getattr index;
    match d !! key with
    | Some v => store key (v + val)
    | None =>
        n ← len_index;
        k ← getattr size;
        if n <? k then store key val
        else
          c ← _decrement;
          if val >? c then
            n ← len_index;
            k ← getattr size;
            _ ← assert_ (n <? k);
            store key (val - c)
          else mret tt
    end.

(** [frequency(key)] *)
Definition frequency (self : t) (key : K) : Z * Z :=
  let val := default 0 (index self !! key) in
  (val, val + offset self).

(** [len(self)] and [key in self] *)
Definition __len__ (self : t) : Z := length self.

Definition __contains__ (self : t) (key : K) : bool :=
  bool_decide (is_Some (index self !! key)).

(** The loop of [merge]:
    [for key, val in other.index.iteritems(): self.update(key, val)] *)
Definition replay (other : t) : M unit :=
  items ← ask (iteritems (index other));
  for_each items (fun '(key, val) => update key val).

(** [merge(other)] for an [other] that is a [Counter]. *)
Definition merge (other : t) : M unit :=
  l ← getattr length;
  let length := l + length other in
  _ ← replay other;
  _ ← setattr (set_length length);
  off ← getattr offset;
  setattr (set_offset (off + offset other)).

(** [clear()] *)
Definition clear : M unit :=
  _ ← setattr (set_index ∅);
  _ ← setattr (set_length 0);
  setattr (set_offset 0).

(** [copy()]: [dict.update] lets the entries of its argument win. *)
Definition copy (self : t) : outcome t :=
  copy ← __init__ (Some (size self)) (Some (sample self)) (Some (order self));
  let copy := set_offset (offset self) (set_length (length self) copy) in
  Return (set_index (index self ∪ index copy) copy).

(** [keys()]: [self.index.iterkeys()], the keys in the order of the
    entries. *)
Definition keys : M (list K) :=
  d ← getattr index;
  items ← ask (iteritems d);
  mret items.*1.

End definitions.
End Counter.

(** ** Histories of a counter

    A history tells how a counter came to be: constructed, then updated,
    merged with the counter of another history, cleared or copied.  A
    caller that catches the exception of a rejected [update] goes on with
    the same object, so [run] keeps the state a call leaves behind
    whatever its outcome.  A failed construction yields no counter. *)

Section histories.
Context `{Countable K}.

Inductive history : Type :=
  | New (k sample order : option Z)
  | Update (h : history) (key : K) (val : Z)
  | Merge (h other : history)
  | Clear (h : history)
  | Copy (h : history).

Definition created (r : outcome (Counter.t (K:=K))) : option Counter.t :=
  match r with
  | Return c => Some c
  | _ => None
  end.

Fixpoint run (h : history) (o : Oracle) : option Counter.t * Oracle :=
  match h with
  | New k sample order => (created (Counter.__init__ k sample order), o)
  | Update h key val =>
      match run h o with
      | (Some c, o) => let s := (Counter.update key val (c, o)).2 in
                       (Some s.1, s.2)
      | (None, o) => (None, o)
      end
  | Merge h other =>
      match run h o with
      | (Some c, o) =>
          match run other o with
          | (Some c', o) => let s := (Counter.merge c' (c, o)).2 in
                            (Some s.1, s.2)
          | (None, o) => (None, o)
          end
      | (None, o) => (None, o)
      end
  | Clear h =>
      match run h o with
      | (Some c, o) => let s := (Counter.clear (c, o)).2 in (Some s.1, s.2)
      | (None, o) => (None, o)
      end
  | Copy h =>
      match run h o with
      | (Some c, o) => (created (Counter.copy c), o)
      | (None, o) => (None, o)
      end
  end.

(** The weight an [update] adds to the stream: a negative weight is
    rejected and adds nothing. *)
Definition accepted (val : Z) : Z := if val <? 0 then 0 else val.

(** The true frequency of [key] in the stream a history stands for. *)
Fixpoint true_frequency (h : history) (key : K) : Z :=
  match h with
  | New _ _ _ => 0
  | Update h key' val =>
      true_frequency h key + (if decide (key' = key) then accepted val else 0)
  | Merge h other => true_frequency h key + true_frequency other key
  | Clear _ => 0
  | Copy h => true_frequency h key
  end.

(** A counter some history produces under some oracle. *)
Definition reachable (c : Counter.t) : Prop :=
  ∃ h o o', run h o = (Some c, o').

(** A fresh counter fed a list of updates, and nothing else. *)
Definition updates_only (k sample order : option Z) (ups : list (K * Z))
  : history :=
  foldl (fun h '(key, val) => Update h key val) (New k sample order) ups.

(** The distinct keys of a list of updates. *)
Definition distinct_keys (ups : list (K * Z)) : gset K := list_to_set ups.*1.

End histories.

(** ** Counters as objects on a heap

    Python hands counters around by reference, and a counter holds its
    table by reference too: [self.index] names a dict object.  The heap
    keeps the instances and the dicts apart, so that two instances
    sharing one dict would see each other's stores.  A method call loads
    the instance, runs the method of [Counter] on it and stores the
    attributes back, the table going to the dict the instance names. *)

Module Heap.
Section definitions.
Context `{Countable K}.

Definition ref : Type := positive.

Record instance : Type := mk_instance {
  i_size : Z;
  i_sample : Z;
  i_order : Z;
  i_length : Z;
  i_offset : Z;
  i_index : ref;
}.

Record heap : Type := mk_heap {
  instances : gmap ref instance;
  dicts : gmap ref (gmap K Z);
}.

Definition load (r : ref) (h : heap) : option (Counter.t (K:=K)) :=
  obj ← instances h !! r;
  d ← dicts h !! i_index obj;
  Some (Counter.mk (i_size obj) (i_sample obj) (i_order obj)
                   (i_length obj) (i_offset obj) d).

Definition save (r : ref) (c : Counter.t (K:=K)) (h : heap) : heap :=
  match instances h !! r with
  | Some obj =>
      mk_heap
        (<[r := mk_instance (Counter.size c) (Counter.sample c)
                 (Counter.order c) (Counter.length c) (Counter.offset c)
                 (i_index obj)]> (instances h))
        (<[i_index obj := Counter.index c]> (dicts h))
  | None => h
  end.

(** [r.m(...)]; [None] when [r] names no instance, which no Python
    program can bring about. *)
Definition call {A} (r : ref) (m : Counter.M A) (h : heap) (o : Oracle)
  : option (outcome A * heap * Oracle) :=
  c ← load r h;
  let '(res, (c', o')) := m (c, o) in
  Some (res, save r c' h, o').

(** [Counter(k, sample, order)]: [__init__] binds [self.index] to a new
    empty dict. *)
Definition new (k sample order : option Z) (h : heap) : outcome ref * heap :=
  match Counter.__init__ (K:=K) k sample order with
  | Return c =>
      let d := fresh (dom (dicts h)) in
      let r := fresh (dom (instances h)) in
      (Return r,
       mk_heap
         (<[r := mk_instance (Counter.size c) (Counter.sample c)
                  (Counter.order c) (Counter.length c) (Counter.offset c) d]>
            (instances h))
         (<[d := Counter.index c]> (dicts h)))
  | Raise e => (Raise e, h)
  | Diverge => (Diverge, h)
  end.

Definition update (r : ref) (key : K) (val : Z) (h : heap) (o : Oracle)
  : option (outcome unit * heap * Oracle) :=
  call r (Counter.update key val) h o.

(** [r.merge(other)].  The loop reads [other]'s entries as they are when
    it starts; for [r.merge(r)] every key is tracked already, the loop
    only adds to stored counts, and each entry is read before its own
    store, so reading them up front gives the same result. *)
Definition merge (r other : ref) (h : heap) (o : Oracle)
  : option (outcome unit * heap * Oracle) :=
  c' ← load other h;
  call r (Counter.merge c') h o.

Definition clear (r : ref) (h : heap) (o : Oracle)
  : option (outcome unit * heap * Oracle) :=
  call r Counter.clear h o.

(** [r.copy()]: a new instance from [r]'s parameters, then
    [copy.length, copy.offset = self.length, self.offset] and
    [copy.index.update(self.index)]. *)
Definition copy (r : ref) (h : heap) : option (outcome ref * heap) :=
  self ← load r h;
  match new (Some (Counter.size self)) (Some (Counter.sample self))
            (Some (Counter.order self)) h with
  | (Return r', h) =>
      copy ← load r' h;
      let copy :=
        Counter.set_offset (Counter.offset self)
          (Counter.set_length (Counter.length self) copy) in
      let copy :=
        Counter.set_index (Counter.index self ∪ Counter.index copy) copy in
      Some (Return r', save r' copy h)
  | (Raise e, h) => Some (Raise e, h)
  | (Diverge, h) => Some (Diverge, h)
  end.

(** The calls that change a counter. *)
Inductive mutation : Type :=
  | DoUpdate (key : K) (val : Z)
  | DoMerge (other : ref)
  | DoClear.

Definition mutate (r : ref) (s : heap * Oracle) (m : mutation)
  : heap * Oracle :=
  let attempt :=
    match m with
    | DoUpdate key val => update r key val s.1 s.2
    | DoMerge other => merge r other s.1 s.2
    | DoClear => clear r s.1 s.2
    end in
  match attempt with
  | Some (_, h, o) => (h, o)
  | None => s
  end.

Definition mutate_all (r : ref) (ms : list mutation) (h : heap) (o : Oracle)
  : heap * Oracle :=
  foldl (mutate r) (h, o) ms.

End definitions.
End Heap.

(** ** The builtin [len]

    [len(x)] of a Python 2 object asks [x.__len__()] and hands the
    answer back as an index-sized integer: an answer outside
    [-maxsize - 1 .. maxsize] raises [OverflowError], a negative one
    inside that range [ValueError].  [maxsize] is [sys.maxsize], a
    constant of the platform (2^31 - 1 or 2^63 - 1) and a parameter
    here. *)
Definition len (maxsize : Z) (answer : Z) : outcome Z :=
  if (answer >? maxsize) || (answer <? - maxsize - 1) then Raise OverflowError
  else if answer <? 0 then Raise (ValueError "__len__() should return >= 0")
  else Return answer.

(** ** The sketch

    [Sketch] wraps a counter: its one attribute [_cnt] names a [Counter]
    instance, and every method hands over to that instance.  The
    [isinstance(other, Sketch)] tests of [__ior__] and [__or__] are the
    typing of [other].  A method answers [None] when [_cnt] names no
    instance, which no Python program can bring about. *)

Module Sketch.
Section definitions.
Context `{Countable K}.

Record t : Type := mk { _cnt : Heap.ref }.

(** [Sketch(k=4096, sample=None, order=None, counter=None)]: a new
    [Counter(k=k, sample=sample, order=order)] unless a counter is
    given. *)
Definition __init__ (k sample order : option Z) (counter : option Heap.ref)
    (h : Heap.heap (K:=K)) : outcome t * Heap.heap :=
  match counter with
  | None =>
      match Heap.new (Some (default 4096 k)) sample order h with
      | (Return r, h) => (Return (mk r), h)
      | (Raise e, h) => (Raise e, h)
      | (Diverge, h) => (Diverge, h)
      end
  | Some r => (Return (mk r), h)
  end.

(** [self.__len__()]: [return len(self._cnt)], the builtin [len] on the
    counter, whose [__len__] answers the attribute [length]. *)
Definition __len__ (maxsize : Z) (self : t) (h : Heap.heap (K:=K))
  : option (outcome Z) :=
  (fun c => len maxsize (Counter.__len__ c)) <$> Heap.load (_cnt self) h.

(** [self.__nonzero__()]: [return len(self) > 0], the builtin [len] on
    the sketch itself. *)
Definition __nonzero__ (maxsize : Z) (self : t) (h : Heap.heap (K:=K))
  : option (outcome bool) :=
  (fun r => n ← r; n ← len maxsize n; Return (n >? 0))
    <$> __len__ maxsize self h.

(** [self.frequency(key)] and [self[key]], which calls it *)
Definition frequency (self : t) (key : K) (h : Heap.heap (K:=K))
  : option (Z * Z) :=
  (fun c => Counter.frequency c key) <$> Heap.load (_cnt self) h.

Definition __getitem__ (self : t) (key : K) (h : Heap.heap (K:=K))
  : option (Z * Z) :=
  frequency self key h.

(** [key in self] *)
Definition __contains__ (self : t) (key : K) (h : Heap.heap (K:=K))
  : option bool :=
  (fun c => Counter.__contains__ c key) <$> Heap.load (_cnt self) h.

(** [iter(self)]: the keys of the counter *)
Definition __iter__ (self : t) (h : Heap.heap (K:=K)) (o : Oracle)
  : option (outcome (list K) * Heap.heap * Oracle) :=
  Heap.call (_cnt self) Counter.keys h o.

(** [self.update(key, val)] and [self.clear()] *)
Definition update (self : t) (key : K) (val : Z)
    (h : Heap.heap (K:=K)) (o : Oracle)
  : option (outcome unit * Heap.heap * Oracle) :=
  Heap.update (_cnt self) key val h o.

Definition clear (self : t) (h : Heap.heap (K:=K)) (o : Oracle)
  : option (outcome unit * Heap.heap * Oracle) :=
  Heap.clear (_cnt self) h o.

(** [self |= other]: merges into the own counter and returns [self]. *)
Definition __ior__ (self other : t) (h : Heap.heap (K:=K)) (o : Oracle)
  : option (outcome t * Heap.heap * Oracle) :=
  '(r, h, o) ← Heap.merge (_cnt self) (_cnt other) h o;
  Some (r ≫= (fun _ => Return self), h, o).

(** [self | other]: [Sketch(counter=self._cnt.copy().merge(other._cnt))];
    [merge] returns the counter it was called on, here the copy. *)
Definition __or__ (self other : t) (h : Heap.heap (K:=K)) (o : Oracle)
  : option (outcome t * Heap.heap * Oracle) :=
  '(copied, h) ← Heap.copy (_cnt self) h;
  match copied with
  | Return r =>
      '(merged, h, o) ← Heap.merge r (_cnt other) h o;
      match merged with
      | Return _ =>
          let '(s, h) := __init__ None None None (Some r) h in
          Some (s, h, o)
      | Raise e => Some (Raise e, h, o)
      | Diverge => Some (Diverge, h, o)
      end
  | Raise e => Some (Raise e, h, o)
  | Diverge => Some (Diverge, h, o)
  end.

End definitions.
End Sketch.

(** * Vocabulary of the specifications *)

(** ** The selector *)

(** The value at a position, for stating loop invariants. *)
Definition nthZ (seq : list Z) (p : Z) : Z := default 0 (seq !! Z.to_nat p).

(** The list after [seq[i], seq[j] = seq[j], seq[i]]. *)
Definition swapped (seq : list Z) (i j : Z) : list Z :=
  <[Z.to_nat j := nthZ seq i]> (<[Z.to_nat i := nthZ seq j]> seq).

(** [seq'] rearranges [seq] inside the window [lo..hi] and nowhere else. *)
Definition rearranged (lo hi : Z) (seq seq' : list Z) : Prop :=
  length seq' = length seq
  ∧ seq' ≡ₚ seq
  ∧ (∀ p, 0 <= p → ¬ (lo <= p <= hi) → nthZ seq' p = nthZ seq p)
  ∧ (∀ p, lo <= p <= hi → ∃ q, lo <= q <= hi ∧ nthZ seq' p = nthZ seq q).

(** Everything left of the window is below everything from the window
    on, and everything up to the window is below everything right of it. *)
Definition fenced (lo hi : Z) (seq : list Z) : Prop :=
  (∀ p q, 0 <= p < lo → lo <= q < Z.of_nat (length seq) →
          nthZ seq p <= nthZ seq q)
  ∧ (∀ p q, 0 <= p <= hi → hi < q < Z.of_nat (length seq) →
            nthZ seq p <= nthZ seq q).

(** Position [k] holds a value that splits the sequence. *)
Definition pivoted (seq : list Z) (k : Z) : Prop :=
  (∀ p, 0 <= p < k → nthZ seq p <= nthZ seq k)
  ∧ (∀ q, k < q < Z.of_nat (length seq) → nthZ seq k <= nthZ seq q).

(** ** The counter *)

Section vocabulary.
Context `{Countable K}.

Local Abbreviation t := (Counter.t (K:=K)).
Implicit Types (c : t) (o : Oracle) (d : gmap K Z) (key : K).

(** What [__init__] checks. *)
Definition params_ok c : Prop :=
  0 <= Counter.order c < Counter.sample c ∧ Counter.sample c <= Counter.size c.

(** Every stored count is positive. *)
Definition positive_counts c : Prop :=
  map_Forall (fun _ v => 0 < v) (Counter.index c).

(** [len(self.index) <= self.size] *)
Definition within_capacity c : Prop :=
  Z.of_nat (size (Counter.index c)) <= Counter.size c.

(** The invariant of the counter. *)
Definition wf c : Prop :=
  params_ok c ∧ positive_counts c ∧ within_capacity c ∧ 0 <= Counter.offset c.

(** What the sweep does to one count. *)
Definition shrink (threshold v : Z) : option Z :=
  if v <=? threshold then None else Some (v - threshold).

(** The counter after a sweep with a given threshold. *)
Definition swept (threshold : Z) c : t :=
  Counter.set_offset (Counter.offset c + threshold)
    (Counter.set_index (omap (shrink threshold) (Counter.index c)) c).

(** The table after the first loop of [_decrement], and the keys that
    loop collects in [zeros]. *)
Fixpoint sweep_index (threshold : Z) (items : list (K * Z)) d : gmap K Z :=
  match items with
  | [] => d
  | (key, val) :: items =>
      if val <=? threshold then sweep_index threshold items d
      else sweep_index threshold items (<[key := val - threshold]> d)
  end.

Fixpoint zeros_of (threshold : Z) (items : list (K * Z)) : list K :=
  match items with
  | [] => []
  | (key, val) :: items =>
      if val <=? threshold then key :: zeros_of threshold items
      else zeros_of threshold items
  end.

(** The five ways through [update]: what it answers and the state it
    leaves. *)
Inductive update_case (key : K) (val : Z) c o
  : outcome unit → t → Oracle → Prop :=
  | update_zero :
      val = 0 → update_case key val c o (Return tt) c o
  | update_negative :
      val < 0 →
      update_case key val c o (Raise (ValueError "value out of range")) c o
  | update_tracked v :
      0 < val → Counter.index c !! key = Some v →
      update_case key val c o (Return tt)
        (Counter.set_index (<[key := v + val]> (Counter.index c))
           (Counter.set_length (Counter.length c + val) c)) o
  | update_insert :
      0 < val → Counter.index c !! key = None →
      Z.of_nat (size (Counter.index c)) < Counter.size c →
      update_case key val c o (Return tt)
        (Counter.set_index (<[key := val]> (Counter.index c))
           (Counter.set_length (Counter.length c + val) c)) o
  | update_evict threshold o' key' :
      0 < val → Counter.index c !! key = None →
      Counter.size c <= Z.of_nat (size (Counter.index c)) →
      Counter.index c !! key' = Some threshold →
      Counter._decrement (Counter.set_length (Counter.length c + val) c, o)
      = (Return threshold,
         (swept threshold (Counter.set_length (Counter.length c + val) c),
          o')) →
      update_case key val c o (Return tt)
        (let c' :=
           swept threshold (Counter.set_length (Counter.length c + val) c) in
         if val >? threshold
         then Counter.set_index
                (<[key := val - threshold]> (Counter.index c')) c'
         else c') o'.

(** The count stored for a key, 0 when the key is not tracked. *)
Definition count c key : Z := default 0 (Counter.index c !! key).

(** The counter brackets a frequency function. *)
Definition sound c (f : K → Z) : Prop :=
  ∀ key, count c key <= f key <= count c key + Counter.offset c.

(** The frequency function after one more [update]. *)
Definition bump (f : K → Z) (key : K) (val : Z) : K → Z :=
  fun key' => f key' + (if decide (key = key') then accepted val else 0).

(** The frequency function after the replay loop of [merge]. *)
Definition replayed (f : K → Z) (items : list (K * Z)) : K → Z :=
  foldl (fun f '(key, val) => bump f key val) f items.

(** The counter [merge] leaves behind, given the counter after the
    replay loop. *)
Definition merged (self other after : t) : t :=
  Counter.set_offset (Counter.offset after + Counter.offset other)
    (Counter.set_length (Counter.length self + Counter.length other) after).

(** Two references name different instances holding different dicts. *)
Definition apart (r r' : Heap.ref) (h : Heap.heap (K:=K)) : Prop :=
  r ≠ r'
  ∧ ∃ obj obj', Heap.instances h !! r = Some obj
                ∧ Heap.instances h !! r' = Some obj'
                ∧ Heap.i_index obj ≠ Heap.i_index obj'.

End vocabulary.

(** ** Concrete counters *)

(** A counter of capacity 1: ["a"] is stored, ["b"] forces a sweep that
    evicts ["a"] and is itself dropped, then ["a"] comes back. *)
Definition demo : history (K:=string) :=
  Update (Update (Update (New (Some 1) None None) "a" 5) "b" 3) "a" 2.

Definition demo_counter : Counter.t (K:=string) :=
  Counter.mk 1 1 0 10 5 {["a" := 2]}.

(** The same counter before ["a"] comes back: an empty table and an
    offset of 5. *)
Definition drained : history (K:=string) :=
  Update (Update (New (Some 1) None None) "a" 5) "b" 3.

Definition drained_counter : Counter.t (K:=string) :=
  Counter.mk 1 1 0 8 5 ∅.

(** Three updates on two keys, and a heap holding one fresh counter. *)
Definition demo_updates : list (string * Z) := [("a", 5); ("b", 3); ("a", 2)].

Definition demo_heap : Heap.heap (K:=string) :=
  (Heap.new (Some 2) None None (Heap.mk_heap ∅ ∅)).2.

(** [Sketch.__contains__] and [test_top_k]: with five counters, a sixth
    key evicts ['foo'] and ['4'] is tracked; ['foo'] is then estimated
    between 0 and the offset, which is at least its true count. *)
Definition top_k : history (K:=string) :=
  foldl (fun h '(key, val) => Update h key val) (New (Some 5) None None)
    [("foo", 100); ("0", 1000); ("1", 2000); ("2", 3000); ("3", 4000);
     ("4", 5000)].

(** [Sketch.__or__] and [test_merge]: [m = s | o] is
    [s.copy().merge(o)]; [s] keeps its own estimate. *)
Definition union_scenario : option ((Z * Z) * Z * (Z * Z)) :=
  let h := Heap.mk_heap (K:=string) ∅ ∅ in
  match Heap.new None None None h with
  | (Return s, h) =>
      match Heap.new None None None h with
      | (Return o, h) =>
          '(_, h, _) ← Heap.update s "foo" 100 h [];
          '(_, h, _) ← Heap.update o "foo" 100 h [];
          '(m, h) ← Heap.copy s h;
          match m with
          | Return m =>
              '(_, h, _) ← Heap.merge m o h [];
              cs ← Heap.load s h;
              cm ← Heap.load m h;
              Some (Counter.frequency cs "foo", Counter.__len__ cm,
                    Counter.frequency cm "foo")
          | _ => None
          end
      | _ => None
      end
  | _ => None
  end.

(** A heap holding two fresh counters, at references 1 and 2. *)
Definition demo_heap2 : Heap.heap (K:=string) :=
  (Heap.new None None None demo_heap).2.

(** The docstring of [Sketch.__or__], through the sketch's own methods:
    [s.update('foo', 100); o.update('foo', 100); m = s | o], then
    [s['foo']], [len(m)], [m['foo']] and [bool(m)]. *)
Definition sketch_union_scenario (maxsize : Z)
  : option ((Z * Z) * outcome Z * (Z * Z) * outcome bool) :=
  let h := Heap.mk_heap (K:=string) ∅ ∅ in
  match Sketch.__init__ None None None None h with
  | (Return s, h) =>
      match Sketch.__init__ None None None None h with
      | (Return o, h) =>
          '(_, h, _) ← Sketch.update s "foo" 100 h [];
          '(_, h, _) ← Sketch.update o "foo" 100 h [];
          '(m, h, _) ← Sketch.__or__ s o h [];
          match m with
          | Return m =>
              fs ← Sketch.__getitem__ s "foo" h;
              n ← Sketch.__len__ maxsize m h;
              fm ← Sketch.__getitem__ m "foo" h;
              b ← Sketch.__nonzero__ maxsize m h;
              Some (fs, n, fm, b)
          | _ => None
          end
      | _ => None
      end
  | _ => None
  end.

(** A heap holding two counters that have seen items: the one at
    reference 1 tracks ["a"] after [update('a', 5)], the one at
    reference 2 tracks ["b"] after [update('b', 3)]. *)
Definition demo_heap3 : Heap.heap (K:=string) :=
  (Heap.mutate_all 2%positive [Heap.DoUpdate "b" 3]
     (Heap.mutate_all 1%positive [Heap.DoUpdate "a" 5] demo_heap2 []).1 []).1.

(** [s = Sketch(); s.update('a', n)], then [len(s)] and [bool(s)]. *)
Definition sketch_len_scenario (maxsize n : Z)
  : option (outcome Z * outcome bool) :=
  let h := Heap.mk_heap (K:=string) ∅ ∅ in
  match Sketch.__init__ None None None None h with
  | (Return s, h) =>
      '(_, h, _) ← Sketch.update s "a" n h [];
      l ← Sketch.__len__ maxsize s h;
      b ← Sketch.__nonzero__ maxsize s h;
      Some (l, b)
  | _ => None
  end.

(** [test_merge] of the test suite: [m = s | o; m.update('bar', 100);
    s |= m], then [s['foo']], [s['bar']] and [m['foo']]. *)
Definition test_merge_scenario : option ((Z * Z) * (Z * Z) * (Z * Z)) :=
  let h := Heap.mk_heap (K:=string) ∅ ∅ in
  match Sketch.__init__ None None None None h with
  | (Return s, h) =>
      match Sketch.__init__ None None None None h with
      | (Return o, h) =>
          '(_, h, _) ← Sketch.update s "foo" 100 h [];
          '(_, h, _) ← Sketch.update o "foo" 100 h [];
          '(m, h, _) ← Sketch.__or__ s o h [];
          match m with
          | Return m =>
              '(_, h, _) ← Sketch.update m "bar" 100 h [];
              '(_, h, _) ← Sketch.__ior__ s m h [];
              sf ← Sketch.__getitem__ s "foo" h;
              sb ← Sketch.__getitem__ s "bar" h;
              mf ← Sketch.__getitem__ m "foo" h;
              Some (sf, sb, mf)
          | _ => None
          end
      | _ => None
      end
  | _ => None
  end.

(** ** Further vocabulary *)

Section more_vocabulary.
Context `{Countable K}.

(** The length of the stream a history stands for: the accepted weights,
    the lengths of what was merged in, and nothing from before a
    [clear]. *)
Fixpoint stream_length (h : history (K:=K)) : Z :=
  match h with
  | New _ _ _ => 0
  | Update h _ val => stream_length h + accepted val
  | Merge h other => stream_length h + stream_length other
  | Clear _ => 0
  | Copy h => stream_length h
  end.

(** The sum of a list of integers, and of the counts of a table. *)
Definition sum_list_Z (l : list Z) : Z := foldr Z.add 0 l.

Definition total (d : gmap K Z) : Z := sum_list_Z (map_to_list d).*2.

(** The heap as the methods keep it: every instance names a dict that
    exists, no two instances name the same dict, and every counter on it
    satisfies the counter's invariant. *)
Definition heap_ok (h : Heap.heap (K:=K)) : Prop :=
  (∀ r obj, Heap.instances h !! r = Some obj →
            is_Some (Heap.dicts h !! Heap.i_index obj))
  ∧ (∀ r1 r2 obj1 obj2,
       Heap.instances h !! r1 = Some obj1 →
       Heap.instances h !! r2 = Some obj2 →
       Heap.i_index obj1 = Heap.i_index obj2 → r1 = r2)
  ∧ (∀ r c, Heap.load r h = Some c → wf c).

(** What a counter accounts for does not exceed its length. *)
Definition mass (c : Counter.t (K:=K)) : Prop :=
  total (Counter.index c) + Counter.offset c <= Counter.length c.

End more_vocabulary.

(** * Correctness of the selector *)

Section SelectProofs.
Import Select.

Implicit Types (seq : list Z) (i j p q lo hi v : Z).

Lemma lookup_nthZ seq p :
  0 <= p < Z.of_nat (length seq) → seq !! Z.to_nat p = Some (nthZ seq p).
Proof.
  intros Hp. unfold nthZ.
  destruct (lookup_lt_is_Some_2 seq (Z.to_nat p)) as [x Hx]; [lia|].
  by rewrite Hx.
Qed.

Lemma getitem_in seq i :
  0 <= i < Z.of_nat (length seq) → getitem seq i = Return (nthZ seq i).
Proof.
  intros Hi. unfold getitem, norm_index.
  destruct (Z.ltb_spec i 0); [lia|].
  destruct (Z.ltb_spec i 0); [lia|].
  destruct (Z.leb_spec (Z.of_nat (length seq)) i); [lia|]. simpl.
  by rewrite lookup_nthZ.
Qed.

Lemma setitem_in seq i x :
  0 <= i < Z.of_nat (length seq) →
  setitem seq i x = Return (<[Z.to_nat i := x]> seq).
Proof.
  intros Hi. unfold setitem, norm_index.
  destruct (Z.ltb_spec i 0); [lia|].
  destruct (Z.ltb_spec i 0); [lia|].
  destruct (Z.leb_spec (Z.of_nat (length seq)) i); [lia|]. done.
Qed.

Lemma swap_in seq i j :
  0 <= i < Z.of_nat (length seq) → 0 <= j < Z.of_nat (length seq) →
  swap seq i j = Return (swapped seq i j).
Proof.
  intros Hi Hj. unfold swap.
  rewrite (getitem_in seq j), (getitem_in seq i) by done. simpl.
  rewrite setitem_in by done. simpl.
  rewrite setitem_in by (rewrite length_insert; done). done.
Qed.

Lemma length_swapped seq i j : length (swapped seq i j) = length seq.
Proof. unfold swapped. by rewrite !length_insert. Qed.

Lemma swapped_Permutation seq i j :
  0 <= i < Z.of_nat (length seq) → 0 <= j < Z.of_nat (length seq) →
  swapped seq i j ≡ₚ seq.
Proof.
  intros Hi Hj. unfold swapped.
  apply Permutation_insert_swap; by apply lookup_nthZ.
Qed.

Lemma nthZ_insert_eq seq p x :
  0 <= p < Z.of_nat (length seq) → nthZ (<[Z.to_nat p := x]> seq) p = x.
Proof.
  intros Hp. unfold nthZ. rewrite list_lookup_insert_eq by lia. done.
Qed.

Lemma nthZ_insert_ne seq p q x :
  0 <= p → 0 <= q → p ≠ q → nthZ (<[Z.to_nat p := x]> seq) q = nthZ seq q.
Proof.
  intros Hp Hq Hne. unfold nthZ. rewrite list_lookup_insert_ne by lia. done.
Qed.

Lemma nthZ_swapped_l seq i j :
  0 <= i < Z.of_nat (length seq) → 0 <= j < Z.of_nat (length seq) →
  nthZ (swapped seq i j) i = nthZ seq j.
Proof.
  intros Hi Hj. unfold swapped. destruct (decide (i = j)) as [->|Hne].
  - rewrite nthZ_insert_eq; [done|]. by rewrite length_insert.
  - rewrite nthZ_insert_ne by lia. by rewrite nthZ_insert_eq.
Qed.

Lemma nthZ_swapped_r seq i j :
  0 <= i < Z.of_nat (length seq) → 0 <= j < Z.of_nat (length seq) →
  nthZ (swapped seq i j) j = nthZ seq i.
Proof.
  intros Hi Hj. unfold swapped.
  rewrite nthZ_insert_eq; [done|]. by rewrite length_insert.
Qed.

Lemma nthZ_swapped_other seq i j p :
  0 <= i → 0 <= j → 0 <= p → p ≠ i → p ≠ j →
  nthZ (swapped seq i j) p = nthZ seq p.
Proof.
  intros Hi Hj Hp Hpi Hpj. unfold swapped.
  by rewrite !nthZ_insert_ne by lia.
Qed.

(** *** The two scans *)

Lemma scan_up_spec fuel seq v hi : ∀ i,
  0 <= i < hi → hi < Z.of_nat (length seq) →
  (Z.to_nat (hi - i) <= fuel)%nat →
  ∃ i', scan_up fuel seq v hi i = Return i'
        ∧ i < i' <= hi
        ∧ (∀ p, i < p < i' → nthZ seq p < v)
        ∧ (i' = hi ∨ v <= nthZ seq i').
Proof.
  induction fuel as [|fuel IH]; intros i Hi Hhi Hfuel; [lia|].
  simpl. destruct (Z.eqb_spec (i + 1) hi) as [Heq|Hne].
  - exists (i + 1). split_and!; [done|lia|lia|intros; lia|by left].
  - rewrite getitem_in by lia. simpl.
    destruct (Z.geb_spec (nthZ seq (i + 1)) v) as [Hge|Hlt].
    + exists (i + 1). split_and!; [done|lia|lia|intros; lia|right; lia].
    + destruct (IH (i + 1)) as (i' & Hrun & Hrange & Hbelow & Hstop);
        [lia|lia|lia|].
      exists i'. split_and!; [done|lia|lia| |done].
      intros p Hp. destruct (decide (p = i + 1)) as [->|?]; [lia|].
      apply Hbelow. lia.
Qed.

Lemma scan_down_spec fuel seq v lo : ∀ j,
  0 <= lo < j → j <= Z.of_nat (length seq) →
  (Z.to_nat (j - lo) <= fuel)%nat →
  ∃ j', scan_down fuel seq v lo j = Return j'
        ∧ lo <= j' < j
        ∧ (∀ p, j' < p < j → v < nthZ seq p)
        ∧ (j' = lo ∨ nthZ seq j' <= v).
Proof.
  induction fuel as [|fuel IH]; intros j Hj Hlen Hfuel; [lia|].
  simpl. destruct (Z.eqb_spec (j - 1) lo) as [Heq|Hne].
  - exists (j - 1). split_and!; [done|lia|lia|intros; lia|by left].
  - rewrite getitem_in by lia. simpl.
    destruct (Z.leb_spec (nthZ seq (j - 1)) v) as [Hle|Hgt].
    + exists (j - 1). split_and!; [done|lia|lia|intros; lia|right; lia].
    + destruct (IH (j - 1)) as (j' & Hrun & Hrange & Habove & Hstop);
        [lia|lia|lia|].
      exists j'. split_and!; [done|lia|lia| |done].
      intros p Hp. destruct (decide (p = j - 1)) as [->|?]; [lia|].
      apply Habove. lia.
Qed.

(** *** Rearrangements confined to a window *)

Lemma rearranged_refl lo hi seq : rearranged lo hi seq seq.
Proof. split_and!; [done|done|done|]. intros p Hp. by exists p. Qed.

Lemma rearranged_trans lo hi seq1 seq2 seq3 :
  rearranged lo hi seq1 seq2 → rearranged lo hi seq2 seq3 →
  rearranged lo hi seq1 seq3.
Proof.
  intros (Hl1 & Hp1 & Ho1 & Hi1) (Hl2 & Hp2 & Ho2 & Hi2).
  split_and!.
  - congruence.
  - by rewrite Hp2.
  - intros p Hp Hout. rewrite Ho2, Ho1; done.
  - intros p Hp. destruct (Hi2 p Hp) as (q & Hq & ->).
    destruct (Hi1 q Hq) as (r & Hr & ->). by exists r.
Qed.

Lemma rearranged_swapped lo hi seq i j :
  0 <= lo → hi < Z.of_nat (length seq) →
  lo <= i <= hi → lo <= j <= hi →
  rearranged lo hi seq (swapped seq i j).
Proof.
  intros Hlo Hhi Hi Hj. split_and!.
  - apply length_swapped.
  - apply swapped_Permutation; lia.
  - intros p Hp Hout. apply nthZ_swapped_other; lia.
  - intros p Hp. destruct (decide (p = j)) as [->|Hpj].
    { exists i. split; [done|]. apply nthZ_swapped_r; lia. }
    destruct (decide (p = i)) as [->|Hpi].
    { exists j. split; [done|]. apply nthZ_swapped_l; lia. }
    exists p. split; [done|]. apply nthZ_swapped_other; lia.
Qed.

(** *** The partition *)

Lemma partition_loop_spec gas lo hi v : ∀ fuel seq i j,
  0 <= lo → hi < Z.of_nat (length seq) →
  lo <= i < hi → i < j <= hi + 1 →
  nthZ seq lo = v →
  (∀ p, lo < p <= i → nthZ seq p <= v) →
  (∀ p, j <= p <= hi → v <= nthZ seq p) →
  (Z.to_nat (j - i) <= fuel)%nat →
  (Z.to_nat (hi - lo + 1) <= gas)%nat →
  ∃ seq' j', partition_loop gas fuel seq lo hi v i j = Return (seq', j')
    ∧ lo <= j' <= hi
    ∧ rearranged lo hi seq seq'
    ∧ nthZ seq' lo = v
    ∧ (∀ p, lo < p <= j' → nthZ seq' p <= v)
    ∧ (∀ p, j' < p <= hi → v <= nthZ seq' p).
Proof.
  induction fuel as [|fuel IH];
    intros seq i j Hlo Hhi Hi Hj Hv Hleft Hright Hfuel Hgas; [lia|].
  simpl.
  destruct (scan_up_spec gas seq v hi i) as (i' & -> & Hi' & Hbelow & Hstopi);
    [lia|lia|lia|].
  simpl.
  destruct (scan_down_spec gas seq v lo j) as (j' & -> & Hj' & Habove & Hstopj);
    [lia|lia|lia|].
  simpl. destruct (Z.geb_spec i' j') as [Hcross|Hmore].
  - exists seq, j'. split_and!; [done|lia|lia|apply rearranged_refl|done| |].
    + intros p Hp.
      destruct (Z.le_gt_cases p i) as [?|?]; [apply Hleft; lia|].
      destruct (Z.lt_ge_cases p i') as [?|?];
        [apply Z.lt_le_incl, Hbelow; lia|].
      assert (p = j') as -> by lia.
      destruct Hstopj as [?|?]; [lia|done].
    + intros p Hp.
      destruct (Z.le_gt_cases j p) as [?|?]; [apply Hright; lia|].
      apply Z.lt_le_incl, Habove; lia.
  - assert (v <= nthZ seq i') as Hvi by (destruct Hstopi; [lia|done]).
    assert (nthZ seq j' <= v) as Hvj by (destruct Hstopj; [lia|done]).
    rewrite swap_in by lia. simpl.
    destruct (IH (swapped seq i' j') i' j')
      as (seq' & j'' & Hrun & Hrange & Hre & Hlo' & Hl' & Hr').
    + done.
    + by rewrite length_swapped.
    + lia.
    + lia.
    + rewrite nthZ_swapped_other by lia. done.
    + intros p Hp. destruct (decide (p = i')) as [->|Hne].
      * rewrite nthZ_swapped_l by lia. done.
      * rewrite nthZ_swapped_other by lia.
        destruct (Z.le_gt_cases p i) as [?|?]; [apply Hleft; lia|].
        apply Z.lt_le_incl, Hbelow; lia.
    + intros p Hp. destruct (decide (p = j')) as [->|Hne].
      * rewrite nthZ_swapped_r by lia. done.
      * rewrite nthZ_swapped_other by lia.
        destruct (Z.le_gt_cases j p) as [?|?]; [apply Hright; lia|].
        apply Z.lt_le_incl, Habove; lia.
    + lia.
    + done.
    + exists seq', j''. split_and!; try done; try lia.
      eapply rearranged_trans; [|exact Hre].
      apply rearranged_swapped; lia.
Qed.

Lemma partition_spec gas seq lo hi :
  0 <= lo < hi → hi < Z.of_nat (length seq) →
  (Z.to_nat (hi - lo + 1) <= gas)%nat →
  ∃ seq' j, partition gas seq lo hi = Return (seq', j)
    ∧ lo <= j <= hi
    ∧ rearranged lo hi seq seq'
    ∧ (∀ p, lo <= p < j → nthZ seq' p <= nthZ seq' j)
    ∧ (∀ p, j < p <= hi → nthZ seq' j <= nthZ seq' p).
Proof.
  intros Hlo Hhi Hgas. unfold partition.
  rewrite getitem_in by lia. simpl.
  destruct (partition_loop_spec gas lo hi (nthZ seq lo) gas seq lo (hi + 1))
    as (seq1 & j & -> & Hj & Hre & Hv & Hl & Hr);
    [lia|lia|lia|lia|done|intros; lia|intros; lia|lia|lia|].
  simpl. pose proof Hre as (Hlen & _).
  rewrite swap_in by lia. simpl.
  exists (swapped seq1 lo j), j. split_and!; [done|lia|lia| | |].
  - eapply rearranged_trans; [exact Hre|].
    apply rearranged_swapped; lia.
  - intros p Hp. rewrite nthZ_swapped_r by lia. rewrite Hv.
    destruct (decide (p = lo)) as [->|Hne].
    + rewrite nthZ_swapped_l by lia. apply Hl. lia.
    + rewrite nthZ_swapped_other by lia. apply Hl. lia.
  - intros p Hp. rewrite nthZ_swapped_r by lia. rewrite Hv.
    rewrite nthZ_swapped_other by lia. apply Hr. lia.
Qed.

(** *** The quickselect loop *)

Lemma fenced_shrink_hi lo hi seq seq' idx :
  0 <= lo → hi < Z.of_nat (length seq) → lo <= idx <= hi →
  fenced lo hi seq → rearranged lo hi seq seq' →
  (∀ p, lo <= p < idx → nthZ seq' p <= nthZ seq' idx) →
  (∀ p, idx < p <= hi → nthZ seq' idx <= nthZ seq' p) →
  fenced lo (idx - 1) seq' ∧ fenced (idx + 1) hi seq' ∧ pivoted seq' idx.
Proof.
  intros Hlo Hhi Hidx [Hfl Hfr] (Hlen & _ & Hout & Hin) Hl Hr.
  assert (∀ p q, 0 <= p < lo → lo <= q < Z.of_nat (length seq) →
                 nthZ seq' p <= nthZ seq' q) as Hfl'.
  { intros p q Hp Hq. rewrite (Hout p) by lia.
    destruct (Z.le_gt_cases q hi) as [?|?].
    - destruct (Hin q) as (r & Hr' & ->); [lia|]. apply Hfl; lia.
    - rewrite (Hout q) by lia. apply Hfl; lia. }
  assert (∀ p q, 0 <= p <= hi → hi < q < Z.of_nat (length seq) →
                 nthZ seq' p <= nthZ seq' q) as Hfr'.
  { intros p q Hp Hq. rewrite (Hout q) by lia.
    destruct (Z.lt_ge_cases p lo) as [?|?].
    - rewrite (Hout p) by lia. apply Hfr; lia.
    - destruct (Hin p) as (r & Hr' & ->); [lia|]. apply Hfr; lia. }
  assert (∀ p, 0 <= p < idx → nthZ seq' p <= nthZ seq' idx) as Hbelow.
  { intros p Hp. destruct (Z.lt_ge_cases p lo) as [?|?];
      [apply Hfl'; lia|apply Hl; lia]. }
  assert (∀ q, idx < q < Z.of_nat (length seq) →
               nthZ seq' idx <= nthZ seq' q) as Habove.
  { intros q Hq. destruct (Z.le_gt_cases q hi) as [?|?];
      [apply Hr; lia|apply Hfr'; lia]. }
  rewrite <- Hlen in *.
  split_and!; split.
  - intros p q Hp Hq. apply Hfl'; lia.
  - intros p q Hp Hq. destruct (Z.le_gt_cases q idx) as [?|?].
    + assert (q = idx) as -> by lia. apply Hbelow; lia.
    + etrans; [apply Hbelow; lia|apply Habove; lia].
  - intros p q Hp Hq. destruct (Z.lt_ge_cases p idx) as [?|?].
    + etrans; [apply Hbelow; lia|apply Habove; lia].
    + assert (p = idx) as -> by lia. apply Habove; lia.
  - intros p q Hp Hq. apply Hfr'; lia.
  - done.
  - done.
Qed.

Lemma qselect_loop_spec gas pivot : ∀ fuel seq lo hi,
  0 <= lo → lo <= pivot <= hi → hi < Z.of_nat (length seq) →
  fenced lo hi seq →
  (Z.to_nat (hi - lo + 1) <= fuel)%nat →
  (length seq <= gas)%nat →
  ∃ seq', qselect_loop gas fuel seq lo hi pivot
            = Return (nthZ seq' pivot, seq')
    ∧ seq' ≡ₚ seq ∧ length seq' = length seq ∧ pivoted seq' pivot.
Proof.
  induction fuel as [|fuel IH];
    intros seq lo hi Hlo Hpivot Hhi Hfence Hfuel Hgas; [lia|].
  simpl. destruct (Z.gtb_spec hi lo) as [Hgt|Hle].
  - destruct (partition_spec gas seq lo hi)
      as (seq1 & idx & -> & Hidx & Hre & Hl & Hr); [lia|lia|lia|].
    simpl. pose proof Hre as (Hlen & Hperm & _).
    destruct (fenced_shrink_hi lo hi seq seq1 idx)
      as (Hf1 & Hf2 & Hpiv); [done..|].
    destruct (Z.eqb_spec idx pivot) as [->|Hne].
    { rewrite getitem_in by lia. simpl. by exists seq1. }
    destruct (Z.gtb_spec idx pivot) as [Hbig|Hsmall].
    + destruct (IH seq1 lo (idx - 1)) as (seq' & -> & Hp' & Hl' & Hpiv');
        [lia|lia|lia|done|lia|lia|].
      exists seq'. split_and!; [done| |congruence|done]. by rewrite Hp'.
    + destruct (IH seq1 (idx + 1) hi) as (seq' & -> & Hp' & Hl' & Hpiv');
        [lia|lia|lia|done|lia|lia|].
      exists seq'. split_and!; [done| |congruence|done]. by rewrite Hp'.
  - assert (lo = pivot ∧ hi = pivot) as [-> ->] by lia.
    rewrite getitem_in by lia. simpl.
    exists seq. split_and!; [done|done|done|].
    destruct Hfence as [Hfl Hfr]. split.
    + intros p Hp. apply Hfl; lia.
    + intros q Hq. apply Hfr; lia.
Qed.

(** *** A splitting position holds the order statistic *)

Lemma pivoted_sorted seq k :
  0 <= k < Z.of_nat (length seq) → pivoted seq k →
  sorted seq !! Z.to_nat k = Some (nthZ seq k).
Proof.
  intros Hk [Hbelow Habove].
  pose proof (lookup_nthZ seq k Hk) as Hx.
  set (x := nthZ seq k) in *. set (n := Z.to_nat k) in *.
  set (l1 := take n seq). set (l2 := drop (S n) seq).
  assert (seq = l1 ++ x :: l2) as Hseq
    by (symmetry; by apply take_drop_middle).
  assert (length l1 = n) as Hl1 by (apply length_take_le; lia).
  assert (∀ y, y ∈ l1 → y <= x) as H1.
  { intros y [i [Hi Hlt]]%elem_of_take.
    specialize (Hbelow (Z.of_nat i)).
    unfold nthZ in Hbelow at 1. rewrite Nat2Z.id, Hi in Hbelow.
    apply Hbelow. lia. }
  assert (∀ y, y ∈ l2 → x <= y) as H2.
  { intros y [i Hi]%list_elem_of_lookup. unfold l2 in Hi.
    rewrite lookup_drop in Hi.
    pose proof (lookup_lt_Some _ _ _ Hi) as Hlt.
    specialize (Habove (Z.of_nat (S n + i))).
    unfold nthZ in Habove at 1. rewrite Nat2Z.id, Hi in Habove.
    apply Habove. lia. }
  assert (sorted seq = sorted l1 ++ x :: sorted l2) as ->.
  { apply (StronglySorted_unique Z.le).
    - apply StronglySorted_merge_sort; apply _.
    - apply StronglySorted_app_2.
      + intros y z Hy Hz. unfold sorted in Hy.
        rewrite merge_sort_Permutation in Hy.
        apply elem_of_cons in Hz as [->|Hz]; [by apply H1|].
        unfold sorted in Hz. rewrite merge_sort_Permutation in Hz.
        etrans; [by apply H1|by apply H2].
      + apply StronglySorted_merge_sort; apply _.
      + apply StronglySorted_cons. split.
        * apply Forall_forall. intros z Hz. unfold sorted in Hz.
          rewrite merge_sort_Permutation in Hz. by apply H2.
        * apply StronglySorted_merge_sort; apply _.
    - unfold sorted. rewrite !merge_sort_Permutation. by rewrite Hseq at 1. }
  assert (length (sorted l1) = n) as Hs1.
  { unfold sorted. by rewrite merge_sort_Permutation. }
  rewrite lookup_app_r by lia. by rewrite Hs1, Nat.sub_diag.
Qed.

Lemma select_in_range s k :
  0 <= k < Z.of_nat (length s) →
  ∃ s', select s k = Return (nthZ s' k, s')
        ∧ s' ≡ₚ s ∧ length s' = length s
        ∧ sorted s !! Z.to_nat k = Some (nthZ s' k).
Proof.
  intros Hk. unfold select.
  destruct (Z.ltb_spec k 0); [lia|].
  destruct (Z.geb_spec k (Z.of_nat (length s))); [lia|]. simpl.
  unfold qselect.
  destruct (qselect_loop_spec (S (length s)) k (S (length s)) s 0
              (Z.of_nat (length s) - 1))
    as (s' & -> & Hperm & Hlen & Hpiv); [lia|lia|lia| |lia|lia|].
  { split; intros p q Hp Hq; lia. }
  exists s'. split_and!; [done..|].
  rewrite <- (pivoted_sorted s' k) by (done || lia).
  unfold sorted. apply (f_equal (λ l, l !! Z.to_nat k)).
  apply (StronglySorted_unique Z.le);
    [apply StronglySorted_merge_sort; apply _..|].
  by rewrite !merge_sort_Permutation.
Qed.

(** *** Arguments of the three kinds *)

(** With item assignment available the loops are those of [Select]. *)
Lemma partition_loop_assignable gas fuel : ∀ seq lo hi v i j,
  SelectOn.partition_loop true gas fuel seq lo hi v i j
  = partition_loop gas fuel seq lo hi v i j.
Proof.
  induction fuel as [|fuel IH]; intros seq lo hi v i j; [done|].
  simpl. destruct (scan_up gas seq v hi i) as [i'| |]; simpl; [|done..].
  destruct (scan_down gas seq v lo j) as [j'| |]; simpl; [|done..].
  destruct (i' >=? j'); [done|].
  change (swap_on true seq i' j') with (swap seq i' j').
  destruct (swap seq i' j') as [seq'| |]; simpl; [|done..]. apply IH.
Qed.

Lemma partition_assignable gas seq lo hi :
  SelectOn.partition true gas seq lo hi = partition gas seq lo hi.
Proof.
  unfold SelectOn.partition, partition.
  destruct (getitem seq lo) as [v| |]; simpl; [|done..].
  by rewrite partition_loop_assignable.
Qed.

Lemma qselect_loop_assignable gas fuel : ∀ seq lo hi pivot,
  SelectOn.qselect_loop true gas fuel seq lo hi pivot
  = qselect_loop gas fuel seq lo hi pivot.
Proof.
  induction fuel as [|fuel IH]; intros seq lo hi pivot; [done|].
  simpl. destruct (hi >? lo); [|done].
  rewrite partition_assignable.
  destruct (partition gas seq lo hi) as [[seq' idx]| |]; simpl; [|done..].
  destruct (idx =? pivot); [done|].
  destruct (idx >? pivot); apply IH.
Qed.

(** On a list, and on an iterable that is first copied into one,
    [select] is the function of the same name above. *)
Lemma select_on_assignable (a : argument) k :
  assignable a = true → select_on a k = select (items_of a) k.
Proof.
  intros Ha. unfold select_on, select, SelectOn.qselect, qselect.
  rewrite Ha. destruct (_ || _); [done|]. apply qselect_loop_assignable.
Qed.

(** Without item assignment the first pass of [partition] already
    fails: its scans only read, and whichever store comes first, the
    one inside the loop or the one after it, raises [TypeError]. *)
Lemma partition_not_assignable gas seq lo hi :
  0 <= lo < hi → hi < Z.of_nat (length seq) →
  (Z.to_nat (hi - lo + 1) <= gas)%nat →
  SelectOn.partition false gas seq lo hi = Raise TypeError.
Proof.
  intros Hlo Hhi Hgas. unfold SelectOn.partition.
  rewrite getitem_in by lia. simpl.
  destruct gas as [|gas']; [lia|].
  cbn [SelectOn.partition_loop].
  destruct (scan_up_spec (S gas') seq (nthZ seq lo) hi lo)
    as (i' & -> & Hi' & _); [lia|lia|lia|].
  destruct (scan_down_spec (S gas') seq (nthZ seq lo) lo (hi + 1))
    as (j' & -> & Hj' & _); [lia|lia|lia|].
  cbn [mbind outcome_bind].
  destruct (i' >=? j').
  - cbn [mbind outcome_bind]. unfold swap_on.
    rewrite !getitem_in by lia. done.
  - unfold swap_on. rewrite !getitem_in by lia. done.
Qed.

Lemma select_on_not_assignable (a : argument) k :
  assignable a = false →
  (2 <= length (items_of a))%nat → 0 <= k < Z.of_nat (length (items_of a)) →
  select_on a k = Raise TypeError.
Proof.
  intros Ha Hlen Hk. unfold select_on, SelectOn.qselect. rewrite Ha.
  destruct (Z.ltb_spec k 0); [lia|].
  destruct (Z.geb_spec k (Z.of_nat (length (items_of a)))); [lia|].
  cbn [orb SelectOn.qselect_loop].
  destruct (Z.gtb_spec (Z.of_nat (length (items_of a)) - 1) 0); [|lia].
  by rewrite partition_not_assignable by lia.
Qed.

End SelectProofs.

(** * Sampling and iteration order *)

Section OracleProofs.

Lemma draw_spec {A} (k : nat) : ∀ (pool : list A) (o : Oracle),
  (k <= length pool)%nat →
  length (random.draw pool k o).1 = k ∧ (random.draw pool k o).1 ⊆+ pool.
Proof.
  induction k as [|k IH]; intros pool o Hk; simpl.
  { split; [done|]. apply submseteq_nil_l. }
  destruct (next o) as [d o1].
  assert (d mod length pool < length pool)%nat as Hj
    by (apply Nat.mod_upper_bound; lia).
  destruct (lookup_lt_is_Some_2 pool _ Hj) as [x Hx]. rewrite Hx.
  specialize (IH (delete (d mod length pool)%nat pool) o1).
  destruct (random.draw (delete (d mod length pool)%nat pool) k o1)
    as [rest o2]. simpl in *.
  destruct IH as [IH1 IH2].
  { rewrite length_delete by eauto. lia. }
  split; [by rewrite IH1|].
  rewrite (delete_Permutation pool _ x Hx). by apply submseteq_skip.
Qed.

Lemma sample_spec {A} (population : list A) (k : Z) (o : Oracle) :
  0 <= k <= Z.of_nat (length population) →
  ∃ l o', random.sample population k o = (Return l, o')
          ∧ length l = Z.to_nat k ∧ l ⊆+ population.
Proof.
  intros Hk. unfold random.sample.
  destruct (Z.ltb_spec k 0); [lia|].
  destruct (Z.ltb_spec (Z.of_nat (length population)) k); [lia|]. simpl.
  pose proof (draw_spec (Z.to_nat k) population o) as Hd.
  destruct (random.draw population (Z.to_nat k) o) as [l o'].
  exists l, o'. split; [done|]. apply Hd. lia.
Qed.

(** Every way of taking entries at distinct positions is the answer to
    some oracle, so nothing [random.sample] may return is left out. *)
Lemma draw_complete {A} : ∀ (l pool : list A),
  l ⊆+ pool → ∃ o, random.draw pool (length l) o = (l, []).
Proof.
  induction l as [|x l IH]; intros pool Hsub; [by exists []|].
  assert (x ∈ pool) as [j Hj]%list_elem_of_lookup.
  { eapply elem_of_submseteq; [|exact Hsub]. by left. }
  destruct (IH (delete j pool)) as [o Ho].
  { apply (submseteq_app_inv_l _ _ [x]). simpl.
    by rewrite <- (delete_Permutation pool j x Hj). }
  exists (j :: o). simpl.
  rewrite Nat.mod_small by eauto using lookup_lt_Some.
  by rewrite Hj, Ho.
Qed.

Lemma sample_complete {A} (population l : list A) :
  l ⊆+ population →
  ∃ o, random.sample population (Z.of_nat (length l)) o = (Return l, []).
Proof.
  intros Hsub. destruct (draw_complete l population Hsub) as [o Ho].
  exists o. unfold random.sample.
  pose proof (submseteq_length _ _ Hsub).
  destruct (Z.ltb_spec (Z.of_nat (length l)) 0); [lia|].
  destruct (Z.ltb_spec (Z.of_nat (length population))
              (Z.of_nat (length l))); [lia|].
  simpl. by rewrite Nat2Z.id, Ho.
Qed.

Context `{Countable K}.

Lemma iteritems_spec {V} (d : gmap K V) (o : Oracle) :
  (iteritems d o).1 ≡ₚ map_to_list d.
Proof.
  unfold iteritems.
  destruct (draw_spec (size d) (map_to_list d) o) as [Hlen Hsub].
  { by rewrite length_map_to_list. }
  apply submseteq_length_Permutation; [done|].
  by rewrite Hlen, length_map_to_list.
Qed.

Lemma iteritems_NoDup {V} (d : gmap K V) (o : Oracle) :
  NoDup (iteritems d o).1.*1.
Proof. rewrite iteritems_spec. apply NoDup_fst_map_to_list. Qed.

Lemma iteritems_elem_of {V} (d : gmap K V) (o : Oracle) key (v : V) :
  (key, v) ∈ (iteritems d o).1 ↔ d !! key = Some v.
Proof. rewrite iteritems_spec. apply elem_of_map_to_list. Qed.

Lemma iteritems_list_to_map {V} (d : gmap K V) (o : Oracle) :
  list_to_map (iteritems d o).1 = d.
Proof.
  rewrite <- (list_to_map_to_list d) at 2.
  apply list_to_map_proper; [apply iteritems_NoDup|apply iteritems_spec].
Qed.

(** Every order of the entries is the answer to some oracle. *)
Lemma iteritems_complete {V} (d : gmap K V) (items : list (K * V)) :
  items ≡ₚ map_to_list d → ∃ o, iteritems d o = (items, []).
Proof.
  intros Hperm. unfold iteritems.
  destruct (draw_complete items (map_to_list d)) as [o Ho].
  { by apply Permutation_submseteq. }
  exists o.
  assert (size d = length items) as ->; [|done].
  by rewrite <- length_map_to_list, Hperm.
Qed.

Lemma values_spec {V} (d : gmap K V) (o : Oracle) :
  length (values d o).1 = size d
  ∧ ∀ v, v ∈ (values d o).1 → ∃ key, d !! key = Some v.
Proof.
  unfold values. pose proof (iteritems_spec d o) as Hp.
  pose proof (iteritems_elem_of d o) as He.
  destruct (iteritems d o) as [items o']. simpl in *. split.
  - by rewrite length_fmap, Hp, length_map_to_list.
  - intros v [[key v'] [-> Hin]]%list_elem_of_fmap. exists key. by apply He.
Qed.

End OracleProofs.

(** * The counter: invariants and the eviction sweep *)

Section CounterProofs.
Context `{Countable K}.

Local Abbreviation t := (Counter.t (K:=K)).
Implicit Types (c : t) (o : Oracle) (d : gmap K Z) (key : K).

Lemma bind_run {A B} (m : Counter.M A) (f : A → Counter.M B)
    (s : Counter.State (K:=K)) :
  (m ≫= f) s = match m s with
               | (Return a, s') => f a s'
               | (Raise e, s') => (Raise e, s')
               | (Diverge, s') => (Diverge, s')
               end.
Proof. reflexivity. Qed.

Lemma sweep_run threshold : ∀ (items : list (K * Z)) zeros c o,
  Counter.sweep threshold items zeros (c, o)
  = (Return (zeros ++ zeros_of threshold items),
     (Counter.set_index (sweep_index threshold items (Counter.index c)) c, o)).
Proof.
  induction items as [|[key val] items IH]; intros zeros c o; simpl.
  { rewrite app_nil_r. by destruct c. }
  destruct (val <=? threshold).
  - rewrite IH. by rewrite <- app_assoc.
  - rewrite bind_run. simpl. rewrite IH. by destruct c.
Qed.

Lemma elem_of_zeros_of threshold key : ∀ items : list (K * Z),
  key ∈ zeros_of threshold items ↔ ∃ v, (key, v) ∈ items ∧ v <= threshold.
Proof.
  induction items as [|[key' val] items IH]; simpl.
  { split; [by intros ?%elem_of_nil|by intros (? & ?%elem_of_nil & _)]. }
  destruct (Z.leb_spec val threshold) as [Hle|Hgt].
  - rewrite elem_of_cons, IH. split.
    + intros [->|(v & Hin & Hv)]; [exists val|exists v];
        (split; [|done]); rewrite elem_of_cons; auto.
    + intros (v & [[= -> ->]|Hin]%elem_of_cons & Hv); [by left|].
      right. by exists v.
  - rewrite IH. split.
    + intros (v & Hin & Hv). exists v. split; [|done].
      rewrite elem_of_cons; auto.
    + intros (v & [[= -> ->]|Hin]%elem_of_cons & Hv); [lia|]. by exists v.
Qed.

Lemma NoDup_zeros_of threshold : ∀ items : list (K * Z),
  NoDup items.*1 → NoDup (zeros_of threshold items).
Proof.
  induction items as [|[key val] items IH]; simpl; [constructor|].
  intros [Hnotin Hnd]%NoDup_cons. destruct (val <=? threshold); [|auto].
  apply NoDup_cons. split; [|auto].
  intros (v & Hin & _)%elem_of_zeros_of. apply Hnotin.
  apply list_elem_of_fmap. by exists (key, v).
Qed.

Lemma lookup_sweep_index threshold key : ∀ (items : list (K * Z)) d,
  NoDup items.*1 →
  sweep_index threshold items d !! key
  = match (list_to_map items : gmap K Z) !! key with
    | Some v => if v <=? threshold then d !! key else Some (v - threshold)
    | None => d !! key
    end.
Proof.
  induction items as [|[key' val] items IH]; intros d Hnd; simpl.
  { by rewrite lookup_empty. }
  apply NoDup_cons in Hnd as [Hnotin Hnd].
  destruct (decide (key' = key)) as [->|Hne].
  - rewrite lookup_insert_eq.
    assert ((list_to_map items : gmap K Z) !! key = None) as Hnone
      by (by apply not_elem_of_list_to_map_1).
    destruct (val <=? threshold); rewrite IH, Hnone by done; [done|].
    by rewrite lookup_insert_eq.
  - rewrite lookup_insert_ne by done.
    destruct (val <=? threshold); rewrite IH by done; [done|].
    by rewrite lookup_insert_ne.
Qed.

Lemma pops_run : ∀ (zeros : list K) c o,
  NoDup zeros →
  (∀ key, key ∈ zeros → is_Some (Counter.index c !! key)) →
  Counter.for_each zeros Counter.pop (c, o)
  = (Return tt,
     (Counter.set_index (foldl (fun d key => delete key d)
                               (Counter.index c) zeros) c, o)).
Proof.
  induction zeros as [|key zeros IH]; intros c o Hnd Hin; simpl.
  { by destruct c. }
  apply NoDup_cons in Hnd as [Hnotin Hnd].
  rewrite bind_run. unfold Counter.pop at 1. rewrite bind_run. simpl.
  destruct (Hin key) as [v Hv]; [by left|]. rewrite Hv. simpl.
  rewrite IH; [by destruct c|done|].
  intros key' Hkey'. simpl. rewrite lookup_delete_ne.
  - apply Hin. by right.
  - intros ->. done.
Qed.

Lemma lookup_deletes key : ∀ (zeros : list K) d,
  foldl (fun d key => delete key d) d zeros !! key
  = if decide (key ∈ zeros) then None else d !! key.
Proof.
  induction zeros as [|key' zeros IH]; intros d; cbn [foldl].
  { case_decide as Hin; [by apply elem_of_nil in Hin|done]. }
  rewrite IH.
  destruct (decide (key ∈ zeros)) as [Hin|Hnotin];
    destruct (decide (key ∈ key' :: zeros)) as [Hin'|Hnotin']; try done.
  - exfalso. apply Hnotin'. by right.
  - apply elem_of_cons in Hin' as [->|?]; [|done]. apply lookup_delete_eq.
  - apply lookup_delete_ne. intros ->. apply Hnotin'. by left.
Qed.

(** The two loops of [_decrement] together subtract the threshold from
    every count and drop what is not positive any more. *)
Lemma sweep_then_pop threshold (items : list (K * Z)) d :
  NoDup items.*1 → list_to_map items = d →
  foldl (fun d key => delete key d) (sweep_index threshold items d)
        (zeros_of threshold items)
  = omap (shrink threshold) d.
Proof.
  intros Hnd Hd. apply map_eq. intros key.
  rewrite lookup_deletes, lookup_omap, lookup_sweep_index by done.
  rewrite Hd. destruct (d !! key) as [v|] eqn:Hv; simpl.
  - assert ((key, v) ∈ items) as Hin.
    { apply (elem_of_list_to_map (M:=gmap K)); [done|]. by rewrite Hd. }
    unfold shrink. destruct (Z.leb_spec v threshold) as [Hle|Hgt].
    + rewrite decide_True; [done|]. apply elem_of_zeros_of. by exists v.
    + rewrite decide_False; [done|].
      intros (v' & Hin' & Hv')%elem_of_zeros_of.
      apply (elem_of_list_to_map (M:=gmap K)) in Hin'; [|done].
      rewrite Hd, Hv in Hin'. simplify_eq. lia.
  - rewrite decide_False; [done|].
    intros (v' & Hin' & Hv')%elem_of_zeros_of.
    apply (elem_of_list_to_map (M:=gmap K)) in Hin'; [|done]. congruence.
Qed.

Lemma zeros_tracked threshold (items : list (K * Z)) d key :
  NoDup items.*1 → list_to_map items = d →
  key ∈ zeros_of threshold items →
  is_Some (sweep_index threshold items d !! key).
Proof.
  intros Hnd Hd (v & Hin & Hv)%elem_of_zeros_of.
  rewrite lookup_sweep_index by done.
  apply (elem_of_list_to_map (M:=gmap K)) in Hin; [|done].
  rewrite Hin. destruct (Z.leb_spec v threshold); [|lia].
  rewrite <- Hd, Hin. eauto.
Qed.

(** *** What [_decrement] returns *)

Lemma decrement_run c o :
  params_ok c → Counter.sample c <= Z.of_nat (size (Counter.index c)) →
  ∃ threshold o',
    Counter._decrement (c, o) = (Return threshold, (swept threshold c, o'))
    ∧ ∃ key, Counter.index c !! key = Some threshold.
Proof.
  intros [Horder Hsample] Hfull. unfold Counter._decrement.
  rewrite bind_run. cbn [Counter.getattr fst snd].
  rewrite bind_run. unfold Counter.ask at 1. cbn [fst snd].
  destruct (values_spec (Counter.index c) o) as [Hvlen Hvin].
  destruct (values (Counter.index c) o) as [vals o1]. cbn [fst snd] in *.
  rewrite bind_run. cbn [Counter.getattr fst snd].
  rewrite bind_run. unfold Counter.ask_outcome at 1. cbn [fst snd].
  destruct (sample_spec vals (Counter.sample c) o1)
    as (smp & o2 & -> & Hslen & Hsub); [lia|].
  rewrite bind_run. cbn [Counter.getattr fst snd].
  rewrite bind_run. unfold Counter.lift at 1.
  destruct (select_in_range smp (Counter.order c))
    as (smp' & -> & Hperm & Hlen' & Hsorted); [lia|].
  set (th := nthZ smp' (Counter.order c)) in *.
  rewrite bind_run. cbn [Counter.getattr fst snd].
  rewrite bind_run. unfold Counter.ask at 1. cbn [fst snd].
  pose proof (iteritems_NoDup (Counter.index c) o2) as Hnd.
  pose proof (iteritems_list_to_map (Counter.index c) o2) as Hmap.
  destruct (iteritems (Counter.index c) o2) as [items o3].
  cbn [fst snd] in *.
  rewrite bind_run, sweep_run. simpl app.
  rewrite bind_run, pops_run;
    [|by apply NoDup_zeros_of
     |intros key Hkey; by apply (zeros_tracked th items)].
  cbn [Counter.index Counter.set_index].
  rewrite (sweep_then_pop th items) by done.
  exists th, o3. split; [reflexivity|].
  apply Hvin. eapply elem_of_submseteq; [|exact Hsub].
  rewrite <- Hperm. apply list_elem_of_lookup.
  exists (Z.to_nat (Counter.order c)). apply lookup_nthZ. lia.
Qed.

Lemma size_omap_le {A B} (f : A → option B) (m : gmap K A) :
  (size (omap f m) <= size m)%nat.
Proof.
  rewrite <- !(size_dom (D:=gset K)).
  apply subseteq_size, dom_omap_subseteq.
Qed.

(** A sweep whose threshold is one of the counts frees a slot. *)
Lemma size_swept threshold d key :
  d !! key = Some threshold →
  (size (omap (shrink threshold) d) < size d)%nat.
Proof.
  intros Hkey.
  assert (omap (shrink threshold) d
          = omap (shrink threshold) (delete key d)) as ->.
  { apply map_eq. intros key'. rewrite !lookup_omap.
    destruct (decide (key' = key)) as [->|Hne].
    - rewrite Hkey, lookup_delete_eq. simpl. unfold shrink.
      destruct (Z.leb_spec threshold threshold); [done|lia].
    - by rewrite lookup_delete_ne. }
  pose proof (size_omap_le (shrink threshold) (delete key d)) as Hle.
  rewrite map_size_delete, Hkey in Hle.
  assert (size d ≠ 0%nat); [|lia].
  apply map_size_non_empty_iff. intros ->. by rewrite lookup_empty in Hkey.
Qed.

Lemma len_index_run c o :
  Counter.len_index (c, o)
  = (Return (Z.of_nat (size (Counter.index c))), (c, o)).
Proof. reflexivity. Qed.

Lemma getattr_run {A} (f : t → A) c o :
  Counter.getattr f (c, o) = (Return (f c), (c, o)).
Proof. reflexivity. Qed.

Lemma setattr_run (g : t → t) c o :
  Counter.setattr g (c, o) = (Return tt, (g c, o)).
Proof. reflexivity. Qed.

Lemma store_run key v c o :
  Counter.store key v (c, o)
  = (Return tt, (Counter.set_index (<[key := v]> (Counter.index c)) c, o)).
Proof. reflexivity. Qed.

(** *** The cases of [update] *)

Lemma update_cases key val c o :
  params_ok c → within_capacity c →
  ∃ r c' o', Counter.update key val (c, o) = (r, (c', o'))
             ∧ update_case key val c o r c' o'.
Proof.
  intros Hparams Hcap. unfold Counter.update.
  destruct (Z.eqb_spec val 0) as [Hz|Hnz].
  { eexists _, _, _. split; [reflexivity|by constructor]. }
  destruct (Z.ltb_spec val 0) as [Hneg|Hpos].
  { eexists _, _, _. split; [reflexivity|by constructor]. }
  rewrite bind_run, getattr_run, bind_run, setattr_run.
  set (c1 := Counter.set_length (Counter.length c + val) c).
  rewrite bind_run, getattr_run.
  change (Counter.index c1) with (Counter.index c).
  destruct (Counter.index c !! key) as [v|] eqn:Hkey.
  { rewrite store_run. change (Counter.index c1) with (Counter.index c).
    eexists _, _, _. split; [reflexivity|].
    apply update_tracked; [lia|done]. }
  rewrite bind_run, len_index_run, bind_run, getattr_run.
  change (Counter.index c1) with (Counter.index c).
  change (Counter.size c1) with (Counter.size c).
  destruct (Z.ltb_spec (Z.of_nat (size (Counter.index c))) (Counter.size c))
    as [Hroom|Hfull].
  { rewrite store_run. change (Counter.index c1) with (Counter.index c).
    eexists _, _, _. split; [reflexivity|].
    apply update_insert; [lia|done..]. }
  destruct (decrement_run c1 o) as (th & o' & Hrun & key' & Hkey').
  { done. }
  { destruct Hparams as [_ Hle]. simpl. lia. }
  rewrite bind_run, Hrun.
  exists (Return tt),
    (let c' := swept th c1 in
     if val >? th
     then Counter.set_index (<[key := val - th]> (Counter.index c')) c'
     else c'), o'.
  split.
  - cbv zeta. destruct (val >? th); [|reflexivity].
    rewrite bind_run, len_index_run, bind_run, getattr_run, bind_run.
    pose proof (size_swept th (Counter.index c) key' Hkey') as Hlt.
    unfold within_capacity in Hcap.
    destruct (Z.ltb_spec
                (Z.of_nat (size (Counter.index (swept th c1))))
                (Counter.size (swept th c1))) as [?|Hbad].
    + reflexivity.
    + simpl in Hbad. lia.
  - by apply (update_evict key val c o th o' key'); [lia|..].
Qed.

(** *** Bounds on the true frequency *)

Lemma frequency_count c key :
  Counter.frequency c key = (count c key, count c key + Counter.offset c).
Proof. reflexivity. Qed.

Lemma count_store_eq c d key v :
  count (Counter.set_index (<[key := v]> d) c) key = v.
Proof. unfold count. simpl. by rewrite lookup_insert_eq. Qed.

Lemma count_store_ne c key key' v :
  key ≠ key' →
  count (Counter.set_index (<[key := v]> (Counter.index c)) c) key'
  = count c key'.
Proof. intros Hne. unfold count. simpl. by rewrite lookup_insert_ne. Qed.

Lemma count_nonneg c key : positive_counts c → 0 <= count c key.
Proof.
  intros Hpos. unfold count.
  destruct (Counter.index c !! key) as [v|] eqn:Hv; simpl; [|lia].
  apply Hpos in Hv. simpl in Hv. lia.
Qed.

Lemma count_swept threshold c key :
  0 <= threshold →
  count (swept threshold c) key
  = if count c key <=? threshold then 0 else count c key - threshold.
Proof.
  intros Hth. unfold count, swept. simpl. rewrite lookup_omap.
  destruct (Counter.index c !! key) as [v|]; simpl.
  - unfold shrink. by destruct (v <=? threshold).
  - destruct (Z.leb_spec 0 threshold); [done|lia].
Qed.

Lemma positive_swept threshold c :
  positive_counts c → positive_counts (swept threshold c).
Proof.
  intros Hpos key v. unfold swept. simpl. rewrite lookup_omap.
  destruct (Counter.index c !! key) as [w|]; simpl; [|done].
  unfold shrink. destruct (Z.leb_spec w threshold); [done|].
  intros [= <-]. lia.
Qed.

Lemma sound_swept threshold c f :
  positive_counts c → 0 <= threshold → sound c f →
  sound (swept threshold c) f.
Proof.
  intros Hpos Hth Hsound key. specialize (Hsound key).
  pose proof (count_nonneg c key Hpos) as Hnn.
  rewrite count_swept by done. simpl.
  destruct (Z.leb_spec (count c key) threshold); lia.
Qed.

Lemma threshold_positive threshold c key :
  positive_counts c → Counter.index c !! key = Some threshold →
  1 <= threshold.
Proof. intros Hpos Hkey. apply Hpos in Hkey. simpl in Hkey. lia. Qed.

Lemma update_case_wf key val c o r c' o' :
  wf c → update_case key val c o r c' o' → wf c'.
Proof.
  intros (Hparams & Hpos & Hcap & Hoff) Hcase.
  destruct Hcase as [Hz|Hneg|v Hval Hkey|Hval Hkey Hroom
                     |th o' key' Hval Hkey Hfull Hkey' Hrun]; try done.
  - split_and!; try done.
    + apply map_Forall_insert_2; [|done]. apply Hpos in Hkey. simpl in *. lia.
    + unfold within_capacity in *. simpl.
      rewrite map_size_insert_Some by eauto. done.
  - split_and!; try done.
    + by apply map_Forall_insert_2.
    + unfold within_capacity in *. simpl.
      rewrite map_size_insert_None by done. lia.
  - pose proof (threshold_positive th c key' Hpos Hkey') as Hth.
    pose proof (size_swept th (Counter.index c) key' Hkey') as Hlt.
    set (c1 := Counter.set_length (Counter.length c + val) c).
    assert (positive_counts (swept th c1)) as Hpos1
      by (by apply positive_swept).
    cbv zeta. destruct (Z.gtb_spec val th) as [Hgt|Hle].
    + split_and!; try done.
      * apply map_Forall_insert_2; [lia|done].
      * unfold within_capacity in *. simpl.
        pose proof (map_size_insert (M:=gmap K) key (val - th)
                      (omap (shrink th) (Counter.index c))) as Hsz.
        destruct (omap (shrink th) (Counter.index c) !! key);
          rewrite Hsz; simpl; lia.
      * simpl. lia.
    + split_and!; try done.
      * unfold within_capacity in *. simpl. lia.
      * simpl. lia.
Qed.

Lemma update_case_sound key val c o r c' o' f :
  wf c → sound c f → update_case key val c o r c' o' →
  sound c' (bump f key val).
Proof.
  intros (Hparams & Hpos & Hcap & Hoff) Hsound Hcase key0.
  pose proof (Hsound key0) as Hs0.
  unfold bump, accepted.
  destruct Hcase as [Hz|Hneg|v Hval Hkey|Hval Hkey Hroom
                     |th o' key' Hval Hkey Hfull Hkey' Hrun].
  - subst val. simpl. destruct (decide (key = key0)); lia.
  - destruct (Z.ltb_spec val 0); [|lia]. destruct (decide (key = key0)); lia.
  - destruct (Z.ltb_spec val 0); [lia|]. unfold count in *. simpl.
    destruct (decide (key = key0)) as [->|Hne].
    + rewrite lookup_insert_eq. rewrite Hkey in Hs0. simpl in *. lia.
    + rewrite lookup_insert_ne by done. lia.
  - destruct (Z.ltb_spec val 0); [lia|]. unfold count in *. simpl.
    destruct (decide (key = key0)) as [->|Hne].
    + rewrite lookup_insert_eq. rewrite Hkey in Hs0. simpl in *. lia.
    + rewrite lookup_insert_ne by done. lia.
  - destruct (Z.ltb_spec val 0); [lia|].
    pose proof (threshold_positive th c key' Hpos Hkey') as Hth.
    set (c1 := Counter.set_length (Counter.length c + val) c).
    assert (sound (swept th c1) f) as Hsw.
    { apply sound_swept; [done|lia|done]. }
    specialize (Hsw key0).
    assert (count (swept th c1) key = 0) as Hnone.
    { rewrite count_swept by lia.
      assert (count c1 key = 0) as ->
        by (unfold count; simpl; by rewrite Hkey).
      destruct (Z.leb_spec 0 th); [done|lia]. }
    cbv zeta. destruct (Z.gtb_spec val th) as [Hgt|Hle].
    + destruct (decide (key = key0)) as [->|Hne].
      * rewrite !count_store_eq.
        unfold count in Hs0. rewrite Hkey in Hs0. simpl in *. lia.
      * rewrite !count_store_ne by done. simpl in *. lia.
    + destruct (decide (key = key0)) as [->|Hne].
      * rewrite Hnone. unfold count in Hs0. rewrite Hkey in Hs0.
        simpl in *. lia.
      * lia.
Qed.

Lemma update_case_scalars key val c o r c' o' :
  positive_counts c → update_case key val c o r c' o' →
  Counter.size c' = Counter.size c
  ∧ Counter.sample c' = Counter.sample c
  ∧ Counter.order c' = Counter.order c
  ∧ Counter.length c' = Counter.length c + accepted val
  ∧ Counter.offset c <= Counter.offset c'.
Proof.
  intros Hpos Hcase. unfold accepted.
  destruct Hcase as [Hz|Hneg|v Hval Hkey|Hval Hkey Hroom
                     |th o' key' Hval Hkey Hfull Hkey' Hrun].
  - subst val. simpl. split_and!; (done || lia).
  - destruct (Z.ltb_spec val 0); [|lia]. split_and!; (done || lia).
  - destruct (Z.ltb_spec val 0); [lia|]. simpl. split_and!; (done || lia).
  - destruct (Z.ltb_spec val 0); [lia|]. simpl. split_and!; (done || lia).
  - destruct (Z.ltb_spec val 0); [lia|].
    pose proof (threshold_positive th c key' Hpos Hkey') as Hth.
    cbv zeta. destruct (val >? th); simpl; split_and!; (done || lia).
Qed.

Lemma update_case_outcome key val c o r c' o' :
  update_case key val c o r c' o' →
  r = if val <? 0 then Raise (ValueError "value out of range") else Return tt.
Proof.
  intros Hcase.
  destruct Hcase; destruct (Z.ltb_spec val 0); (done || lia).
Qed.

(** *** One [update] on a well-formed counter *)

Lemma update_wf_run key val c o :
  wf c →
  ∃ r c' o', Counter.update key val (c, o) = (r, (c', o'))
             ∧ update_case key val c o r c' o' ∧ wf c'.
Proof.
  intros Hwf. pose proof Hwf as (Hparams & _ & Hcap & _).
  destruct (update_cases key val c o Hparams Hcap)
    as (r & c' & o' & Hrun & Hcase).
  exists r, c', o'. split_and!; [done..|]. by eapply update_case_wf.
Qed.

(** *** The replay loop of [merge] *)

Lemma replayed_lookup key : ∀ (items : list (K * Z)) f,
  NoDup items.*1 → Forall (fun kv => 0 < kv.2) items →
  replayed f items key
  = f key + default 0 ((list_to_map items : gmap K Z) !! key).
Proof.
  induction items as [|[key' val] items IH]; intros f Hnd Hpos; simpl.
  { rewrite lookup_empty. simpl. lia. }
  apply NoDup_cons in Hnd as [Hnotin Hnd].
  apply Forall_cons in Hpos as [Hval Hpos]. simpl in Hval.
  rewrite IH by done. unfold bump, accepted.
  destruct (Z.ltb_spec val 0); [lia|].
  destruct (decide (key' = key)) as [->|Hne].
  - rewrite lookup_insert_eq.
    rewrite (not_elem_of_list_to_map_1 (M:=gmap K)) by done. simpl. lia.
  - rewrite lookup_insert_ne by done. lia.
Qed.

Lemma for_each_update_run : ∀ (items : list (K * Z)) c o f,
  wf c → sound c f → Forall (fun kv => 0 < kv.2) items →
  ∃ c' o',
    Counter.for_each items (fun '(key, val) => Counter.update key val) (c, o)
    = (Return tt, (c', o'))
    ∧ wf c' ∧ sound c' (replayed f items)
    ∧ Counter.size c' = Counter.size c
    ∧ Counter.sample c' = Counter.sample c
    ∧ Counter.order c' = Counter.order c
    ∧ Counter.offset c <= Counter.offset c'.
Proof.
  induction items as [|[key val] items IH]; intros c o f Hwf Hsound Hpos.
  { exists c, o. simpl. split_and!; (done || lia). }
  apply Forall_cons in Hpos as [Hval Hpos]. simpl in Hval.
  destruct (update_wf_run key val c o Hwf)
    as (r & c1 & o1 & Hrun & Hcase & Hwf1).
  pose proof (update_case_outcome _ _ _ _ _ _ _ Hcase) as Hr.
  destruct (Z.ltb_spec val 0); [lia|]. subst r.
  pose proof (update_case_sound _ _ _ _ _ _ _ f Hwf Hsound Hcase) as Hsound1.
  destruct Hwf as (_ & Hposc & _).
  pose proof (update_case_scalars _ _ _ _ _ _ _ Hposc Hcase)
    as (Hs1 & Hs2 & Hs3 & _ & Hs5).
  destruct (IH c1 o1 (bump f key val) Hwf1 Hsound1 Hpos)
    as (c' & o' & Hrun' & Hwf' & Hsound' & Ht1 & Ht2 & Ht3 & Ht5).
  exists c', o'. simpl. rewrite bind_run, Hrun.
  split_and!; (done || congruence || lia).
Qed.

Lemma replay_run c other o f :
  wf c → sound c f → positive_counts other →
  ∃ c' o',
    Counter.replay other (c, o) = (Return tt, (c', o'))
    ∧ wf c'
    ∧ sound c' (fun key => f key + count other key)
    ∧ Counter.size c' = Counter.size c
    ∧ Counter.sample c' = Counter.sample c
    ∧ Counter.order c' = Counter.order c
    ∧ Counter.offset c <= Counter.offset c'.
Proof.
  intros Hwf Hsound Hpos. unfold Counter.replay.
  rewrite bind_run. unfold Counter.ask at 1. cbn [fst snd].
  pose proof (iteritems_NoDup (Counter.index other) o) as Hnd.
  pose proof (iteritems_list_to_map (Counter.index other) o) as Hmap.
  pose proof (iteritems_elem_of (Counter.index other) o) as Hin.
  destruct (iteritems (Counter.index other) o) as [items o1].
  cbn [fst snd] in *.
  assert (Forall (fun kv => 0 < kv.2) items) as Hitems.
  { apply Forall_forall. intros [key v] Hkv. apply Hin in Hkv.
    apply Hpos in Hkv. done. }
  destruct (for_each_update_run items c o1 f Hwf Hsound Hitems)
    as (c' & o' & -> & Hwf' & Hsound' & Hs).
  exists c', o'. split_and!; try done; try apply Hs.
  intros key. specialize (Hsound' key).
  rewrite replayed_lookup in Hsound' by done.
  rewrite Hmap in Hsound'. done.
Qed.

Lemma merge_run c other o f g :
  wf c → sound c f → wf other → sound other g →
  ∃ c' o',
    Counter.replay other (c, o) = (Return tt, (c', o'))
    ∧ Counter.merge other (c, o) = (Return tt, (merged c other c', o'))
    ∧ wf (merged c other c')
    ∧ sound (merged c other c') (fun key => f key + g key)
    ∧ Counter.offset c <= Counter.offset c'.
Proof.
  intros Hwf Hsound (Hpo & Hpos & Hcapo & Hoffo) Hsoundo.
  destruct (replay_run c other o f Hwf Hsound Hpos)
    as (c' & o' & Hrun & Hwf' & Hsound' & Hs1 & Hs2 & Hs3 & Hs5).
  exists c', o'. split; [done|].
  split.
  { unfold Counter.merge. rewrite bind_run, getattr_run, bind_run, Hrun.
    rewrite bind_run, setattr_run, bind_run, getattr_run, setattr_run.
    reflexivity. }
  destruct Hwf' as (Hp' & Hpos' & Hcap' & Hoff').
  split_and!.
  - split_and!; [exact Hp'|exact Hpos'|exact Hcap'|simpl; lia].
  - intros key. specialize (Hsound' key). specialize (Hsoundo key).
    unfold merged, count in *. simpl in *. lia.
  - done.
Qed.

(** *** [clear] and [copy] *)

Lemma clear_run c o :
  Counter.clear (c, o)
  = (Return tt,
     (Counter.mk (Counter.size c) (Counter.sample c) (Counter.order c)
                 0 0 ∅, o)).
Proof. reflexivity. Qed.

Lemma init_params_ok k sample order :
  0 <= order < sample → sample <= k →
  Counter.__init__ (K:=K) (Some k) (Some sample) (Some order)
  = Return (Counter.mk k sample order 0 0 ∅).
Proof.
  intros Ho Hs. unfold Counter.__init__. simpl.
  destruct (Z.ltb_spec sample 0); [lia|].
  destruct (Z.gtb_spec sample k); [lia|].
  destruct (Z.ltb_spec order 0); [lia|].
  destruct (Z.geb_spec order sample); [lia|]. done.
Qed.

Lemma copy_run c : params_ok c → Counter.copy c = Return c.
Proof.
  intros [Ho Hs]. unfold Counter.copy. rewrite init_params_ok by done.
  simpl. unfold Counter.set_index, Counter.set_offset, Counter.set_length.
  simpl. rewrite (right_id_L ∅ (∪)). by destruct c.
Qed.

Lemma init_wf k sample order c :
  Counter.__init__ k sample order = Return c →
  wf c ∧ Counter.length c = 0 ∧ Counter.offset c = 0 ∧ Counter.index c = ∅.
Proof.
  unfold Counter.__init__.
  set (k' := default 4096 k).
  set (s' := match sample with None => Z.min k' 1024 | Some s => s end).
  set (r' := match order with None => s' / 2 | Some r => r end).
  destruct (Z.ltb_spec s' 0); [done|].
  destruct (Z.gtb_spec s' k'); [done|].
  destruct (Z.ltb_spec r' 0); [done|].
  destruct (Z.geb_spec r' s'); [done|]. simpl.
  intros [= <-]. simpl. split_and!; try done.
  split_and!.
  - split; simpl; lia.
  - apply map_Forall_empty.
  - unfold within_capacity. simpl. rewrite map_size_empty. lia.
  - done.
Qed.

(** *** Every history yields a well-formed, sound counter *)

Lemma run_invariant (h : history) : ∀ o c o',
  run h o = (Some c, o') → wf c ∧ sound c (true_frequency h).
Proof.
  induction h as [k sample order|h IH key val|h IH other IHo|h IH|h IH];
    intros o c o' Hrun; simpl in Hrun.
  - destruct (Counter.__init__ k sample order) as [c0| |] eqn:Hinit;
      simplify_eq/=.
    apply init_wf in Hinit as (Hwf & _ & Hoff & Hidx). split; [done|].
    intros key. unfold count. rewrite Hidx, Hoff, lookup_empty. simpl. lia.
  - destruct (run h o) as [[c0|] o0] eqn:Hrun0; [|done].
    destruct (IH _ _ _ Hrun0) as [Hwf Hsound].
    destruct (update_wf_run key val c0 o0 Hwf)
      as (r & c1 & o1 & Hupd & Hcase & Hwf1).
    rewrite Hupd in Hrun. simplify_eq/=. split; [done|].
    intros key0.
    exact (update_case_sound _ _ _ _ _ _ _ _ Hwf Hsound Hcase key0).
  - destruct (run h o) as [[c0|] o0] eqn:Hrun0; [|done].
    destruct (run other o0) as [[c1|] o1] eqn:Hrun1; [|done].
    destruct (IH _ _ _ Hrun0) as [Hwf Hsound].
    destruct (IHo _ _ _ Hrun1) as [Hwfo Hsoundo].
    destruct (merge_run c0 c1 o1 _ _ Hwf Hsound Hwfo Hsoundo)
      as (c' & o2 & _ & Hm & Hwf' & Hsound' & _).
    rewrite Hm in Hrun. simplify_eq/=. split; [done|].
    intros key0. exact (Hsound' key0).
  - destruct (run h o) as [[c0|] o0] eqn:Hrun0; [|done].
    destruct (IH _ _ _ Hrun0) as [((Ho & Hs) & _) _].
    simplify_eq/=. split.
    + split_and!.
      * done.
      * apply map_Forall_empty.
      * unfold within_capacity. simpl. rewrite map_size_empty. lia.
      * done.
    + intros key. unfold count. simpl. rewrite lookup_empty. simpl. lia.
  - destruct (run h o) as [[c0|] o0] eqn:Hrun0; [|done].
    destruct (IH _ _ _ Hrun0) as [Hwf Hsound].
    rewrite copy_run in Hrun by apply Hwf. simplify_eq/=. split; [done|].
    intros key0. exact (Hsound key0).
Qed.

Lemma reachable_wf c : reachable c → wf c.
Proof. intros (h & o & o' & Hrun). by apply run_invariant in Hrun as []. Qed.

End CounterProofs.

(** * The claims *)

(** C2.  The selector does not return [sorted(s)[k]] for every
    sequence [s]: a tuple is a sequence, the docstring of [select]
    names it among the arguments and the [isinstance] test lets it
    through uncopied, yet for every tuple of two or more numbers and
    every [k] with [0 <= k < len(s)] the call raises [TypeError], at the
    first item assignment of [partition].  Only outside that, the tuple
    behaves as the claim says: an out-of-range [k] raises the range
    error and a one-element tuple returns its element. *)
Theorem select_tuple_raises (items : list Z) (k : Z) :
  ((2 <= length items)%nat → 0 <= k < Z.of_nat (length items) →
   select_on (PyTuple items) k = Raise TypeError
   ∧ ∃ x, getitem (sorted items) k = Return x)
  ∧ (¬ (0 <= k < Z.of_nat (length items)) →
     select_on (PyTuple items) k = Raise (ValueError "k value out of range"))
  ∧ (∀ x, select_on (PyTuple [x]) 0 = Return (x, [x])).
Proof.
  split_and!.
  - intros Hlen Hk. split; [by apply select_on_not_assignable|].
    exists (nthZ (sorted items) k). apply getitem_in.
    unfold sorted. by rewrite merge_sort_Permutation.
  - intros Hk. unfold select_on. cbn [items_of].
    destruct (Z.ltb_spec k 0); [done|].
    destruct (Z.geb_spec k (Z.of_nat (length items))); [done|lia].
  - intros x. reflexivity.
Qed.

Lemma select_tuple_raises_witness :
  select_on (PyTuple [2; 1]) 0 = Raise TypeError
  ∧ ∃ x, getitem (sorted [2; 1]) 0 = Return x.
Proof.
  apply (proj1 (select_tuple_raises [2; 1] 0)).
  - simpl. lia.
  - simpl. lia.
Defined.

(** X20.  For every list [s] and every integer [k]: when
    [0 <= k < len(s)], [select(s, k)] returns [sorted(s)[k]], leaving a
    rearrangement of [s] behind; when [k] is outside that range, which
    is every [k] for an empty [s], it raises the range error
    [ValueError('k value out of range')]; and a one-element list
    returns its element for [k = 0]. *)
Theorem select_correct (s : list Z) (k : Z) :
  (0 <= k < Z.of_nat (length s) →
   ∃ x s', getitem (sorted s) k = Return x
           ∧ select s k = Return (x, s') ∧ s' ≡ₚ s)
  ∧ (¬ (0 <= k < Z.of_nat (length s)) →
     select s k = Raise (ValueError "k value out of range"))
  ∧ (∀ x, select [x] 0 = Return (x, [x])).
Proof.
  split_and!.
  - intros Hk.
    destruct (select_in_range s k Hk) as (s' & Hrun & Hperm & Hlen & Hsorted).
    exists (nthZ s' k), s'. split_and!; [|done..].
    unfold getitem, norm_index.
    assert (length (sorted s) = length s) as Hls
      by (unfold sorted; by rewrite merge_sort_Permutation).
    rewrite Hls.
    destruct (Z.ltb_spec k 0); [lia|].
    destruct (Z.ltb_spec k 0); [lia|].
    destruct (Z.leb_spec (Z.of_nat (length s)) k); [lia|]. simpl.
    by rewrite Hsorted.
  - intros Hk. unfold select.
    destruct (Z.ltb_spec k 0); [done|].
    destruct (Z.geb_spec k (Z.of_nat (length s))); [done|lia].
  - intros x. reflexivity.
Qed.

Lemma select_correct_witness :
  ∃ x s', getitem (sorted [5; 3; 9; 1; 3]) 2 = Return x
          ∧ select [5; 3; 9; 1; 3] 2 = Return (x, s')
          ∧ s' ≡ₚ [5; 3; 9; 1; 3].
Proof.
  apply (proj1 (select_correct [5; 3; 9; 1; 3] 2)). simpl. lia.
Defined.

Section Claims.
Context `{Countable K}.

Local Abbreviation t := (Counter.t (K:=K)).
Implicit Types (c : t) (o : Oracle) (key : K).

(** C6.  For every counter state, key and value [v <= 0],
    [update(key, v)] leaves length, table and offset (and the oracle) as
    they were; it raises [ValueError('value out of range')] exactly when
    [v] is negative and returns normally when [v] is zero. *)
Theorem update_nonpositive c o key (v : Z) :
  v <= 0 →
  Counter.update key v (c, o)
  = (if v <? 0 then Raise (ValueError "value out of range") else Return tt,
     (c, o)).
Proof.
  intros Hv. unfold Counter.update.
  destruct (Z.eqb_spec v 0) as [->|Hne]; [done|].
  destruct (Z.ltb_spec v 0); [done|lia].
Qed.

(** C8.  Construction takes [sample = min(k, 1024)] and
    [order = sample / 2] when they are omitted (and [k = 4096] when it
    is); it raises a [ValueError] exactly when
    [0 <= sample <= k] and [0 <= order < sample] do not both hold, and
    otherwise returns the counter with all six attributes set; a
    capacity [k <= 0] always fails; and a failed construction leaves the
    heap as it was, with no instance and no dict added. *)
Theorem init_checks (k : Z) (sample order : option Z) :
  let s := default (Z.min k 1024) sample in
  let r := default (s / 2) order in
  Counter.__init__ (K:=K) (Some k) sample order
  = Counter.__init__ (Some k) (Some s) (Some r)
  ∧ Counter.__init__ (K:=K) None sample order
    = Counter.__init__ (Some 4096) sample order
  ∧ ((∃ msg, Counter.__init__ (K:=K) (Some k) sample order
             = Raise (ValueError msg))
     ↔ ¬ (0 <= s <= k ∧ 0 <= r < s))
  ∧ (0 <= s <= k ∧ 0 <= r < s →
     Counter.__init__ (K:=K) (Some k) sample order
     = Return (Counter.mk k s r 0 0 ∅))
  ∧ (k <= 0 → ∃ msg, Counter.__init__ (K:=K) (Some k) sample order
                     = Raise (ValueError msg))
  ∧ (∀ (h : Heap.heap (K:=K)) e,
       (Heap.new (Some k) sample order h).1 = Raise e →
       (Heap.new (Some k) sample order h).2 = h).
Proof.
  intros s r.
  assert (Counter.__init__ (K:=K) (Some k) sample order
          = if (s <? 0) || (s >? k)
            then Raise (ValueError "sample rate out of range")
            else if (r <? 0) || (r >=? s)
                 then Raise (ValueError "order out of range")
                 else Return (Counter.mk k s r 0 0 ∅)) as Hinit.
  { unfold Counter.__init__, s, r. by destruct sample, order. }
  split_and!.
  - rewrite Hinit. unfold Counter.__init__. done.
  - done.
  - rewrite Hinit.
    destruct (Z.ltb_spec s 0); simpl; [split; [lia|eauto]|].
    destruct (Z.gtb_spec s k); simpl; [split; [lia|eauto]|].
    destruct (Z.ltb_spec r 0); simpl; [split; [lia|eauto]|].
    destruct (Z.geb_spec r s); simpl; [split; [lia|eauto]|].
    split; [by intros [? ?]|lia].
  - intros Hok. rewrite Hinit.
    destruct (Z.ltb_spec s 0); [lia|].
    destruct (Z.gtb_spec s k); [lia|].
    destruct (Z.ltb_spec r 0); [lia|].
    destruct (Z.geb_spec r s); [lia|]. done.
  - intros Hk. rewrite Hinit.
    destruct (Z.ltb_spec s 0); simpl; [eauto|].
    destruct (Z.gtb_spec s k); simpl; [eauto|].
    destruct (Z.ltb_spec r 0); simpl; [eauto|].
    destruct (Z.geb_spec r s); simpl; [eauto|]. lia.
  - intros h e. unfold Heap.new.
    by destruct (Counter.__init__ (Some k) sample order).
Qed.

(** C1.  For every history of updates and merges (clears and copies
    too), under every oracle, and for every key, tracked or not:
    [frequency(key)] returns [(lower, upper)] with
    [lower <= true frequency <= upper], and [upper - lower] is the
    counter's offset. *)
Theorem frequency_bounds (h : history) o o' c key :
  run h o = (Some c, o') →
  (Counter.frequency c key).1 <= true_frequency h key
    <= (Counter.frequency c key).2
  ∧ (Counter.frequency c key).2 - (Counter.frequency c key).1
    = Counter.offset c.
Proof.
  intros Hrun. apply run_invariant in Hrun as [_ Hsound].
  rewrite frequency_count. simpl. specialize (Hsound key). lia.
Qed.

(** C3.  After every history the table holds at most [size] keys, and
    one more [update] keeps it so and ends normally or with the
    value-range error, never with the assertion failing.  When that
    [update] meets a full table with a new key, [_decrement] returns a
    threshold and leaves fewer than [size] keys, and the key is stored
    with [val - threshold] when [val > threshold]. *)
Theorem capacity_invariant (h : history) o o' c :
  run h o = (Some c, o') →
  Z.of_nat (size (Counter.index c)) <= Counter.size c
  ∧ (∀ key val o1, ∃ c1 o2,
       Counter.update key val (c, o1)
       = (if val <? 0 then Raise (ValueError "value out of range")
          else Return tt, (c1, o2))
       ∧ Z.of_nat (size (Counter.index c1)) <= Counter.size c1)
  ∧ (∀ key val o1,
       Counter.index c !! key = None →
       Counter.size c <= Z.of_nat (size (Counter.index c)) →
       0 < val →
       ∃ threshold c1 o2,
         Counter._decrement
           (Counter.set_length (Counter.length c + val) c, o1)
         = (Return threshold, (c1, o2))
         ∧ Z.of_nat (size (Counter.index c1)) < Counter.size c1
         ∧ Counter.update key val (c, o1)
           = (Return tt,
              (if val >? threshold
               then Counter.set_index
                      (<[key := val - threshold]> (Counter.index c1)) c1
               else c1, o2))).
Proof.
  intros Hrun. apply run_invariant in Hrun as [Hwf _].
  pose proof Hwf as (Hparams & Hpos & Hcap & Hoff).
  split_and!.
  - exact Hcap.
  - intros key val o1.
    destruct (update_wf_run key val c o1 Hwf)
      as (r & c1 & o2 & Hupd & Hcase & Hwf1).
    exists c1, o2. rewrite Hupd.
    rewrite (update_case_outcome _ _ _ _ _ _ _ Hcase).
    split; [done|]. apply Hwf1.
  - intros key val o1 Hnew Hfull Hval.
    destruct (update_cases key val c o1 Hparams Hcap)
      as (r & c1 & o2 & Hupd & Hcase).
    destruct Hcase as [Hz|Hneg|v _ Hkey|_ _ Hroom
                       |th o2 key' _ _ _ Hkey' Hdec]; try lia.
    { congruence. }
    eexists th, _, o2. split; [exact Hdec|]. split; [|exact Hupd].
    pose proof (size_swept th (Counter.index c) key' Hkey') as Hlt.
    unfold within_capacity in Hcap. simpl. lia.
Qed.

(** C10.  In every counter a history yields all stored counts are at
    least 1.  Whenever the table holds enough counts to sample (as it
    does when [update] calls for a rebalance, the table being full),
    [_decrement] returns as threshold one of the counts, hence at least
    1; the offset grows by exactly that threshold, the table loses at
    least one key, and what stays is again at least 1. *)
Theorem counts_positive (h : history) o o' c :
  run h o = (Some c, o') →
  (∀ key v, Counter.index c !! key = Some v → 1 <= v)
  ∧ (∀ l o1,
       Counter.sample c <= Z.of_nat (size (Counter.index c)) →
       ∃ threshold c1 o2,
         Counter._decrement (Counter.set_length l c, o1)
         = (Return threshold, (c1, o2))
         ∧ (∃ key, Counter.index c !! key = Some threshold)
         ∧ 1 <= threshold
         ∧ Counter.offset c1 = Counter.offset c + threshold
         ∧ Counter.offset c < Counter.offset c1
         ∧ (size (Counter.index c1) < size (Counter.index c))%nat
         ∧ (∀ key v, Counter.index c1 !! key = Some v → 1 <= v)).
Proof.
  intros Hrun. apply run_invariant in Hrun as [Hwf _].
  pose proof Hwf as (Hparams & Hpos & Hcap & Hoff).
  split.
  - intros key v Hkey. by eapply threshold_positive.
  - intros l o1 Hsample.
    destruct (decrement_run (Counter.set_length l c) o1)
      as (th & o2 & Hdec & key' & Hkey'); [done..|].
    simpl in Hkey'.
    pose proof (threshold_positive th c key' Hpos Hkey') as Hth.
    eexists th, _, o2. split; [exact Hdec|].
    split_and!; [by exists key'|done|simpl; lia|simpl; lia| |].
    + simpl. by eapply size_swept.
    + intros key v Hkey.
      by eapply (threshold_positive v (swept th (Counter.set_length l c)) key);
        [apply positive_swept|].
Qed.

(** C4.  For counters [A] and [B] that histories yield, [A.merge(B)]
    ends normally with [A]'s length equal to the sum of the two lengths
    before the merge, whatever the replayed updates added to it, and
    with [A]'s offset equal to the offset the replay loop left (which
    is [A]'s former offset plus what the replay's sweeps added) plus
    [B]'s offset. *)
Theorem merge_length_offset (A B : t) o :
  reachable A → reachable B →
  ∃ A1 A2 o',
    Counter.replay B (A, o) = (Return tt, (A1, o'))
    ∧ Counter.merge B (A, o) = (Return tt, (A2, o'))
    ∧ Counter.length A2 = Counter.length A + Counter.length B
    ∧ Counter.offset A2 = Counter.offset A1 + Counter.offset B
    ∧ Counter.offset A <= Counter.offset A1
    ∧ Counter.index A2 = Counter.index A1.
Proof.
  intros (hA & oA & oA' & HA) (hB & oB & oB' & HB).
  apply run_invariant in HA as [HwfA HsA].
  apply run_invariant in HB as [HwfB HsB].
  destruct (merge_run A B o _ _ HwfA HsA HwfB HsB)
    as (A1 & o' & Hreplay & Hmerge & _ & _ & Hoff).
  exists A1, (merged A B A1), o'. split_and!; done.
Qed.

(** C5, as the code has it.  The offset of a counter a history yields is
    never negative.  [update] never lowers it, leaves it alone when the
    value is not positive, the key is tracked or the table has room, and
    otherwise adds the threshold of the one sweep it runs.  [merge] ends
    with the offset the replay loop left, which is no lower than before,
    plus the other counter's offset.  [copy] keeps it.  [clear] resets it
    to 0. *)
Theorem offset_changes c o :
  reachable c →
  0 <= Counter.offset c
  ∧ (∀ key val,
       Counter.offset c <= Counter.offset (Counter.update key val (c, o)).2.1
       ∧ (val <= 0 ∨ is_Some (Counter.index c !! key)
          ∨ Z.of_nat (size (Counter.index c)) < Counter.size c →
          Counter.offset (Counter.update key val (c, o)).2.1
          = Counter.offset c)
       ∧ (0 < val → Counter.index c !! key = None →
          Counter.size c <= Z.of_nat (size (Counter.index c)) →
          ∃ threshold c1 o1,
            Counter._decrement
              (Counter.set_length (Counter.length c + val) c, o)
            = (Return threshold, (c1, o1))
            ∧ Counter.offset (Counter.update key val (c, o)).2.1
              = Counter.offset c + threshold))
  ∧ (∀ other, reachable other →
       ∃ c1 o1,
         Counter.replay other (c, o) = (Return tt, (c1, o1))
         ∧ Counter.offset c <= Counter.offset c1
         ∧ Counter.offset (Counter.merge other (c, o)).2.1
           = Counter.offset c1 + Counter.offset other
         ∧ 0 <= Counter.offset other)
  ∧ Counter.copy c = Return c
  ∧ Counter.offset (Counter.clear (c, o)).2.1 = 0.
Proof.
  intros (h & o0 & o0' & Hrun).
  pose proof (run_invariant _ _ _ _ Hrun) as [Hwf Hsound].
  pose proof Hwf as (Hparams & Hpos & Hcap & Hoff).
  split_and!.
  - done.
  - intros key val.
    destruct (update_cases key val c o Hparams Hcap)
      as (r & c1 & o1 & Hupd & Hcase).
    rewrite Hupd. cbn [fst snd].
    pose proof (update_case_scalars _ _ _ _ _ _ _ Hpos Hcase)
      as (_ & _ & _ & _ & Hmono).
    split; [done|]. split.
    + intros Hquiet.
      destruct Hcase as [Hz|Hneg|v Hval Hkey|Hval Hkey Hroom
                         |th o1 key' Hval Hkey Hfull Hkey' Hdec]; try done.
      destruct Hquiet as [?|[[v Hv]|?]]; [lia|congruence|lia].
    + intros Hval Hnew Hfull.
      destruct Hcase as [Hz|Hneg|v _ Hkey|_ _ Hroom
                         |th o1 key' _ _ _ Hkey' Hdec]; try lia.
      { congruence. }
      eexists th, _, o1. split; [exact Hdec|].
      cbv zeta. by destruct (val >? th).
  - intros other (h' & p & p' & Hrun').
    pose proof (run_invariant _ _ _ _ Hrun') as [Hwf' Hsound'].
    destruct (merge_run c other o _ _ Hwf Hsound Hwf' Hsound')
      as (c1 & o1 & Hreplay & Hmerge & _ & _ & Hmono).
    exists c1, o1. rewrite Hmerge. split_and!; try done. apply Hwf'.
  - by apply copy_run.
  - done.
Qed.

(** C7.  A fresh counter fed only updates whose keys are at most
    [size] many distinct ones never evicts: the offset is 0, no draw was
    asked of the oracle, and [frequency(key)] is
    [(true count, true count)] for every key. *)
Theorem exact_without_eviction k sample order (ups : list (K * Z)) o c o' :
  run (updates_only k sample order ups) o = (Some c, o') →
  Z.of_nat (size (distinct_keys ups)) <= Counter.size c →
  Counter.offset c = 0
  ∧ o' = o
  ∧ ∀ key,
      Counter.frequency c key
      = (true_frequency (updates_only k sample order ups) key,
         true_frequency (updates_only k sample order ups) key).
Proof.
  intros Hrun Hdistinct.
  assert (Counter.offset c = 0 ∧ o' = o
          ∧ dom (Counter.index c) ⊆ distinct_keys ups
          ∧ ∀ key, count c key
                   = true_frequency (updates_only k sample order ups) key)
    as (Hoff & Ho & _ & Hcount).
  { revert c o' Hrun Hdistinct.
    induction ups as [|[key val] ups IH] using rev_ind;
      intros c o' Hrun Hdistinct.
    - simpl in Hrun.
      destruct (Counter.__init__ k sample order) as [c0| |] eqn:Hinit;
        simplify_eq/=.
      apply init_wf in Hinit as (_ & _ & Hoff & Hidx).
      split_and!; [done|done| |].
      + rewrite Hidx, dom_empty_L. apply empty_subseteq.
      + intros key. unfold count. by rewrite Hidx, lookup_empty.
    - unfold updates_only in Hrun |- *. rewrite foldl_app in Hrun |- *.
      simpl in Hrun |- *. fold (updates_only k sample order ups) in *.
      destruct (run (updates_only k sample order ups) o)
        as [[c0|] o0] eqn:Hrun0; [|done].
      pose proof (run_invariant _ _ _ _ Hrun0) as [Hwf0 _].
      pose proof Hwf0 as (Hparams & Hpos & Hcap & _).
      destruct (update_cases key val c0 o0 Hparams Hcap)
        as (r & c1 & o1 & Hupd & Hcase).
      rewrite Hupd in Hrun. simplify_eq/=.
      pose proof (update_case_scalars _ _ _ _ _ _ _ Hpos Hcase)
        as (Hsize & _).
      assert (distinct_keys (ups ++ [(key, val)])
              = distinct_keys ups ∪ {[key]}) as Hkeys.
      { unfold distinct_keys. rewrite fmap_app, list_to_set_app_L. simpl.
        by rewrite (right_id_L ∅ (∪)). }
      rewrite Hkeys in Hdistinct |- *.
      destruct (IH c0 o0 eq_refl) as (Hoff0 & -> & Hdom0 & Hcount0).
      { rewrite <- Hsize.
        pose proof (subseteq_size (distinct_keys ups)
                      (distinct_keys ups ∪ {[key]})) as Hle.
        etrans; [|exact Hdistinct]. apply inj_le, Hle, union_subseteq_l. }
      unfold accepted.
      destruct Hcase as [Hz|Hneg|v Hval Hkey|Hval Hkey Hroom
                         |th o1 key' Hval Hkey Hfull Hkey' Hdec].
      + subst val.
        split_and!; [done|done|by etrans; [|apply union_subseteq_l]|].
        intros key0. rewrite Hcount0. simpl.
        destruct (decide (key = key0)); lia.
      + split_and!; [done|done|by etrans; [|apply union_subseteq_l]|].
        intros key0. rewrite Hcount0.
        destruct (Z.ltb_spec val 0); [|lia].
        destruct (decide (key = key0)); lia.
      + split_and!; [done|done| |].
        * simpl. rewrite dom_insert_L.
          apply union_least; [apply union_subseteq_r|].
          by etrans; [|apply union_subseteq_l].
        * intros key0. destruct (Z.ltb_spec val 0); [lia|].
          destruct (decide (key = key0)) as [->|Hne].
          -- rewrite count_store_eq, <- Hcount0. unfold count.
             rewrite Hkey. simpl. lia.
          -- unfold count. simpl. rewrite lookup_insert_ne by done.
             fold (count c0 key0). rewrite Hcount0. lia.
      + split_and!; [done|done| |].
        * simpl. rewrite dom_insert_L.
          apply union_least; [apply union_subseteq_r|].
          by etrans; [|apply union_subseteq_l].
        * intros key0. destruct (Z.ltb_spec val 0); [lia|].
          destruct (decide (key = key0)) as [->|Hne].
          -- rewrite count_store_eq, <- Hcount0. unfold count.
             rewrite Hkey. simpl. lia.
          -- unfold count. simpl. rewrite lookup_insert_ne by done.
             fold (count c0 key0). rewrite Hcount0. lia.
      + exfalso.
        assert (key ∉ dom (Counter.index c0)) as Hnotin
          by (by apply not_elem_of_dom).
        pose proof (subseteq_size (dom (Counter.index c0) ∪ {[key]})
                      (distinct_keys ups ∪ {[key]})) as Hle.
        rewrite size_union, size_singleton, size_dom in Hle
          by (by apply disjoint_singleton_r).
        rewrite Hsize in Hdistinct.
        assert (size (Counter.index c0) + 1
                <= size (distinct_keys ups ∪ {[key]}))%nat
          by (by apply Hle, union_mono_r).
        lia. }
  split_and!; [done..|].
  intros key. rewrite frequency_count, Hoff, Hcount. f_equal. lia.
Qed.

(** *** Independence of a copy *)

Lemma save_frame r r' c (h : Heap.heap (K:=K)) :
  apart r r' h →
  apart r r' (Heap.save r' c h)
  ∧ Heap.load r (Heap.save r' c h) = Heap.load r h.
Proof.
  intros (Hne & obj & obj' & Hobj & Hobj' & Hdict).
  unfold Heap.save. rewrite Hobj'. split.
  - split; [done|]. eexists obj, _. simpl.
    rewrite lookup_insert_ne by done. rewrite lookup_insert_eq.
    split_and!; [done|done|]. simpl. done.
  - unfold Heap.load. simpl. rewrite lookup_insert_ne by done.
    rewrite Hobj. simpl. by rewrite lookup_insert_ne.
Qed.

Lemma call_frame {A} r r' (m : Counter.M A) (h h' : Heap.heap (K:=K))
    o o' res :
  apart r r' h → Heap.call r' m h o = Some (res, h', o') →
  apart r r' h' ∧ Heap.load r h' = Heap.load r h.
Proof.
  intros Hapart. unfold Heap.call.
  destruct (Heap.load r' h) as [c'|]; simpl; [|done].
  destruct (m (c', o)) as [res' [c'' o'']]. intros [= _ <- _].
  by apply save_frame.
Qed.

Lemma mutate_frame r r' (h : Heap.heap (K:=K)) o m :
  apart r r' h →
  apart r r' (Heap.mutate r' (h, o) m).1
  ∧ Heap.load r (Heap.mutate r' (h, o) m).1 = Heap.load r h.
Proof.
  intros Hapart. unfold Heap.mutate. cbn [fst snd].
  destruct m as [key val|other|]; cbn match.
  - unfold Heap.update.
    destruct (Heap.call r' (Counter.update key val) h o)
      as [[[res h'] o']|] eqn:Hcall; [|done].
    by eapply call_frame.
  - unfold Heap.merge.
    destruct (Heap.load other h) as [c'|]; simpl; [|done].
    destruct (Heap.call r' (Counter.merge c') h o)
      as [[[res h'] o']|] eqn:Hcall; [|done].
    by eapply call_frame.
  - unfold Heap.clear.
    destruct (Heap.call r' Counter.clear h o)
      as [[[res h'] o']|] eqn:Hcall; [|done].
    by eapply call_frame.
Qed.

Lemma mutate_all_frame r r' ms : ∀ (h : Heap.heap (K:=K)) o,
  apart r r' h →
  Heap.load r (Heap.mutate_all r' ms h o).1 = Heap.load r h.
Proof.
  unfold Heap.mutate_all.
  induction ms as [|m ms IH]; intros h o Hapart; simpl; [done|].
  destruct (mutate_frame r r' h o m Hapart) as [Hapart' Hload].
  destruct (Heap.mutate r' (h, o) m) as [h' o']. simpl in *.
  rewrite IH by done. done.
Qed.

Lemma load_lookup r (h : Heap.heap (K:=K)) obj tbl :
  Heap.instances h !! r = Some obj →
  Heap.dicts h !! Heap.i_index obj = Some tbl →
  Heap.load r h
  = Some (Counter.mk (Heap.i_size obj) (Heap.i_sample obj) (Heap.i_order obj)
            (Heap.i_length obj) (Heap.i_offset obj) tbl).
Proof. intros Hobj Htbl. unfold Heap.load. rewrite Hobj. simpl. by rewrite Htbl. Qed.

Lemma copy_run_heap r (h : Heap.heap (K:=K)) c :
  Heap.load r h = Some c → params_ok c →
  ∃ r' h', Heap.copy r h = Some (Return r', h')
           ∧ apart r r' h'
           ∧ Heap.load r' h' = Some c
           ∧ Heap.load r h' = Some c.
Proof.
  intros Hload [Horder Hsample]. unfold Heap.copy. rewrite Hload. simpl.
  unfold Heap.new. rewrite init_params_ok by done.
  set (d := fresh (dom (Heap.dicts h))).
  set (r' := fresh (dom (Heap.instances h))).
  unfold Heap.load in Hload.
  destruct (Heap.instances h !! r) as [obj|] eqn:Hobj; simpl in Hload;
    [|done].
  destruct (Heap.dicts h !! Heap.i_index obj) as [tbl|] eqn:Htbl;
    simplify_eq/=.
  assert (r ≠ r') as Hne.
  { intros Heq. apply (is_fresh (dom (Heap.instances h))).
    fold r'. rewrite <- Heq. apply elem_of_dom. eauto. }
  assert (Heap.i_index obj ≠ d) as Hned.
  { intros Heq. apply (is_fresh (dom (Heap.dicts h))).
    fold d. rewrite <- Heq. apply elem_of_dom. eauto. }
  erewrite (load_lookup r');
    [|by simpl; rewrite lookup_insert_eq|by simpl; rewrite lookup_insert_eq].
  simpl.
  eexists r', _. split; [reflexivity|].
  unfold Heap.save. simpl. rewrite lookup_insert_eq. simpl.
  split_and!.
  - split; [done|]. eexists obj, _. simpl.
    rewrite lookup_insert_ne by done. rewrite lookup_insert_ne by done.
    rewrite lookup_insert_eq. split_and!; [done|done|]. simpl. done.
  - erewrite load_lookup;
      [|by simpl; rewrite lookup_insert_eq|by simpl; rewrite lookup_insert_eq].
    simpl. by rewrite (right_id_L ∅ (∪)).
  - erewrite load_lookup; [done| |].
    + simpl. rewrite lookup_insert_ne by done.
      rewrite lookup_insert_ne by done. done.
    + simpl. rewrite lookup_insert_ne by done.
      rewrite lookup_insert_ne by done. done.
Qed.
(** C9.  For every counter [C] on the heap whose parameters pass the
    constructor's check, [C.copy()] returns a new instance with the same
    capacity, sample size, order, length and offset and an equal table;
    [C] itself is as before; and whatever updates, merges and clears
    are then applied to the copy, under whatever oracle, [C]'s length,
    offset and table stay as they were. *)
Theorem copy_independent r (h : Heap.heap (K:=K)) c :
  Heap.load r h = Some c → params_ok c →
  ∃ r' h', Heap.copy r h = Some (Return r', h')
           ∧ r' ≠ r
           ∧ Heap.load r' h' = Some c
           ∧ Heap.load r h' = Some c
           ∧ ∀ ms o, Heap.load r (Heap.mutate_all r' ms h' o).1 = Some c.
Proof.
  intros Hload Hparams.
  destruct (copy_run_heap r h c Hload Hparams)
    as (r' & h' & Hcopy & Hapart & Hnew & Hold).
  exists r', h'. split_and!; try done.
  - intros ->. by destruct Hapart.
  - intros ms o. by rewrite mutate_all_frame.
Qed.

End Claims.

Lemma update_nonpositive_witness :
  Counter.update "foo" (-3) (Counter.mk 5 5 2 0 0 ∅, [])
  = (Raise (ValueError "value out of range"), (Counter.mk 5 5 2 0 0 ∅, [])).
Proof.
  apply (update_nonpositive (Counter.mk 5 5 2 0 0 ∅) [] "foo" (-3)). lia.
Defined.

Lemma init_checks_witness :
  Counter.__init__ (K:=string) (Some 8) None None
  = Return (Counter.mk 8 8 4 0 0 ∅).
Proof.
  apply (proj1 (proj2 (proj2 (proj2 (init_checks (K:=string) 8 None None))))).
  cbv zeta. cbn [default]. repeat split; by vm_compute.
Defined.

(** * Concrete runs *)

Example select_ex1 : select [5; 3; 9; 1; 3] 2 = Return (3, [1; 3; 3; 5; 9]).
Proof. vm_compute. reflexivity. Qed.

Lemma demo_run : run demo [] = (Some demo_counter, []).
Proof. vm_compute. reflexivity. Qed.

Lemma drained_run : run drained [] = (Some drained_counter, []).
Proof. vm_compute. reflexivity. Qed.

Lemma frequency_bounds_witness :
  (Counter.frequency demo_counter "a").1 <= true_frequency demo "a"
    <= (Counter.frequency demo_counter "a").2
  ∧ (Counter.frequency demo_counter "a").2
    - (Counter.frequency demo_counter "a").1
    = Counter.offset demo_counter.
Proof.
  apply (frequency_bounds demo [] [] demo_counter "a").
  vm_compute. reflexivity.
Defined.

Lemma capacity_invariant_witness :
  Z.of_nat (size (Counter.index demo_counter)) <= Counter.size demo_counter.
Proof.
  apply (capacity_invariant demo [] [] demo_counter).
  vm_compute. reflexivity.
Defined.

Lemma counts_positive_witness :
  run demo [] = (Some demo_counter, []) ∧ 1 <= 2.
Proof.
  split; [vm_compute; reflexivity|].
  apply (proj1 (counts_positive demo [] [] demo_counter
                  ltac:(vm_compute; reflexivity)) "a" 2).
  vm_compute. reflexivity.
Defined.

Lemma merge_length_offset_witness :
  ∃ A1 A2 o',
    Counter.replay drained_counter (demo_counter, [3%nat])
    = (Return tt, (A1, o'))
    ∧ Counter.merge drained_counter (demo_counter, [3%nat])
      = (Return tt, (A2, o'))
    ∧ Counter.length A2
      = Counter.length demo_counter + Counter.length drained_counter
    ∧ Counter.offset A2 = Counter.offset A1 + Counter.offset drained_counter
    ∧ Counter.offset demo_counter <= Counter.offset A1
    ∧ Counter.index A2 = Counter.index A1.
Proof.
  apply (merge_length_offset demo_counter drained_counter [3%nat]).
  - exists demo, [], []. vm_compute. reflexivity.
  - exists drained, [], []. vm_compute. reflexivity.
Defined.

Lemma offset_changes_witness :
  0 <= Counter.offset drained_counter
  ∧ Counter.offset (Counter.clear (drained_counter, [])).2.1 = 0.
Proof.
  assert (reachable drained_counter) as Hreach.
  { exists drained, [], []. vm_compute. reflexivity. }
  split.
  - apply (offset_changes drained_counter [] Hreach).
  - apply (offset_changes drained_counter [] Hreach).
Defined.

(** C5 as stated fails: [clear] lowers the offset of a counter from 5
    to 0, and a [merge] that runs no sweep at all (the other table is
    empty) raises the offset of a fresh counter from 0 to 5. *)
Lemma offset_not_only_by_sweeps :
  run drained [] = (Some drained_counter, [])
  ∧ Counter.offset (Counter.clear (drained_counter, [])).2.1
    < Counter.offset drained_counter
  ∧ Counter.__init__ (K:=string) (Some 4) None None
    = Return (Counter.mk 4 4 2 0 0 ∅)
  ∧ Counter.merge drained_counter (Counter.mk 4 4 2 0 0 ∅, [])
    = (Return tt, (Counter.mk 4 4 2 8 5 ∅, [])).
Proof. vm_compute. repeat split; reflexivity. Qed.

Lemma exact_without_eviction_witness :
  Counter.offset (Counter.mk 2 2 1 10 0 {["a" := 7; "b" := 3]}) = 0
  ∧ @nil nat = []
  ∧ ∀ key,
      Counter.frequency (Counter.mk 2 2 1 10 0 {["a" := 7; "b" := 3]}) key
      = (true_frequency (updates_only (Some 2) None None demo_updates) key,
         true_frequency (updates_only (Some 2) None None demo_updates) key).
Proof.
  apply (exact_without_eviction (Some 2) None None demo_updates []).
  - vm_compute. reflexivity.
  - vm_compute. discriminate.
Defined.

Lemma copy_independent_witness :
  ∃ r' h', Heap.copy 1%positive demo_heap = Some (Return r', h')
           ∧ r' ≠ 1%positive
           ∧ Heap.load r' h' = Some (Counter.mk 2 2 1 0 0 ∅)
           ∧ Heap.load 1%positive h' = Some (Counter.mk 2 2 1 0 0 ∅)
           ∧ ∀ ms o,
               Heap.load 1%positive (Heap.mutate_all r' ms h' o).1
               = Some (Counter.mk 2 2 1 0 0 ∅).
Proof.
  apply (copy_independent 1%positive demo_heap (Counter.mk 2 2 1 0 0 ∅)).
  - vm_compute. reflexivity.
  - split; simpl; lia.
Defined.

(** ** The examples of the docstrings and the tests *)

(** [Sketch.__len__]: the running length of the stream. *)
Example doc_len :
  (Counter.__len__ <$> (run (Update (New None None None) "foo" 100) []).1,
   Counter.__len__
     <$> (run (Update (Update (New None None None) "foo" 100) "bar" 200)
              []).1)
  = (Some 100, Some 300).
Proof. vm_compute. reflexivity. Qed.

(** [Sketch.__getitem__]: an estimate even for an item never seen. *)
Example doc_getitem :
  (fun c => (Counter.frequency c "foo", Counter.frequency c "bar"))
    <$> (run (Update (New None None None) "foo" 100) []).1
  = Some ((100, 100), (0, 0)).
Proof. vm_compute. reflexivity. Qed.

Example doc_contains :
  (fun c => (Counter.__contains__ c "foo", Counter.__contains__ c "4",
             Counter.frequency c "foo", Counter.frequency c "4"))
    <$> (run top_k [3; 1; 4; 1; 5; 9; 2; 6]%nat).1
  = Some (false, true, (0, 2000), (3000, 5000)).
Proof. vm_compute. reflexivity. Qed.

(** [Sketch.__ior__]: [s |= o]. *)
Example doc_ior :
  (fun c => (Counter.__len__ c, Counter.frequency c "foo",
             Counter.frequency c "bar"))
    <$> (run (Merge (Update (New None None None) "foo" 100)
                    (Update (Update (New None None None) "foo" 100)
                            "bar" 100)) []).1
  = Some (300, (200, 200), (100, 100)).
Proof. vm_compute. reflexivity. Qed.

Example doc_or : union_scenario = Some ((100, 100), 200, (200, 200)).
Proof. vm_compute. reflexivity. Qed.

(** [test_select]: both ends of the range are refused, every rank in
    between is the sorted list's entry. *)
Example test_select :
  let data := [17; 3; 32; 0; 8; 3; 21; 8; 30; 1] in
  select data (-1) = Raise (ValueError "k value out of range")
  ∧ select data 10 = Raise (ValueError "k value out of range")
  ∧ (fun k => select data (Z.of_nat k) ≫= fun r => Return r.1) <$> seq 0 10
    = Return <$> sorted data.
Proof. vm_compute. repeat split; reflexivity. Qed.

(** The three kinds of argument: [select([3, 1, 2], 1)] and
    [select(iter([3, 1, 2]), 1)] answer 2, the middle value;
    [select((3, 1, 2), 1)] raises [TypeError], as does the shortest
    such call, [select((2, 1), 0)]. *)
Example select_kinds :
  select_on (PyList [3; 1; 2]) 1 = Return (2, [1; 2; 3])
  ∧ select_on (PyIterable [3; 1; 2]) 1 = Return (2, [1; 2; 3])
  ∧ select_on (PyTuple [3; 1; 2]) 1 = Raise TypeError
  ∧ select_on (PyTuple [2; 1]) 0 = Raise TypeError.
Proof. vm_compute. repeat split; reflexivity. Qed.

(** * Further properties of the code *)

(** ** The selector's helpers *)

(** X1.  [partition(seq, lo, hi)], called on a window [lo < hi] inside
    the list, returns a position [j] of the window and leaves there the
    value that stood at [lo]; nothing in the window left of [j] is
    larger and nothing right of [j] is smaller; the list is rearranged
    inside the window only, and no index is ever out of range. *)
Theorem partition_correct (gas : nat) (seq : list Z) (lo hi : Z) :
  0 <= lo < hi → hi < Z.of_nat (length seq) →
  (Z.to_nat (hi - lo + 1) <= gas)%nat →
  ∃ seq' j,
    Select.partition gas seq lo hi = Return (seq', j)
    ∧ lo <= j <= hi
    ∧ nthZ seq' j = nthZ seq lo
    ∧ (∀ p, lo <= p < j → nthZ seq' p <= nthZ seq' j)
    ∧ (∀ p, j < p <= hi → nthZ seq' j <= nthZ seq' p)
    ∧ seq' ≡ₚ seq
    ∧ (∀ p, 0 <= p → ¬ (lo <= p <= hi) → nthZ seq' p = nthZ seq p).
Proof.
  intros Hlo Hhi Hgas. unfold Select.partition.
  rewrite getitem_in by lia. simpl.
  destruct (partition_loop_spec gas lo hi (nthZ seq lo) gas seq lo (hi + 1))
    as (seq1 & j & -> & Hj & Hre & Hv & Hl & Hr);
    [lia|lia|lia|lia|done|intros; lia|intros; lia|lia|lia|].
  simpl. pose proof Hre as (Hlen & Hperm & Hout & _).
  rewrite swap_in by lia. simpl.
  exists (swapped seq1 lo j), j.
  assert (nthZ (swapped seq1 lo j) j = nthZ seq lo) as Hpivot.
  { rewrite nthZ_swapped_r by lia. done. }
  split_and!; [done|lia|lia|done| | | |].
  - intros p Hp. rewrite Hpivot.
    destruct (decide (p = lo)) as [->|Hne].
    + rewrite nthZ_swapped_l by lia. apply Hl. lia.
    + rewrite nthZ_swapped_other by lia. apply Hl. lia.
  - intros p Hp. rewrite Hpivot.
    rewrite nthZ_swapped_other by lia. apply Hr. lia.
  - rewrite swapped_Permutation by lia. done.
  - intros p Hp Hnot. rewrite nthZ_swapped_other by lia. by apply Hout.
Qed.

Lemma partition_correct_witness :
  ∃ seq' j,
    Select.partition 3 [5; 9; 1; 7] 1 3 = Return (seq', j)
    ∧ 1 <= j <= 3
    ∧ nthZ seq' j = nthZ [5; 9; 1; 7] 1
    ∧ (∀ p, 1 <= p < j → nthZ seq' p <= nthZ seq' j)
    ∧ (∀ p, j < p <= 3 → nthZ seq' j <= nthZ seq' p)
    ∧ seq' ≡ₚ [5; 9; 1; 7]
    ∧ (∀ p, 0 <= p → ¬ (1 <= p <= 3) → nthZ seq' p = nthZ [5; 9; 1; 7] p).
Proof.
  apply (partition_correct 3 [5; 9; 1; 7] 1 3); simpl; lia.
Defined.

(** X2.  For [0 <= k < len(s)], [select(s, k)] leaves the list with the
    answer at position [k], nothing larger before it and nothing smaller
    after it, with the length unchanged. *)
Theorem select_in_place (s : list Z) (k : Z) :
  0 <= k < Z.of_nat (length s) →
  ∃ s', select s k = Return (nthZ s' k, s')
        ∧ length s' = length s
        ∧ (∀ p, 0 <= p < k → nthZ s' p <= nthZ s' k)
        ∧ (∀ q, k < q < Z.of_nat (length s) → nthZ s' k <= nthZ s' q).
Proof.
  intros Hk. unfold select.
  destruct (Z.ltb_spec k 0); [lia|].
  destruct (Z.geb_spec k (Z.of_nat (length s))); [lia|]. simpl.
  unfold Select.qselect.
  destruct (qselect_loop_spec (S (length s)) k (S (length s)) s 0
              (Z.of_nat (length s) - 1))
    as (s' & -> & Hperm & Hlen & [Hbelow Habove]); [lia|lia|lia| |lia|lia|].
  { split; intros p q Hp Hq; lia. }
  exists s'. split_and!; [done|done|done|].
  intros q Hq. apply Habove. lia.
Qed.

Lemma select_in_place_witness :
  ∃ s', select [5; 3; 9; 1; 3] 2 = Return (nthZ s' 2, s')
        ∧ length s' = length [5; 3; 9; 1; 3]
        ∧ (∀ p, 0 <= p < 2 → nthZ s' p <= nthZ s' 2)
        ∧ (∀ q, 2 < q < Z.of_nat (length [5; 3; 9; 1; 3]) →
                nthZ s' 2 <= nthZ s' q).
Proof.
  apply (select_in_place [5; 3; 9; 1; 3] 2). simpl. lia.
Defined.

Section MoreProofs.
Context `{Countable K}.

Local Abbreviation t := (Counter.t (K:=K)).
Implicit Types (c : t) (o : Oracle) (d : gmap K Z) (key : K).

Lemma len_fits maxsize n : 0 <= n <= maxsize → len maxsize n = Return n.
Proof.
  intros Hn. unfold len.
  destruct (Z.gtb_spec n maxsize); [lia|].
  destruct (Z.ltb_spec n (- maxsize - 1)); [lia|].
  destruct (Z.ltb_spec n 0); [lia|]. done.
Qed.

Lemma len_overflow maxsize n : maxsize < n → len maxsize n = Raise OverflowError.
Proof.
  intros Hn. unfold len. by destruct (Z.gtb_spec n maxsize); [|lia].
Qed.

Lemma stream_length_nonneg (h : history (K:=K)) : 0 <= stream_length h.
Proof.
  induction h as [k sample order|h IH key val|h IH other IHo|h IH|h IH];
    simpl; try lia.
  unfold accepted. destruct (Z.ltb_spec val 0); lia.
Qed.

Lemma run_length (h : history) : ∀ o c o',
  run h o = (Some c, o') → Counter.length c = stream_length h.
Proof.
  induction h as [k sample order|h IH key val|h IH other IHo|h IH|h IH];
    intros o c o' Hrun; simpl in Hrun.
  - destruct (Counter.__init__ k sample order) as [c0| |] eqn:Hinit;
      simplify_eq/=.
    by apply init_wf in Hinit as (_ & Hlen & _).
  - destruct (run h o) as [[c0|] o0] eqn:Hrun0; [|done].
    pose proof (run_invariant _ _ _ _ Hrun0) as [Hwf _].
    destruct (update_wf_run key val c0 o0 Hwf)
      as (r & c1 & o1 & Hupd & Hcase & _).
    rewrite Hupd in Hrun. simplify_eq/=.
    destruct Hwf as (_ & Hpos & _).
    pose proof (update_case_scalars _ _ _ _ _ _ _ Hpos Hcase)
      as (_ & _ & _ & Hlen & _).
    rewrite Hlen. by rewrite (IH _ _ _ Hrun0).
  - destruct (run h o) as [[c0|] o0] eqn:Hrun0; [|done].
    destruct (run other o0) as [[c1|] o1] eqn:Hrun1; [|done].
    pose proof (run_invariant _ _ _ _ Hrun0) as [Hwf Hsound].
    pose proof (run_invariant _ _ _ _ Hrun1) as [Hwfo Hsoundo].
    destruct (merge_run c0 c1 o1 _ _ Hwf Hsound Hwfo Hsoundo)
      as (c' & o2 & _ & Hm & _).
    rewrite Hm in Hrun. simplify_eq/=.
    by rewrite (IH _ _ _ Hrun0), (IHo _ _ _ Hrun1).
  - destruct (run h o) as [[c0|] o0] eqn:Hrun0; [|done].
    by simplify_eq/=.
  - destruct (run h o) as [[c0|] o0] eqn:Hrun0; [|done].
    pose proof (run_invariant _ _ _ _ Hrun0) as [Hwf _].
    rewrite copy_run in Hrun by apply Hwf. simplify_eq/=. eauto.
Qed.


(** *** Sums of counts *)

Lemma sum_list_Z_perm (l1 l2 : list Z) :
  l1 ≡ₚ l2 → sum_list_Z l1 = sum_list_Z l2.
Proof.
  induction 1 as [|x l1 l2 _ IH|x y l|l1 l2 l3 _ IH1 _ IH2]; simpl;
    [done|by rewrite IH|lia|congruence].
Qed.

Lemma sum_list_Z_app (l1 l2 : list Z) :
  sum_list_Z (l1 ++ l2) = sum_list_Z l1 + sum_list_Z l2.
Proof. induction l1 as [|x l1 IH]; simpl; [done|]. rewrite IH. lia. Qed.

Lemma total_empty : total (∅ : gmap K Z) = 0.
Proof. unfold total. by rewrite map_to_list_empty. Qed.

Lemma total_insert_None d key v :
  d !! key = None → total (<[key := v]> d) = v + total d.
Proof.
  intros Hnone. unfold total.
  rewrite (sum_list_Z_perm _ (v :: (map_to_list d).*2)); [done|].
  by rewrite (map_to_list_insert d key v Hnone).
Qed.

Lemma total_delete d key v :
  d !! key = Some v → total d = v + total (delete key d).
Proof.
  intros Hsome. rewrite <- (total_insert_None (delete key d) key v)
    by apply lookup_delete_eq.
  by rewrite insert_delete_id.
Qed.

Lemma total_insert_Some d key v v' :
  d !! key = Some v → total (<[key := v']> d) = total d - v + v'.
Proof.
  intros Hsome. rewrite <- insert_delete_eq.
  rewrite total_insert_None by apply lookup_delete_eq.
  rewrite (total_delete d key v Hsome). lia.
Qed.

Lemma total_nonneg d : map_Forall (fun _ v => 0 < v) d → 0 <= total d.
Proof.
  induction d as [|key v d Hnone _ IH] using map_first_key_ind.
  { by rewrite total_empty. }
  intros [Hv Hd]%map_Forall_insert; [|done].
  rewrite total_insert_None by done. specialize (IH Hd). lia.
Qed.

Lemma count_le_total c key :
  positive_counts c → count c key <= total (Counter.index c).
Proof.
  intros Hpos. unfold count.
  destruct (Counter.index c !! key) as [v|] eqn:Hv; simpl.
  - rewrite (total_delete _ key v Hv).
    assert (0 <= total (delete key (Counter.index c))); [|lia].
    apply total_nonneg. by apply map_Forall_delete.
  - by apply total_nonneg.
Qed.

Lemma total_omap_le threshold d :
  0 <= threshold → map_Forall (fun _ v => 0 < v) d →
  total (omap (shrink threshold) d) <= total d.
Proof.
  intros Hth.
  induction d as [|key v d Hnone _ IH] using map_first_key_ind.
  { intros _. by rewrite omap_empty. }
  intros [Hv Hd]%map_Forall_insert; [|done]. specialize (IH Hd).
  rewrite total_insert_None by done.
  rewrite omap_insert.
  destruct (shrink threshold v) as [w|] eqn:Hs; unfold shrink in Hs;
    destruct (Z.leb_spec v threshold); simplify_eq.
  - rewrite total_insert_None by (by rewrite lookup_omap, Hnone). lia.
  - rewrite delete_id by (by rewrite lookup_omap, Hnone). lia.
Qed.

Lemma total_swept threshold d key :
  0 <= threshold → map_Forall (fun _ v => 0 < v) d →
  d !! key = Some threshold →
  total (omap (shrink threshold) d) + threshold <= total d.
Proof.
  intros Hth Hpos Hkey.
  assert (omap (shrink threshold) d
          = omap (shrink threshold) (delete key d)) as ->.
  { apply map_eq. intros key'. rewrite !lookup_omap.
    destruct (decide (key' = key)) as [->|Hne].
    - rewrite Hkey, lookup_delete_eq. simpl. unfold shrink.
      destruct (Z.leb_spec threshold threshold); [done|lia].
    - by rewrite lookup_delete_ne. }
  rewrite (total_delete d key threshold Hkey).
  pose proof (total_omap_le threshold (delete key d) Hth
                (map_Forall_delete _ _ _ Hpos)). lia.
Qed.

(** *** The mass a counter accounts for *)

Lemma update_case_mass key val c o r c' o' :
  wf c → mass c → update_case key val c o r c' o' → mass c'.
Proof.
  intros (Hparams & Hpos & Hcap & Hoff) Hmass Hcase. unfold mass in *.
  destruct Hcase as [Hz|Hneg|v Hval Hkey|Hval Hkey Hroom
                     |th o' key' Hval Hkey Hfull Hkey' Hrun]; try done.
  - simpl. rewrite (total_insert_Some _ key v) by done. lia.
  - simpl. rewrite total_insert_None by done. lia.
  - pose proof (threshold_positive th c key' Hpos Hkey') as Hth.
    pose proof (total_swept th (Counter.index c) key' ltac:(lia) Hpos Hkey').
    cbv zeta. destruct (Z.gtb_spec val th); simpl.
    + rewrite total_insert_None by (by rewrite lookup_omap, Hkey). lia.
    + lia.
Qed.

Lemma for_each_update_mass : ∀ (items : list (K * Z)) c o,
  wf c → mass c → Forall (fun kv => 0 < kv.2) items →
  ∃ c' o',
    Counter.for_each items (fun '(key, val) => Counter.update key val) (c, o)
    = (Return tt, (c', o'))
    ∧ wf c' ∧ mass c'
    ∧ Counter.length c' = Counter.length c + sum_list_Z items.*2.
Proof.
  induction items as [|[key val] items IH]; intros c o Hwf Hmass Hpos.
  { exists c, o. simpl. split_and!; (done || lia). }
  apply Forall_cons in Hpos as [Hval Hpos]. simpl in Hval.
  destruct (update_wf_run key val c o Hwf)
    as (r & c1 & o1 & Hrun & Hcase & Hwf1).
  pose proof (update_case_outcome _ _ _ _ _ _ _ Hcase) as Hr.
  destruct (Z.ltb_spec val 0); [lia|]. subst r.
  pose proof (update_case_mass _ _ _ _ _ _ _ Hwf Hmass Hcase) as Hmass1.
  destruct Hwf as (_ & Hposc & _).
  pose proof (update_case_scalars _ _ _ _ _ _ _ Hposc Hcase)
    as (_ & _ & _ & Hlen & _).
  destruct (IH c1 o1 Hwf1 Hmass1 Hpos)
    as (c' & o' & Hrun' & Hwf' & Hmass' & Hlen').
  exists c', o'. cbn [Counter.for_each]. rewrite bind_run, Hrun.
  split_and!; [done..|].
  rewrite Hlen', Hlen. unfold accepted.
  assert (sum_list_Z ((key, val) :: items).*2
          = val + sum_list_Z items.*2) as -> by reflexivity.
  destruct (Z.ltb_spec val 0); lia.
Qed.

Lemma merge_mass c other o :
  wf c → mass c → wf other → mass other →
  mass (Counter.merge other (c, o)).2.1.
Proof.
  intros Hwf Hmass Hwfo Hmasso.
  assert (sound c (count c)) as Hsound.
  { intros key. destruct Hwf as (_ & _ & _ & Hoff). lia. }
  assert (sound other (count other)) as Hsoundo.
  { intros key. destruct Hwfo as (_ & _ & _ & Hoff). lia. }
  destruct (merge_run c other o _ _ Hwf Hsound Hwfo Hsoundo)
    as (c' & o' & Hreplay & -> & _).
  unfold Counter.replay in Hreplay.
  rewrite bind_run in Hreplay. unfold Counter.ask at 1 in Hreplay.
  cbn [fst snd] in Hreplay.
  pose proof (iteritems_spec (Counter.index other) o) as Hperm.
  pose proof (iteritems_elem_of (Counter.index other) o) as Hin.
  destruct (iteritems (Counter.index other) o) as [items o1].
  cbn [fst snd] in *.
  assert (Forall (fun kv => 0 < kv.2) items) as Hitems.
  { apply Forall_forall. intros [key v] Hkv. apply Hin in Hkv.
    destruct Hwfo as (_ & Hpos & _). by apply Hpos in Hkv. }
  destruct (for_each_update_mass items c o1 Hwf Hmass Hitems)
    as (c'' & o'' & Hrun & _ & Hmass' & Hlen).
  rewrite Hrun in Hreplay. simplify_eq.
  unfold mass in *. simpl.
  assert (sum_list_Z items.*2 = total (Counter.index other)) as Hsum.
  { unfold total. apply sum_list_Z_perm. by rewrite Hperm. }
  lia.
Qed.

Lemma run_mass (h : history) : ∀ o c o', run h o = (Some c, o') → mass c.
Proof.
  induction h as [k sample order|h IH key val|h IH other IHo|h IH|h IH];
    intros o c o' Hrun; simpl in Hrun.
  - destruct (Counter.__init__ k sample order) as [c0| |] eqn:Hinit;
      simplify_eq/=.
    apply init_wf in Hinit as (_ & Hlen & Hoff & Hidx).
    unfold mass. rewrite Hlen, Hoff, Hidx, total_empty. lia.
  - destruct (run h o) as [[c0|] o0] eqn:Hrun0; [|done].
    pose proof (run_invariant _ _ _ _ Hrun0) as [Hwf _].
    destruct (update_wf_run key val c0 o0 Hwf)
      as (r & c1 & o1 & Hupd & Hcase & _).
    rewrite Hupd in Hrun. simplify_eq/=.
    eapply update_case_mass; eauto.
  - destruct (run h o) as [[c0|] o0] eqn:Hrun0; [|done].
    destruct (run other o0) as [[c1|] o1] eqn:Hrun1; [|done].
    pose proof (run_invariant _ _ _ _ Hrun0) as [Hwf _].
    pose proof (run_invariant _ _ _ _ Hrun1) as [Hwfo _].
    simplify_eq/=. apply merge_mass; eauto.
  - destruct (run h o) as [[c0|] o0] eqn:Hrun0; [|done].
    simplify_eq/=. unfold mass. simpl. rewrite total_empty. lia.
  - destruct (run h o) as [[c0|] o0] eqn:Hrun0; [|done].
    pose proof (run_invariant _ _ _ _ Hrun0) as [Hwf _].
    rewrite copy_run in Hrun by apply Hwf. simplify_eq/=. eauto.
Qed.


(** *** The sample behind a threshold *)

Lemma values_perm {V} (d0 : gmap K V) o :
  (values d0 o).1 ≡ₚ (map_to_list d0).*2.
Proof.
  unfold values. pose proof (iteritems_spec d0 o) as Hp.
  destruct (iteritems d0 o) as [items o']. simpl in *. by rewrite Hp.
Qed.

Lemma decrement_sample c o :
  params_ok c → Counter.sample c <= Z.of_nat (size (Counter.index c)) →
  ∃ threshold o' smp,
    Counter._decrement (c, o) = (Return threshold, (swept threshold c, o'))
    ∧ smp ⊆+ (map_to_list (Counter.index c)).*2
    ∧ length smp = Z.to_nat (Counter.sample c)
    ∧ sorted smp !! Z.to_nat (Counter.order c) = Some threshold.
Proof.
  intros [Horder Hsample] Hfull. unfold Counter._decrement.
  rewrite bind_run. cbn [Counter.getattr fst snd].
  rewrite bind_run. unfold Counter.ask at 1. cbn [fst snd].
  pose proof (values_perm (Counter.index c) o) as Hvperm.
  destruct (values (Counter.index c) o) as [vals o1]. cbn [fst snd] in *.
  assert (length vals = size (Counter.index c)) as Hvlen.
  { by rewrite Hvperm, length_fmap, length_map_to_list. }
  rewrite bind_run. cbn [Counter.getattr fst snd].
  rewrite bind_run. unfold Counter.ask_outcome at 1. cbn [fst snd].
  destruct (sample_spec vals (Counter.sample c) o1)
    as (smp & o2 & -> & Hslen & Hsub); [lia|].
  rewrite bind_run. cbn [Counter.getattr fst snd].
  rewrite bind_run. unfold Counter.lift at 1.
  destruct (select_in_range smp (Counter.order c))
    as (smp' & -> & Hperm & Hlen' & Hsorted); [lia|].
  set (th := nthZ smp' (Counter.order c)) in *.
  rewrite bind_run. cbn [Counter.getattr fst snd].
  rewrite bind_run. unfold Counter.ask at 1. cbn [fst snd].
  pose proof (iteritems_NoDup (Counter.index c) o2) as Hnd.
  pose proof (iteritems_list_to_map (Counter.index c) o2) as Hmap.
  destruct (iteritems (Counter.index c) o2) as [items o3].
  cbn [fst snd] in *.
  rewrite bind_run, sweep_run. simpl app.
  rewrite bind_run, pops_run;
    [|by apply NoDup_zeros_of
     |intros key Hkey; by apply (zeros_tracked th items)].
  cbn [Counter.index Counter.set_index].
  rewrite (sweep_then_pop th items) by done.
  exists th, o3, smp. split_and!; [reflexivity| |done|done].
  by rewrite <- Hvperm.
Qed.

(** *** How many keys a sweep drops *)

Lemma length_filter_Forall {A} (P : A → Prop) `{∀ x, Decision (P x)}
    (l : list A) :
  Forall P l → length (filter P l) = length l.
Proof.
  induction 1 as [|x l Hx _ IH]; [done|].
  rewrite filter_cons_True by done. simpl. by rewrite IH.
Qed.

Lemma sorted_prefix_le (l : list Z) (n : nat) (x : Z) :
  StronglySorted Z.le l → l !! n = Some x →
  Forall (fun y => (y <= x)%Z) (take (S n) l).
Proof.
  intros Hsorted Hx. apply Forall_forall. intros y [i [Hi Hlt]]%elem_of_take.
  destruct (decide (i = n)) as [->|Hne]; [by simplify_eq|].
  rewrite <- (take_drop_middle l n x Hx) in Hsorted.
  apply (StronglySorted_app_1_elem_of _ _ _ y x) in Hsorted; [done| |by left].
  apply elem_of_take. exists i. split; [done|lia].
Qed.

Lemma sample_below_threshold (smp vals : list Z) (n : nat) (x : Z) :
  smp ⊆+ vals → sorted smp !! n = Some x →
  (S n <= length (filter (fun y => (y <= x)%Z) vals))%nat.
Proof.
  intros Hsub Hx.
  assert (StronglySorted Z.le (sorted smp)) as Hsorted
    by (apply StronglySorted_merge_sort; apply _).
  pose proof (sorted_prefix_le _ _ _ Hsorted Hx) as Hprefix.
  pose proof (lookup_lt_Some _ _ _ Hx) as Hn.
  assert (S n <= length (filter (fun y => (y <= x)%Z) (sorted smp)))%nat as Hs.
  { rewrite <- (take_drop (S n) (sorted smp)) at 1.
    rewrite filter_app, length_app, length_filter_Forall by done.
    rewrite length_take. lia. }
  assert (filter (fun y => (y <= x)%Z) (sorted smp)
          ≡ₚ filter (fun y => (y <= x)%Z) smp) as Hp.
  { unfold sorted. by rewrite merge_sort_Permutation. }
  rewrite Hp in Hs.
  apply submseteq_Permutation in Hsub as [rest Hrest].
  rewrite Hrest, filter_app, length_app. lia.
Qed.

Lemma size_omap_shrink threshold d :
  (size (omap (shrink threshold) d)
   + length (filter (fun y => (y <= threshold)%Z) (map_to_list d).*2)
   = size d)%nat.
Proof.
  induction d as [|key v d Hnone _ IH] using map_first_key_ind.
  { by rewrite omap_empty, map_to_list_empty, map_size_empty. }
  assert (filter (fun y => (y <= threshold)%Z) (map_to_list (<[key:=v]> d)).*2
          ≡ₚ filter (fun y => (y <= threshold)%Z) (v :: (map_to_list d).*2))
    as ->.
  { by rewrite (map_to_list_insert d key v Hnone). }
  rewrite omap_insert, map_size_insert_None by done.
  destruct (shrink threshold v) as [w|] eqn:Hs; unfold shrink in Hs;
    destruct (Z.leb_spec v threshold); simplify_eq.
  - rewrite map_size_insert_None by (by rewrite lookup_omap, Hnone).
    rewrite filter_cons_False by lia. lia.
  - rewrite delete_id by (by rewrite lookup_omap, Hnone).
    rewrite filter_cons_True by done. simpl. lia.
Qed.

Lemma decrement_drops c o :
  params_ok c → Counter.sample c <= Z.of_nat (size (Counter.index c)) →
  ∃ threshold c1 o',
    Counter._decrement (c, o) = (Return threshold, (c1, o'))
    ∧ Z.of_nat (size (Counter.index c1)) + Counter.order c + 1
      <= Z.of_nat (size (Counter.index c)).
Proof.
  intros Hparams Hfull.
  destruct (decrement_sample c o Hparams Hfull)
    as (th & o' & smp & Hrun & Hsub & Hlen & Hsorted).
  eexists th, _, o'. split; [exact Hrun|]. simpl.
  pose proof (sample_below_threshold _ _ _ _ Hsub Hsorted) as Hcount.
  pose proof (size_omap_shrink th (Counter.index c)) as Hsize.
  destruct Hparams as [Ho _]. lia.
Qed.

Lemma decrement_full c o :
  params_ok c → Counter.sample c = Z.of_nat (size (Counter.index c)) →
  ∃ o',
    Counter._decrement (c, o)
    = (Return (nthZ (sorted (map_to_list (Counter.index c)).*2)
                    (Counter.order c)),
       (swept (nthZ (sorted (map_to_list (Counter.index c)).*2)
                    (Counter.order c)) c, o')).
Proof.
  intros Hparams Hfull.
  destruct (decrement_sample c o Hparams ltac:(lia))
    as (th & o' & smp & Hrun & Hsub & Hlen & Hsorted).
  exists o'. rewrite Hrun.
  assert (smp ≡ₚ (map_to_list (Counter.index c)).*2) as Hperm.
  { apply submseteq_length_Permutation; [done|].
    rewrite Hlen, length_fmap, length_map_to_list. lia. }
  assert (sorted smp = sorted (map_to_list (Counter.index c)).*2) as Heq.
  { apply (StronglySorted_unique Z.le);
      [apply StronglySorted_merge_sort; apply _..|].
    unfold sorted. by rewrite !merge_sort_Permutation. }
  rewrite Heq in Hsorted. unfold nthZ. by rewrite Hsorted.
Qed.

(** *** Updates that need no randomness *)

Lemma update_full_sample c o1 o2 key val :
  wf c → Counter.sample c = Counter.size c →
  (Counter.update key val (c, o1)).1 = (Counter.update key val (c, o2)).1
  ∧ (Counter.update key val (c, o1)).2.1
    = (Counter.update key val (c, o2)).2.1.
Proof.
  intros (Hparams & Hpos & Hcap & Hoff) Hsample.
  destruct (update_cases key val c o1 Hparams Hcap)
    as (r1 & c1 & p1 & -> & Hcase1).
  destruct (update_cases key val c o2 Hparams Hcap)
    as (r2 & c2 & p2 & -> & Hcase2).
  cbn [fst snd].
  destruct Hcase1 as [Hz|Hneg|v Hval Hkey|Hval Hkey Hroom
                      |th1 p1 key1 Hval Hkey Hfull Hkey1 Hrun1];
    destruct Hcase2 as [Hz'|Hneg'|v' Hval' Hkey'|Hval' Hkey' Hroom'
                        |th2 p2 key2 Hval' Hkey' Hfull' Hkey2 Hrun2];
    try lia; try congruence; try done.
  - split; [done|]. congruence.
  - set (c0 := Counter.set_length (Counter.length c + val) c) in *.
    assert (Counter.sample c0 = Z.of_nat (size (Counter.index c0))) as Hfull0.
    { unfold within_capacity in Hcap. simpl. lia. }
    destruct (decrement_full c0 o1 Hparams Hfull0) as [q1 Hq1].
    destruct (decrement_full c0 o2 Hparams Hfull0) as [q2 Hq2].
    rewrite Hq1 in Hrun1. rewrite Hq2 in Hrun2.
    assert (th1 = th2) as -> by congruence. done.
Qed.

Lemma updates_only_params k sample order (ups : list (K * Z)) : ∀ o c o',
  run (updates_only k sample order ups) o = (Some c, o') →
  ∃ c0, Counter.__init__ k sample order = Return c0
        ∧ Counter.size c = Counter.size c0
        ∧ Counter.sample c = Counter.sample c0
        ∧ Counter.order c = Counter.order c0.
Proof.
  induction ups as [|[key val] ups IH] using rev_ind; intros o c o' Hrun.
  - simpl in Hrun.
    destruct (Counter.__init__ k sample order) as [c0| |] eqn:Hinit;
      simplify_eq/=. by exists c.
  - unfold updates_only in Hrun. rewrite foldl_app in Hrun.
    simpl in Hrun. fold (updates_only k sample order ups) in Hrun.
    destruct (run (updates_only k sample order ups) o)
      as [[c1|] o1] eqn:Hrun1; [|done].
    pose proof (run_invariant _ _ _ _ Hrun1) as [Hwf _].
    destruct (update_wf_run key val c1 o1 Hwf)
      as (r & c2 & o2 & Hupd & Hcase & _).
    rewrite Hupd in Hrun. simplify_eq/=.
    destruct Hwf as (_ & Hpos & _).
    pose proof (update_case_scalars _ _ _ _ _ _ _ Hpos Hcase)
      as (-> & -> & -> & _).
    by eapply IH.
Qed.

Lemma updates_only_full_sample k order (ups : list (K * Z)) : ∀ o1 o2,
  (run (updates_only (Some k) (Some k) order ups) o1).1
  = (run (updates_only (Some k) (Some k) order ups) o2).1.
Proof.
  induction ups as [|[key val] ups IH] using rev_ind; intros o1 o2.
  { done. }
  unfold updates_only. rewrite foldl_app. simpl.
  fold (updates_only (Some k) (Some k) order ups).
  specialize (IH o1 o2).
  destruct (run (updates_only (Some k) (Some k) order ups) o1)
    as [[c1|] p1] eqn:Hrun1;
    destruct (run (updates_only (Some k) (Some k) order ups) o2)
      as [[c2|] p2] eqn:Hrun2; simplify_eq/=; [|done].
  pose proof (run_invariant _ _ _ _ Hrun1) as [Hwf _].
  f_equal. apply update_full_sample; [done|].
  destruct (updates_only_params _ _ _ _ _ _ _ Hrun1)
    as (c0 & Hinit & -> & -> & _).
  unfold Counter.__init__ in Hinit. simpl in Hinit.
  repeat case_match; by simplify_eq/=.
Qed.

(** *** Updates that run no sweep *)

Lemma update_quiet_run c o key val :
  0 < val →
  is_Some (Counter.index c !! key)
  ∨ Z.of_nat (size (Counter.index c)) < Counter.size c →
  Counter.update key val (c, o)
  = (Return tt,
     (Counter.set_index (<[key := count c key + val]> (Counter.index c))
        (Counter.set_length (Counter.length c + val) c), o)).
Proof.
  intros Hval Hquiet. unfold Counter.update.
  destruct (Z.eqb_spec val 0); [lia|].
  destruct (Z.ltb_spec val 0); [lia|].
  rewrite bind_run, getattr_run, bind_run, setattr_run.
  rewrite bind_run, getattr_run. unfold count. simpl.
  destruct (Counter.index c !! key) as [v|] eqn:Hkey; simpl.
  { by rewrite store_run. }
  destruct Hquiet as [[? ?]|Hroom]; [done|].
  rewrite bind_run, len_index_run, bind_run, getattr_run. simpl.
  destruct (Z.ltb_spec (Z.of_nat (size (Counter.index c))) (Counter.size c));
    [|lia].
  by rewrite store_run.
Qed.

(** *** Merging nothing, and merging a counter into itself *)

Lemma merge_fresh_run (fresh : t) c o :
  Counter.index fresh = ∅ → Counter.length fresh = 0 →
  Counter.offset fresh = 0 →
  Counter.merge fresh (c, o) = (Return tt, (c, o)).
Proof.
  intros Hidx Hlen Hoff. unfold Counter.merge, Counter.replay.
  rewrite bind_run, getattr_run, !bind_run. unfold Counter.ask at 1.
  rewrite Hidx. unfold iteritems. rewrite map_to_list_empty, map_size_empty.
  simpl. rewrite Hlen, Hoff, Z.add_0_r.
  rewrite bind_run, setattr_run, bind_run, getattr_run, setattr_run.
  simpl. rewrite Z.add_0_r. by destruct c.
Qed.

Lemma for_each_tracked : ∀ (items : list (K * Z)) c o,
  NoDup items.*1 →
  (∀ key v, (key, v) ∈ items → Counter.index c !! key = Some v ∧ 0 < v) →
  Counter.for_each items (fun '(key, val) => Counter.update key val) (c, o)
  = (Return tt,
     (Counter.set_index
        (foldl (fun d0 '(key, v) => <[key := v + v]> d0)
               (Counter.index c) items)
        (Counter.set_length (Counter.length c + sum_list_Z items.*2) c), o)).
Proof.
  induction items as [|[key v] items IH]; intros c o Hnd Hin.
  { simpl. rewrite Z.add_0_r. by destruct c. }
  apply NoDup_cons in Hnd as [Hnotin Hnd].
  destruct (Hin key v) as [Hkey Hv]; [by left|].
  cbn [Counter.for_each]. rewrite bind_run.
  rewrite update_quiet_run by eauto.
  unfold count. rewrite Hkey. simpl default.
  rewrite IH; [|done|].
  - simpl. destruct c; simpl. rewrite <- Z.add_assoc. reflexivity.
  - intros key' v' Hin'. simpl. rewrite lookup_insert_ne.
    + apply Hin. by right.
    + intros ->. apply Hnotin. apply list_elem_of_fmap. by exists (key', v').
Qed.

Lemma lookup_doubled key : ∀ (items : list (K * Z)) d,
  NoDup items.*1 →
  foldl (fun d0 '(key, v) => <[key := v + v]> d0) d items !! key
  = match (list_to_map items : gmap K Z) !! key with
    | Some v => Some (v + v)
    | None => d !! key
    end.
Proof.
  induction items as [|[key' v] items IH]; intros d Hnd; simpl.
  { by rewrite lookup_empty. }
  apply NoDup_cons in Hnd as [Hnotin Hnd]. rewrite IH by done.
  destruct (decide (key' = key)) as [->|Hne].
  - rewrite lookup_insert_eq.
    rewrite (not_elem_of_list_to_map_1 (M:=gmap K)) by done.
    by rewrite lookup_insert_eq.
  - rewrite !lookup_insert_ne by done. done.
Qed.

Lemma merge_self_run c o :
  positive_counts c →
  ∃ o',
    Counter.merge c (c, o)
    = (Return tt,
       (Counter.mk (Counter.size c) (Counter.sample c) (Counter.order c)
          (Counter.length c + Counter.length c)
          (Counter.offset c + Counter.offset c)
          ((fun v => v + v) <$> Counter.index c), o')).
Proof.
  intros Hpos. unfold Counter.merge, Counter.replay.
  rewrite bind_run, getattr_run, !bind_run. unfold Counter.ask at 1.
  cbn [fst snd].
  pose proof (iteritems_NoDup (Counter.index c) o) as Hnd.
  pose proof (iteritems_list_to_map (Counter.index c) o) as Hmap.
  pose proof (iteritems_elem_of (Counter.index c) o) as Hin.
  destruct (iteritems (Counter.index c) o) as [items o1].
  cbn [fst snd] in *.
  rewrite for_each_tracked; [|done|].
  - exists o1. rewrite bind_run, setattr_run, bind_run, getattr_run.
    rewrite setattr_run. simpl.
    assert (foldl (fun d0 '(key, v) => <[key := v + v]> d0)
                  (Counter.index c) items
            = (fun v => v + v) <$> Counter.index c) as ->; [|done].
    apply (map_eq (M:=gmap K)). intros key.
    rewrite lookup_doubled, Hmap, lookup_fmap by done.
    by destruct (Counter.index c !! key).
  - intros key v Hkv. apply Hin in Hkv. split; [done|].
    by apply Hpos in Hkv.
Qed.

(** *** Keys and membership *)

Lemma keys_run c o :
  Counter.keys (c, o)
  = (Return (iteritems (Counter.index c) o).1.*1,
     (c, (iteritems (Counter.index c) o).2)).
Proof.
  unfold Counter.keys. rewrite bind_run, getattr_run, bind_run.
  unfold Counter.ask at 1. cbn [fst snd].
  by destruct (iteritems (Counter.index c) o).
Qed.

(** *** The heap the methods keep *)

Lemma wf_sound_count c : wf c → sound c (count c).
Proof. intros (_ & _ & _ & Hoff) key. lia. Qed.

Lemma merge_wf c other o :
  wf c → wf other → wf (Counter.merge other (c, o)).2.1.
Proof.
  intros Hwf Hwfo.
  destruct (merge_run c other o _ _ Hwf (wf_sound_count c Hwf)
              Hwfo (wf_sound_count other Hwfo))
    as (c' & o' & _ & -> & Hwf' & _).
  done.
Qed.

Lemma clear_wf c o : wf c → wf (Counter.clear (c, o)).2.1.
Proof.
  intros ([Ho Hs] & _). rewrite clear_run. simpl. split_and!.
  - done.
  - apply map_Forall_empty.
  - unfold within_capacity. simpl. rewrite map_size_empty. lia.
  - done.
Qed.

Lemma heap_ok_empty : heap_ok (Heap.mk_heap (K:=K) ∅ ∅).
Proof.
  split_and!.
  - intros r obj. simpl. by rewrite lookup_empty.
  - intros r1 r2 obj1 obj2. simpl. by rewrite lookup_empty.
  - intros r c. unfold Heap.load. simpl. by rewrite lookup_empty.
Qed.

Lemma load_Some r (h : Heap.heap (K:=K)) c :
  Heap.load r h = Some c →
  ∃ obj, Heap.instances h !! r = Some obj
         ∧ Heap.dicts h !! Heap.i_index obj = Some (Counter.index c)
         ∧ c = Counter.mk (Heap.i_size obj) (Heap.i_sample obj)
                 (Heap.i_order obj) (Heap.i_length obj) (Heap.i_offset obj)
                 (Counter.index c).
Proof.
  unfold Heap.load. intros Hload.
  destruct (Heap.instances h !! r) as [obj|]; simpl in Hload; [|done].
  destruct (Heap.dicts h !! Heap.i_index obj) as [tbl|] eqn:Htbl;
    simplify_eq/=.
  by exists obj.
Qed.

Lemma heap_ok_save r c c0 (h : Heap.heap (K:=K)) :
  heap_ok h → Heap.load r h = Some c0 → wf c →
  heap_ok (Heap.save r c h)
  ∧ Heap.load r (Heap.save r c h) = Some c
  ∧ ∀ q, q ≠ r → Heap.load q (Heap.save r c h) = Heap.load q h.
Proof.
  intros (Hdict & Hinj & Hwf) Hload Hc.
  destruct (load_Some r h c0 Hload) as (obj & Hobj & Htbl & _).
  assert (∀ q, q ≠ r → Heap.load q (Heap.save r c h) = Heap.load q h)
    as Hframe.
  { intros q Hne. unfold Heap.save. rewrite Hobj.
    unfold Heap.load. simpl. rewrite lookup_insert_ne by done.
    destruct (Heap.instances h !! q) as [objq|] eqn:Hq; simpl; [|done].
    rewrite lookup_insert_ne; [done|].
    intros Heq. apply Hne. symmetry. by eapply Hinj. }
  assert (Heap.load r (Heap.save r c h) = Some c) as Hsame.
  { unfold Heap.save. rewrite Hobj. unfold Heap.load. simpl.
    rewrite lookup_insert_eq. simpl. rewrite lookup_insert_eq. simpl.
    by destruct c. }
  split_and!; [|done|done].
  split_and!.
  - intros q objq. unfold Heap.save. rewrite Hobj. simpl.
    destruct (decide (q = r)) as [->|Hne].
    + rewrite lookup_insert_eq. intros [= <-]. simpl.
      rewrite lookup_insert_eq. eauto.
    + rewrite lookup_insert_ne by done. intros Hq.
      destruct (Hdict q objq Hq) as [tbl Ht].
      destruct (decide (Heap.i_index obj = Heap.i_index objq)) as [Heq|Hneq].
      * rewrite Heq, lookup_insert_eq. eauto.
      * rewrite lookup_insert_ne by done. eauto.
  - intros r1 r2 obj1 obj2. unfold Heap.save. rewrite Hobj. simpl.
    destruct (decide (r1 = r)) as [->|Hne1];
      destruct (decide (r2 = r)) as [->|Hne2]; [done| | |].
    + rewrite lookup_insert_eq, lookup_insert_ne by done.
      intros [= <-] H2. simpl. intros Heq. by eapply Hinj.
    + rewrite lookup_insert_eq, lookup_insert_ne by done.
      intros H1 [= <-]. simpl. intros Heq. by eapply Hinj.
    + rewrite !lookup_insert_ne by done. apply Hinj.
  - intros q cq. destruct (decide (q = r)) as [->|Hne].
    + rewrite Hsame. by intros [= <-].
    + rewrite Hframe by done. apply Hwf.
Qed.

Lemma heap_ok_call {A} r (m : Counter.M A) (h : Heap.heap (K:=K)) o c :
  heap_ok h → Heap.load r h = Some c → wf (m (c, o)).2.1 →
  ∃ h',
    Heap.call r m h o = Some ((m (c, o)).1, h', (m (c, o)).2.2)
    ∧ heap_ok h'
    ∧ Heap.load r h' = Some (m (c, o)).2.1
    ∧ ∀ q, q ≠ r → Heap.load q h' = Heap.load q h.
Proof.
  intros Hok Hload Hwf. unfold Heap.call. rewrite Hload. simpl.
  destruct (m (c, o)) as [res [c' o']]. simpl in *.
  exists (Heap.save r c' h). split; [done|].
  by eapply heap_ok_save.
Qed.

Lemma heap_ok_new k sample order (h : Heap.heap (K:=K)) :
  heap_ok h →
  match Heap.new k sample order h with
  | (Return r, h') =>
      ∃ c, Counter.__init__ k sample order = Return c
           ∧ Heap.instances h !! r = None
           ∧ heap_ok h' ∧ Heap.load r h' = Some c
           ∧ ∀ q cq, Heap.load q h = Some cq → Heap.load q h' = Some cq
  | (_, h') => h' = h
  end.
Proof.
  intros (Hdict & Hinj & Hwf). unfold Heap.new.
  destruct (Counter.__init__ k sample order) as [c| |] eqn:Hinit; [|done..].
  set (d0 := fresh (dom (Heap.dicts h))).
  set (r := fresh (dom (Heap.instances h))).
  assert (Heap.instances h !! r = None) as Hr.
  { apply not_elem_of_dom. apply is_fresh. }
  assert (Heap.dicts h !! d0 = None) as Hd.
  { apply not_elem_of_dom. apply is_fresh. }
  assert (∀ q objq, Heap.instances h !! q = Some objq →
                    Heap.i_index objq ≠ d0) as Hfresh.
  { intros q objq Hq Heq. destruct (Hdict q objq Hq) as [tbl Ht].
    rewrite Heq in Ht. congruence. }
  set (h' := Heap.mk_heap _ _).
  assert (Heap.load r h' = Some c) as Hnew.
  { unfold Heap.load. simpl. rewrite lookup_insert_eq. simpl.
    rewrite lookup_insert_eq. simpl. by destruct c. }
  assert (∀ q, q ≠ r → Heap.load q h' = Heap.load q h) as Hframe.
  { intros q Hne. unfold Heap.load. simpl.
    rewrite lookup_insert_ne by done.
    destruct (Heap.instances h !! q) as [objq|] eqn:Hq; simpl; [|done].
    rewrite lookup_insert_ne; [done|]. intros Heq.
    by eapply Hfresh. }
  exists c. split_and!; [done|done| |done|].
  - split_and!.
    + intros q objq. simpl. destruct (decide (q = r)) as [->|Hne].
      * rewrite lookup_insert_eq. intros [= <-]. simpl.
        rewrite lookup_insert_eq. eauto.
      * rewrite lookup_insert_ne by done. intros Hq.
        rewrite lookup_insert_ne; [by eapply Hdict|].
        intros Heq. by eapply Hfresh.
    + intros r1 r2 obj1 obj2. simpl.
      destruct (decide (r1 = r)) as [->|Hne1];
        destruct (decide (r2 = r)) as [->|Hne2]; [done| | |].
      * rewrite lookup_insert_eq, lookup_insert_ne by done.
        intros [= <-] H2. simpl. intros Heq. exfalso. by eapply Hfresh.
      * rewrite lookup_insert_eq, lookup_insert_ne by done.
        intros H1 [= <-]. simpl. intros Heq. exfalso. by eapply Hfresh.
      * rewrite !lookup_insert_ne by done. apply Hinj.
    + intros q cq. destruct (decide (q = r)) as [->|Hne].
      * rewrite Hnew. intros [= <-]. by apply init_wf in Hinit as [? _].
      * rewrite Hframe by done. apply Hwf.
  - intros q cq Hq. rewrite Hframe; [done|].
    intros ->. unfold Heap.load in Hq. by rewrite Hr in Hq.
Qed.

Lemma heap_ok_copy r (h : Heap.heap (K:=K)) c :
  heap_ok h → Heap.load r h = Some c →
  ∃ r' h',
    Heap.copy r h = Some (Return r', h')
    ∧ Heap.instances h !! r' = None
    ∧ heap_ok h'
    ∧ Heap.load r' h' = Some c
    ∧ ∀ q cq, Heap.load q h = Some cq → Heap.load q h' = Some cq.
Proof.
  intros Hok Hload.
  pose proof Hok as (_ & _ & Hwf). pose proof (Hwf r c Hload) as Hc.
  pose proof Hc as ([Ho Hs] & _).
  unfold Heap.copy. rewrite Hload. simpl.
  pose proof (heap_ok_new (Some (Counter.size c)) (Some (Counter.sample c))
                (Some (Counter.order c)) h Hok) as Hnew.
  destruct (Heap.new (Some (Counter.size c)) (Some (Counter.sample c))
              (Some (Counter.order c)) h) as [[r'| |] h1] eqn:Hn.
  - destruct Hnew as (c0 & Hinit & Hfresh & Hok1 & Hload1 & Hframe1).
    rewrite init_params_ok in Hinit by done. simplify_eq.
    rewrite Hload1. simpl.
    rewrite (right_id_L ∅ (∪)).
    destruct (heap_ok_save r' c _ h1 Hok1 Hload1 Hc)
      as (Hok2 & Hsame & Hframe2).
    match goal with
    | |- context [Heap.save r' ?x h1] =>
        assert (x = c) as -> by (by destruct c)
    end.
    eexists r', _. split; [reflexivity|].
    split_and!; [done|done|done|].
    intros q cq Hq. rewrite Hframe2; [by apply Hframe1|].
    intros ->. unfold Heap.load in Hq. by rewrite Hfresh in Hq.
  - exfalso. unfold Heap.new in Hn.
    rewrite init_params_ok in Hn by done. done.
  - exfalso. unfold Heap.new in Hn.
    rewrite init_params_ok in Hn by done. done.
Qed.

Lemma heap_ok_mutate r (h : Heap.heap (K:=K)) o m :
  heap_ok h →
  heap_ok (Heap.mutate r (h, o) m).1
  ∧ ∀ q, q ≠ r → Heap.load q (Heap.mutate r (h, o) m).1 = Heap.load q h.
Proof.
  intros Hok. pose proof Hok as (_ & _ & Hwf).
  unfold Heap.mutate. cbn [fst snd].
  destruct m as [key val|other|]; cbn match.
  - unfold Heap.update, Heap.call.
    destruct (Heap.load r h) as [c|] eqn:Hload; simpl; [|done].
    destruct (update_wf_run key val c o (Hwf r c Hload))
      as (res & c' & o' & Hupd & _ & Hwf').
    rewrite Hupd. simpl.
    destruct (heap_ok_save r c' c h Hok Hload Hwf') as (Hok' & _ & Hfr).
    split; [exact Hok'|exact Hfr].
  - unfold Heap.merge.
    destruct (Heap.load other h) as [co|] eqn:Hother; simpl; [|done].
    unfold Heap.call.
    destruct (Heap.load r h) as [c|] eqn:Hload; simpl; [|done].
    pose proof (merge_wf c co o (Hwf r c Hload) (Hwf other co Hother))
      as Hwf'.
    destruct (Counter.merge co (c, o)) as [res [c' o']]. simpl in *.
    destruct (heap_ok_save r c' c h Hok Hload Hwf') as (Hok' & _ & Hfr).
    split; [exact Hok'|exact Hfr].
  - unfold Heap.clear, Heap.call.
    destruct (Heap.load r h) as [c|] eqn:Hload; simpl; [|done].
    pose proof (clear_wf c o (Hwf r c Hload)) as Hwf'.
    destruct (heap_ok_save r _ c h Hok Hload Hwf') as (Hok' & _ & Hfr).
    split; [exact Hok'|exact Hfr].
Qed.

(** *** The sketch's union and in-place merge *)

Lemma merge_outcome c other o :
  wf c → wf other → (Counter.merge other (c, o)).1 = Return tt.
Proof.
  intros Hwf Hwfo.
  destruct (merge_run c other o _ _ Hwf (wf_sound_count c Hwf)
              Hwfo (wf_sound_count other Hwfo))
    as (c' & o' & _ & -> & _).
  done.
Qed.

Lemma merge_length c other o :
  wf c → wf other →
  Counter.length (Counter.merge other (c, o)).2.1
  = Counter.length c + Counter.length other.
Proof.
  intros Hwf Hwfo.
  destruct (merge_run c other o _ _ Hwf (wf_sound_count c Hwf)
              Hwfo (wf_sound_count other Hwfo))
    as (c' & o' & _ & -> & _).
  done.
Qed.

Lemma heap_merge_run r other (h : Heap.heap (K:=K)) o c co :
  heap_ok h → Heap.load r h = Some c → Heap.load other h = Some co →
  ∃ h',
    Heap.merge r other h o
    = Some (Return tt, h', (Counter.merge co (c, o)).2.2)
    ∧ heap_ok h'
    ∧ Heap.load r h' = Some (Counter.merge co (c, o)).2.1
    ∧ ∀ q, q ≠ r → Heap.load q h' = Heap.load q h.
Proof.
  intros Hok Hload Hother. pose proof Hok as (_ & _ & Hwf).
  unfold Heap.merge. rewrite Hother. simpl.
  destruct (heap_ok_call r (Counter.merge co) h o c Hok Hload)
    as (h' & Hcall & Hrest).
  { apply merge_wf; eauto. }
  exists h'. split; [|done].
  rewrite Hcall. by rewrite merge_outcome by eauto.
Qed.

Lemma sketch_or_run (s other : Sketch.t) (h : Heap.heap (K:=K)) o cs co :
  heap_ok h →
  Heap.load (Sketch._cnt s) h = Some cs →
  Heap.load (Sketch._cnt other) h = Some co →
  ∃ m h',
    Sketch.__or__ s other h o
    = Some (Return m, h', (Counter.merge co (cs, o)).2.2)
    ∧ Heap.instances h !! Sketch._cnt m = None
    ∧ heap_ok h'
    ∧ Heap.load (Sketch._cnt m) h' = Some (Counter.merge co (cs, o)).2.1
    ∧ ∀ q cq, Heap.load q h = Some cq → Heap.load q h' = Some cq.
Proof.
  intros Hok Hs Ho. unfold Sketch.__or__.
  destruct (heap_ok_copy (Sketch._cnt s) h cs Hok Hs)
    as (r' & h1 & -> & Hfresh & Hok1 & Hload1 & Hframe1).
  simpl.
  destruct (heap_merge_run r' (Sketch._cnt other) h1 o cs co Hok1 Hload1
              (Hframe1 _ _ Ho)) as (h2 & -> & Hok2 & Hload2 & Hframe2).
  simpl. exists (Sketch.mk r'), h2. split_and!; try done.
  intros q cq Hq. rewrite Hframe2; [by apply Hframe1|].
  intros ->. unfold Heap.load in Hq. by rewrite Hfresh in Hq.
Qed.

Lemma sketch_ior_run (s other : Sketch.t) (h : Heap.heap (K:=K)) o cs co :
  heap_ok h →
  Heap.load (Sketch._cnt s) h = Some cs →
  Heap.load (Sketch._cnt other) h = Some co →
  ∃ h',
    Sketch.__ior__ s other h o
    = Some (Return s, h', (Counter.merge co (cs, o)).2.2)
    ∧ heap_ok h'
    ∧ Heap.load (Sketch._cnt s) h' = Some (Counter.merge co (cs, o)).2.1
    ∧ ∀ q, q ≠ Sketch._cnt s → Heap.load q h' = Heap.load q h.
Proof.
  intros Hok Hs Ho. unfold Sketch.__ior__.
  destruct (heap_merge_run _ _ h o cs co Hok Hs Ho)
    as (h' & -> & Hrest).
  simpl. by exists h'.
Qed.

(** ** The counter *)

(** X3.  After every history the counter's length is the length of
    the stream: the sum of the accepted weights and of the lengths of
    what was merged in, counted from the last [clear]. *)
Theorem length_conservation (h : history) o o' c :
  run h o = (Some c, o') → Counter.length c = stream_length h.
Proof. apply run_length. Qed.

(** X4.  After every history the stored counts and the offset together
    account for no more than the length, so the offset (the width of
    every estimate) is at most the length not held in the table, and no
    upper bound exceeds the length of the stream. *)
Theorem estimates_within_length (h : history) o o' c :
  run h o = (Some c, o') →
  total (Counter.index c) + Counter.offset c <= Counter.length c
  ∧ ∀ key, (Counter.frequency c key).2 <= stream_length h.
Proof.
  intros Hrun. pose proof (run_mass _ _ _ _ Hrun) as Hmass.
  split; [done|]. intros key.
  rewrite frequency_count. simpl.
  rewrite <- (run_length _ _ _ _ Hrun).
  pose proof (run_invariant _ _ _ _ Hrun) as [(_ & Hpos & _) _].
  pose proof (count_le_total c key Hpos). unfold mass in Hmass. lia.
Qed.

(** X5.  In a counter a history yields, a sweep drops at least
    [order + 1] keys; so an [update] that meets a full table with a new
    key leaves at most [size - order] keys behind. *)
Theorem sweep_evicts_order (h : history) o o' c :
  run h o = (Some c, o') →
  (∀ l o1,
     Counter.sample c <= Z.of_nat (size (Counter.index c)) →
     ∃ threshold c1 o2,
       Counter._decrement (Counter.set_length l c, o1)
       = (Return threshold, (c1, o2))
       ∧ Z.of_nat (size (Counter.index c1)) + Counter.order c + 1
         <= Z.of_nat (size (Counter.index c)))
  ∧ (∀ key val o1,
       Counter.index c !! key = None →
       Counter.size c <= Z.of_nat (size (Counter.index c)) →
       0 < val →
       Z.of_nat (size (Counter.index (Counter.update key val (c, o1)).2.1))
       <= Counter.size c - Counter.order c).
Proof.
  intros Hrun. apply run_invariant in Hrun as [Hwf _].
  pose proof Hwf as (Hparams & Hpos & Hcap & Hoff).
  split.
  - intros l o1 Hsample.
    by apply (decrement_drops (Counter.set_length l c) o1).
  - intros key val o1 Hnew Hfull Hval.
    destruct (update_cases key val c o1 Hparams Hcap)
      as (r & c1 & o2 & -> & Hcase).
    cbn [fst snd].
    destruct Hcase as [Hz|Hneg|v _ Hkey|_ _ Hroom
                       |th p key' _ _ _ Hkey' Hdec]; try lia.
    { congruence. }
    destruct (decrement_drops
                (Counter.set_length (Counter.length c + val) c) o1)
      as (th' & c' & p' & Hdec' & Hdrop); [done|..].
    { destruct Hparams as [_ Hle]. simpl. lia. }
    rewrite Hdec in Hdec'. simplify_eq. simpl in Hdrop.
    unfold within_capacity in Hcap.
    cbv zeta. destruct (val >? th'); simpl; [|lia].
    pose proof (map_size_insert (M:=gmap K) key (val - th')
                  (omap (shrink th') (Counter.index c))) as Hsz.
    destruct (omap (shrink th') (Counter.index c) !! key);
      rewrite Hsz; simpl; lia.
Qed.

(** X6.  A sweep with threshold [t] keeps exactly the keys whose
    count exceeds [t], each lowered by [t]; capacity, sample size and
    order stay as they are. *)
Theorem sweep_table (h : history) o o' c :
  run h o = (Some c, o') →
  ∀ l o1,
    Counter.sample c <= Z.of_nat (size (Counter.index c)) →
    ∃ threshold c1 o2,
      Counter._decrement (Counter.set_length l c, o1)
      = (Return threshold, (c1, o2))
      ∧ (∀ key v', Counter.index c1 !! key = Some v'
                   ↔ ∃ v, Counter.index c !! key = Some v
                          ∧ threshold < v ∧ v' = v - threshold)
      ∧ Counter.size c1 = Counter.size c
      ∧ Counter.sample c1 = Counter.sample c
      ∧ Counter.order c1 = Counter.order c
      ∧ Counter.length c1 = l.
Proof.
  intros Hrun l o1 Hsample. apply run_invariant in Hrun as [Hwf _].
  pose proof Hwf as (Hparams & _).
  destruct (decrement_run (Counter.set_length l c) o1)
    as (th & o2 & Hdec & _); [done..|].
  eexists th, _, o2. split; [exact Hdec|]. split_and!; try done.
  intros key v'. simpl. rewrite lookup_omap.
  destruct (Counter.index c !! key) as [v|]; simpl.
  - unfold shrink. destruct (Z.leb_spec v th).
    + split; [done|]. intros (w & [= <-] & ? & _). lia.
    + split.
      * intros [= <-]. by exists v.
      * intros (w & [= <-] & _ & ->). done.
  - split; [done|]. by intros (w & ? & _).
Qed.

(** X7.  When the sample size equals the number of stored counts, as
    it does in a full table when [sample = size], the threshold is the
    [order]-th smallest stored count whatever the oracle: the sampling
    has no say. *)
Theorem full_sample_threshold (h : history) o o' c :
  run h o = (Some c, o') →
  Counter.sample c = Z.of_nat (size (Counter.index c)) →
  ∃ threshold,
    getitem (sorted (map_to_list (Counter.index c)).*2) (Counter.order c)
    = Return threshold
    ∧ ∀ l o1, (Counter._decrement (Counter.set_length l c, o1)).1
              = Return threshold.
Proof.
  intros Hrun Hfull. apply run_invariant in Hrun as [Hwf _].
  pose proof Hwf as (Hparams & _).
  exists (nthZ (sorted (map_to_list (Counter.index c)).*2) (Counter.order c)).
  split.
  - apply getitem_in. unfold sorted.
    rewrite merge_sort_Permutation, length_fmap, length_map_to_list.
    destruct Hparams. lia.
  - intros l o1.
    destruct (decrement_full (Counter.set_length l c) o1) as [o2 ->];
      done.
Qed.

(** X8.  A counter constructed with [sample = k] and fed only updates
    ends in the same state under every oracle. *)
Theorem full_sample_deterministic k order (ups : list (K * Z)) o1 o2 :
  (run (updates_only (Some k) (Some k) order ups) o1).1
  = (run (updates_only (Some k) (Some k) order ups) o2).1.
Proof. apply updates_only_full_sample. Qed.

(** X9.  An [update] with a positive value of a tracked key, or of a
    new key while the table has room, ends normally, asks nothing of the
    oracle, adds the value to that key's count and to the length, and
    leaves every other count and the offset as they were. *)
Theorem update_without_sweep c o key val :
  0 < val →
  is_Some (Counter.index c !! key)
  ∨ Z.of_nat (size (Counter.index c)) < Counter.size c →
  ∃ c', Counter.update key val (c, o) = (Return tt, (c', o))
        ∧ count c' key = count c key + val
        ∧ (∀ key', key' ≠ key → Counter.index c' !! key'
                                = Counter.index c !! key')
        ∧ Counter.length c' = Counter.length c + val
        ∧ Counter.offset c' = Counter.offset c.
Proof.
  intros Hval Hquiet. rewrite update_quiet_run by done.
  eexists. split; [reflexivity|]. split_and!; try done.
  - by rewrite count_store_eq.
  - intros key' Hne. simpl. by rewrite lookup_insert_ne.
Qed.

(** X10.  Merging a counter that was just constructed, whatever its
    parameters, changes nothing: not the table, the length or the
    offset, and no draw is made. *)
Theorem merge_fresh_identity k sample order (fresh : t) c o :
  Counter.__init__ k sample order = Return fresh →
  Counter.merge fresh (c, o) = (Return tt, (c, o)).
Proof.
  intros Hinit. apply init_wf in Hinit as (_ & Hlen & Hoff & Hidx).
  by apply merge_fresh_run.
Qed.

(** X11.  Merging a counter into itself doubles every stored count,
    the length and the offset, and evicts nothing. *)
Theorem merge_self_doubles (h : history) o0 o0' c o :
  run h o0 = (Some c, o0') →
  ∃ o',
    Counter.merge c (c, o)
    = (Return tt,
       (Counter.mk (Counter.size c) (Counter.sample c) (Counter.order c)
          (Counter.length c + Counter.length c)
          (Counter.offset c + Counter.offset c)
          ((fun v => v + v) <$> Counter.index c), o')).
Proof.
  intros Hrun. apply run_invariant in Hrun as [(_ & Hpos & _) _].
  by apply merge_self_run.
Qed.

(** X12.  After [clear] the counter is the one the constructor
    returns for the same capacity, sample size and order. *)
Theorem clear_is_fresh (h : history) o o' c :
  run (Clear h) o = (Some c, o') →
  Counter.__init__ (Some (Counter.size c)) (Some (Counter.sample c))
                   (Some (Counter.order c))
  = Return c.
Proof.
  simpl. destruct (run h o) as [[c0|] o0] eqn:Hrun0; [|done].
  intros [= <- <-]. apply run_invariant in Hrun0 as [([Ho Hs] & _) _].
  simpl. by rewrite init_params_ok.
Qed.

(** X13.  In a counter a history yields, [key in counter] holds exactly
    when the lower bound of the key's estimate is positive; for a key
    that is not tracked the estimate is [(0, offset)]. *)
Theorem contains_iff_positive (h : history) o o' c key :
  run h o = (Some c, o') →
  (Counter.__contains__ c key = true ↔ 0 < (Counter.frequency c key).1)
  ∧ (Counter.__contains__ c key = false →
     Counter.frequency c key = (0, Counter.offset c)).
Proof.
  intros Hrun. apply run_invariant in Hrun as [(_ & Hpos & _) _].
  unfold Counter.__contains__, Counter.frequency.
  destruct (Counter.index c !! key) as [v|] eqn:Hv; cbn [default fst].
  - apply Hpos in Hv. simpl in Hv. split; [split|].
    + done.
    + intros _. apply bool_decide_eq_true. eauto.
    + intros Hf%bool_decide_eq_false. exfalso. apply Hf. eauto.
  - split; [split|].
    + by intros [? ?]%bool_decide_eq_true.
    + lia.
    + done.
Qed.

(** X14.  [keys()] yields every tracked key exactly once and nothing
    else, in an order the run does not fix, and leaves the counter as it
    was. *)
Theorem keys_tracked c o :
  ∃ ks o', Counter.keys (c, o) = (Return ks, (c, o'))
           ∧ NoDup ks
           ∧ (∀ key, key ∈ ks ↔ Counter.__contains__ c key = true)
           ∧ length ks = size (Counter.index c).
Proof.
  rewrite keys_run. eexists _, _. split; [reflexivity|].
  pose proof (iteritems_spec (Counter.index c) o) as Hperm.
  split_and!.
  - apply iteritems_NoDup.
  - intros key. unfold Counter.__contains__. rewrite bool_decide_eq_true.
    rewrite list_elem_of_fmap. split.
    + intros ([key' v] & -> & Hin%iteritems_elem_of). simpl. eauto.
    + intros [v Hv]. exists (key, v). split; [done|].
      by apply iteritems_elem_of.
  - by rewrite length_fmap, Hperm, length_map_to_list.
Qed.

(** ** Counters on the heap, and the sketch *)

(** X15.  The empty heap is in order, and construction, [copy],
    [update], [merge] and [clear] keep it so: every instance has its own
    dict and every counter satisfies the counter's invariant. *)
Theorem heap_stays_ok :
  heap_ok (Heap.mk_heap (K:=K) ∅ ∅)
  ∧ ∀ h : Heap.heap (K:=K), heap_ok h →
      (∀ k sample order, heap_ok (Heap.new k sample order h).2)
      ∧ (∀ r res h', Heap.copy r h = Some (res, h') → heap_ok h')
      ∧ (∀ r o m, heap_ok (Heap.mutate r (h, o) m).1).
Proof.
  split; [apply heap_ok_empty|]. intros h Hok. split_and!.
  - intros k sample order.
    pose proof (heap_ok_new k sample order h Hok) as Hnew.
    destruct (Heap.new k sample order h) as [[r| |] h']; simpl.
    + by destruct Hnew as (c & _ & _ & ? & _).
    + by subst.
    + by subst.
  - intros r res h' Hcopy.
    destruct (Heap.load r h) as [c|] eqn:Hload.
    + destruct (heap_ok_copy r h c Hok Hload)
        as (r' & h1 & Hc & _ & Hok1 & _).
      rewrite Hc in Hcopy. by simplify_eq.
    + unfold Heap.copy in Hcopy. by rewrite Hload in Hcopy.
  - intros r o m. by apply heap_ok_mutate.
Qed.

(** X16.  On a heap in order, [update], [merge] and [clear] called on
    one counter leave every other counter as it was, and so do
    construction and [copy]. *)
Theorem calls_leave_others (h : Heap.heap (K:=K)) :
  heap_ok h →
  (∀ r q o m, q ≠ r →
     Heap.load q (Heap.mutate r (h, o) m).1 = Heap.load q h)
  ∧ (∀ k sample order q cq,
       Heap.load q h = Some cq →
       Heap.load q (Heap.new k sample order h).2 = Some cq)
  ∧ (∀ r res h' q cq,
       Heap.copy r h = Some (res, h') → Heap.load q h = Some cq →
       Heap.load q h' = Some cq).
Proof.
  intros Hok. split_and!.
  - intros r q o m Hne. by apply heap_ok_mutate.
  - intros k sample order q cq Hq.
    pose proof (heap_ok_new k sample order h Hok) as Hnew.
    destruct (Heap.new k sample order h) as [[r| |] h']; simpl.
    + destruct Hnew as (c & _ & _ & _ & _ & Hframe). by apply Hframe.
    + by subst.
    + by subst.
  - intros r res h' q cq Hcopy Hq.
    destruct (Heap.load r h) as [c|] eqn:Hload.
    + destruct (heap_ok_copy r h c Hok Hload)
        as (r' & h1 & Hc & _ & _ & _ & Hframe).
      rewrite Hc in Hcopy. simplify_eq. by apply Hframe.
    + unfold Heap.copy in Hcopy. by rewrite Hload in Hcopy.
Qed.

(** X17.  [s | o] returns a sketch on a counter that did not exist
    before; that counter is what merging [o]'s counter into [s]'s would
    give, and [s], [o] and every other counter are as they were.
    [len] of the new sketch is the builtin [len] on the sum of the two
    lengths: the sum itself when it is between 0 and [sys.maxsize],
    [OverflowError] when it is above. *)
Theorem sketch_or (maxsize : Z) (s other : Sketch.t) (h : Heap.heap (K:=K))
    o cs co :
  heap_ok h →
  Heap.load (Sketch._cnt s) h = Some cs →
  Heap.load (Sketch._cnt other) h = Some co →
  ∃ m h' o',
    Sketch.__or__ s other h o = Some (Return m, h', o')
    ∧ Heap.instances h !! Sketch._cnt m = None
    ∧ Heap.load (Sketch._cnt m) h' = Some (Counter.merge co (cs, o)).2.1
    ∧ Sketch.__len__ maxsize m h'
      = Some (len maxsize (Counter.length cs + Counter.length co))
    ∧ (0 <= Counter.length cs + Counter.length co <= maxsize →
       Sketch.__len__ maxsize m h'
       = Some (Return (Counter.length cs + Counter.length co)))
    ∧ (maxsize < Counter.length cs + Counter.length co →
       Sketch.__len__ maxsize m h' = Some (Raise OverflowError))
    ∧ (∀ q cq, Heap.load q h = Some cq → Heap.load q h' = Some cq)
    ∧ heap_ok h'.
Proof.
  intros Hok Hs Ho. pose proof Hok as (_ & _ & Hwf).
  destruct (sketch_or_run s other h o cs co Hok Hs Ho)
    as (m & h' & Hrun & Hfresh & Hok' & Hload & Hframe).
  assert (Sketch.__len__ maxsize m h'
          = Some (len maxsize (Counter.length cs + Counter.length co)))
    as Hlen.
  { unfold Sketch.__len__. rewrite Hload. simpl. do 2 f_equal.
    apply merge_length; eauto. }
  exists m, h', (Counter.merge co (cs, o)).2.2.
  split_and!; try done.
  - intros Hn. rewrite Hlen. f_equal. by apply len_fits.
  - intros Hn. rewrite Hlen. f_equal. by apply len_overflow.
Qed.

(** X18.  [s |= o] returns [s]; its counter is then what merging [o]'s
    counter into it gives; every counter other than [s]'s, [o]'s among
    them when it is another one, is as it was.  [len(s)] is then the
    builtin [len] on the sum of the two lengths: the sum itself when it
    is between 0 and [sys.maxsize], [OverflowError] when it is above. *)
Theorem sketch_ior (maxsize : Z) (s other : Sketch.t) (h : Heap.heap (K:=K))
    o cs co :
  heap_ok h →
  Heap.load (Sketch._cnt s) h = Some cs →
  Heap.load (Sketch._cnt other) h = Some co →
  ∃ h' o',
    Sketch.__ior__ s other h o = Some (Return s, h', o')
    ∧ Heap.load (Sketch._cnt s) h' = Some (Counter.merge co (cs, o)).2.1
    ∧ Sketch.__len__ maxsize s h'
      = Some (len maxsize (Counter.length cs + Counter.length co))
    ∧ (0 <= Counter.length cs + Counter.length co <= maxsize →
       Sketch.__len__ maxsize s h'
       = Some (Return (Counter.length cs + Counter.length co)))
    ∧ (maxsize < Counter.length cs + Counter.length co →
       Sketch.__len__ maxsize s h' = Some (Raise OverflowError))
    ∧ (∀ q, q ≠ Sketch._cnt s → Heap.load q h' = Heap.load q h)
    ∧ heap_ok h'.
Proof.
  intros Hok Hs Ho. pose proof Hok as (_ & _ & Hwf).
  destruct (sketch_ior_run s other h o cs co Hok Hs Ho)
    as (h' & Hrun & Hok' & Hload & Hframe).
  assert (Sketch.__len__ maxsize s h'
          = Some (len maxsize (Counter.length cs + Counter.length co)))
    as Hlen.
  { unfold Sketch.__len__. rewrite Hload. simpl. do 2 f_equal.
    apply merge_length; eauto. }
  exists h', (Counter.merge co (cs, o)).2.2.
  split_and!; try done.
  - intros Hn. rewrite Hlen. f_equal. by apply len_fits.
  - intros Hn. rewrite Hlen. f_equal. by apply len_overflow.
Qed.

(** X19.  For a sketch whose counter a history yields, with
    [sys.maxsize] not negative: as long as the length of the stream is
    at most [sys.maxsize], [len(s)] is that length and [bool(s)] tells
    whether it is positive; once the length of the stream is above
    [sys.maxsize], both raise [OverflowError]. *)
Theorem sketch_nonzero (maxsize : Z) (hist : history) o o' c (s : Sketch.t)
    (h : Heap.heap (K:=K)) :
  0 <= maxsize →
  run hist o = (Some c, o') → Heap.load (Sketch._cnt s) h = Some c →
  0 <= stream_length hist
  ∧ Sketch.__len__ maxsize s h
    = Some (if stream_length hist >? maxsize then Raise OverflowError
            else Return (stream_length hist))
  ∧ Sketch.__nonzero__ maxsize s h
    = Some (if stream_length hist >? maxsize then Raise OverflowError
            else Return (bool_decide (0 < stream_length hist))).
Proof.
  intros Hmax Hrun Hload. pose proof (stream_length_nonneg hist) as Hlen.
  split; [done|].
  unfold Sketch.__nonzero__, Sketch.__len__.
  rewrite Hload. simpl. unfold Counter.__len__.
  rewrite (run_length _ _ _ _ Hrun).
  destruct (Z.gtb_spec (stream_length hist) maxsize) as [Hbig|Hfit].
  - rewrite len_overflow by done. done.
  - rewrite len_fits by lia. split; [done|]. simpl.
    rewrite len_fits by lia. simpl. do 2 f_equal.
    destruct (Z.gtb_spec (stream_length hist) 0).
    + by rewrite bool_decide_eq_true_2 by lia.
    + by rewrite bool_decide_eq_false_2 by lia.
Qed.

End MoreProofs.

(** ** Concrete instances *)

Lemma demo_heap_ok : heap_ok demo_heap.
Proof.
  pose proof (heap_ok_new (K:=string) (Some 2) None None
                (Heap.mk_heap ∅ ∅) heap_ok_empty) as Hnew.
  unfold demo_heap.
  destruct (Heap.new (Some 2) None None (Heap.mk_heap ∅ ∅))
    as [[r| |] h'] eqn:Hn; simpl.
  - by destruct Hnew as (c & _ & _ & ? & _).
  - by vm_compute in Hn.
  - by vm_compute in Hn.
Qed.

Lemma length_conservation_witness :
  Counter.length demo_counter = stream_length demo.
Proof.
  apply (length_conservation demo [] [] demo_counter).
  vm_compute. reflexivity.
Defined.

Lemma estimates_within_length_witness :
  total (Counter.index demo_counter) + Counter.offset demo_counter
  <= Counter.length demo_counter.
Proof.
  apply (estimates_within_length demo [] [] demo_counter).
  vm_compute. reflexivity.
Defined.

Lemma sweep_evicts_order_witness :
  run demo [] = (Some demo_counter, [])
  ∧ Z.of_nat
      (size (Counter.index (Counter.update "b" 3 (demo_counter, [])).2.1))
    <= Counter.size demo_counter - Counter.order demo_counter.
Proof.
  split; [vm_compute; reflexivity|].
  apply (proj2 (sweep_evicts_order demo [] [] demo_counter
                  ltac:(vm_compute; reflexivity)) "b" 3 []).
  - vm_compute. reflexivity.
  - vm_compute. discriminate.
  - lia.
Defined.

Lemma sweep_table_witness :
  ∃ threshold c1 o2,
    Counter._decrement (Counter.set_length 10 demo_counter, [])
    = (Return threshold, (c1, o2))
    ∧ (∀ key v', Counter.index c1 !! key = Some v'
                 ↔ ∃ v, Counter.index demo_counter !! key = Some v
                        ∧ threshold < v ∧ v' = v - threshold)
    ∧ Counter.size c1 = Counter.size demo_counter
    ∧ Counter.sample c1 = Counter.sample demo_counter
    ∧ Counter.order c1 = Counter.order demo_counter
    ∧ Counter.length c1 = 10.
Proof.
  apply (sweep_table demo [] [] demo_counter).
  - vm_compute. reflexivity.
  - vm_compute. discriminate.
Defined.

Lemma full_sample_threshold_witness :
  ∃ threshold,
    getitem (sorted (map_to_list (Counter.index demo_counter)).*2)
            (Counter.order demo_counter)
    = Return threshold
    ∧ ∀ l o1,
        (Counter._decrement (Counter.set_length l demo_counter, o1)).1
        = Return threshold.
Proof.
  apply (full_sample_threshold demo [] [] demo_counter).
  - vm_compute. reflexivity.
  - vm_compute. reflexivity.
Defined.

Lemma update_without_sweep_witness :
  ∃ c', Counter.update "a" 4 (demo_counter, [7%nat])
        = (Return tt, (c', [7%nat]))
        ∧ count c' "a" = count demo_counter "a" + 4
        ∧ (∀ key', key' ≠ "a" → Counter.index c' !! key'
                                = Counter.index demo_counter !! key')
        ∧ Counter.length c' = Counter.length demo_counter + 4
        ∧ Counter.offset c' = Counter.offset demo_counter.
Proof.
  apply (update_without_sweep demo_counter [7%nat] "a" 4).
  - lia.
  - left. vm_compute. eauto.
Defined.

Lemma merge_fresh_identity_witness :
  Counter.merge (Counter.mk 4 4 2 0 0 ∅) (demo_counter, [7%nat])
  = (Return tt, (demo_counter, [7%nat])).
Proof.
  apply (merge_fresh_identity (Some 4) None None).
  vm_compute. reflexivity.
Defined.

Lemma merge_self_doubles_witness :
  ∃ o',
    Counter.merge demo_counter (demo_counter, [])
    = (Return tt,
       (Counter.mk (Counter.size demo_counter) (Counter.sample demo_counter)
          (Counter.order demo_counter)
          (Counter.length demo_counter + Counter.length demo_counter)
          (Counter.offset demo_counter + Counter.offset demo_counter)
          ((fun v => v + v) <$> Counter.index demo_counter), o')).
Proof.
  apply (merge_self_doubles demo [] []).
  vm_compute. reflexivity.
Defined.

Lemma clear_is_fresh_witness :
  Counter.__init__ (K:=string) (Some 1) (Some 1) (Some 0)
  = Return (Counter.mk 1 1 0 0 0 ∅).
Proof.
  apply (clear_is_fresh demo [] [] (Counter.mk 1 1 0 0 0 ∅)).
  vm_compute. reflexivity.
Defined.

Lemma contains_iff_positive_witness :
  (Counter.__contains__ demo_counter "a" = true
   ↔ 0 < (Counter.frequency demo_counter "a").1)
  ∧ (Counter.__contains__ demo_counter "a" = false →
     Counter.frequency demo_counter "a" = (0, Counter.offset demo_counter)).
Proof.
  apply (contains_iff_positive demo [] [] demo_counter "a").
  vm_compute. reflexivity.
Defined.

Lemma heap_stays_ok_witness : heap_ok demo_heap.
Proof.
  apply (proj1 (proj2 heap_stays_ok (Heap.mk_heap ∅ ∅)
                  (proj1 heap_stays_ok)) (Some 2) None None).
Defined.

Lemma demo_heap2_ok : heap_ok demo_heap2.
Proof.
  pose proof (heap_ok_new (K:=string) None None None demo_heap demo_heap_ok)
    as Hnew.
  unfold demo_heap2.
  destruct (Heap.new None None None demo_heap) as [[r| |] h'] eqn:Hn; simpl.
  - by destruct Hnew as (c & _ & _ & ? & _).
  - by vm_compute in Hn.
  - by vm_compute in Hn.
Qed.

Lemma calls_leave_others_witness :
  Heap.load 1%positive
    (Heap.mutate 2%positive (demo_heap2, []) (Heap.DoUpdate "a" 3)).1
  = Heap.load 1%positive demo_heap2.
Proof.
  apply (proj1 (calls_leave_others demo_heap2 demo_heap2_ok)). lia.
Defined.

Lemma demo_heap3_ok : heap_ok demo_heap3.
Proof.
  unfold demo_heap3, Heap.mutate_all. cbn [foldl].
  apply heap_ok_mutate, heap_ok_mutate, demo_heap2_ok.
Qed.

Lemma sketch_or_witness :
  ∃ m h' o',
    Sketch.__or__ (Sketch.mk 1%positive) (Sketch.mk 2%positive) demo_heap3 []
    = Some (Return m, h', o')
    ∧ Heap.instances demo_heap3 !! Sketch._cnt m = None
    ∧ Heap.load (Sketch._cnt m) h'
      = Some (Counter.merge (Counter.mk 4096 1024 512 3 0 {["b" := 3]})
                (Counter.mk 2 2 1 5 0 {["a" := 5]}, [])).2.1
    ∧ Sketch.__len__ (2 ^ 63 - 1) m h' = Some (len (2 ^ 63 - 1) (5 + 3))
    ∧ (0 <= 5 + 3 <= 2 ^ 63 - 1 →
       Sketch.__len__ (2 ^ 63 - 1) m h' = Some (Return (5 + 3)))
    ∧ (2 ^ 63 - 1 < 5 + 3 →
       Sketch.__len__ (2 ^ 63 - 1) m h' = Some (Raise OverflowError))
    ∧ (∀ q cq, Heap.load q demo_heap3 = Some cq → Heap.load q h' = Some cq)
    ∧ heap_ok h'.
Proof.
  apply (sketch_or (2 ^ 63 - 1) (Sketch.mk 1%positive) (Sketch.mk 2%positive)
           demo_heap3 [] (Counter.mk 2 2 1 5 0 {["a" := 5]})
           (Counter.mk 4096 1024 512 3 0 {["b" := 3]})).
  - apply demo_heap3_ok.
  - vm_compute. reflexivity.
  - vm_compute. reflexivity.
Defined.

Lemma sketch_ior_witness :
  ∃ h' o',
    Sketch.__ior__ (Sketch.mk 1%positive) (Sketch.mk 2%positive)
      demo_heap3 []
    = Some (Return (Sketch.mk 1%positive), h', o')
    ∧ Heap.load 1%positive h'
      = Some (Counter.merge (Counter.mk 4096 1024 512 3 0 {["b" := 3]})
                (Counter.mk 2 2 1 5 0 {["a" := 5]}, [])).2.1
    ∧ Sketch.__len__ (2 ^ 63 - 1) (Sketch.mk 1%positive) h'
      = Some (len (2 ^ 63 - 1) (5 + 3))
    ∧ (0 <= 5 + 3 <= 2 ^ 63 - 1 →
       Sketch.__len__ (2 ^ 63 - 1) (Sketch.mk 1%positive) h'
       = Some (Return (5 + 3)))
    ∧ (2 ^ 63 - 1 < 5 + 3 →
       Sketch.__len__ (2 ^ 63 - 1) (Sketch.mk 1%positive) h'
       = Some (Raise OverflowError))
    ∧ (∀ q, q ≠ 1%positive → Heap.load q h' = Heap.load q demo_heap3)
    ∧ heap_ok h'.
Proof.
  apply (sketch_ior (2 ^ 63 - 1) (Sketch.mk 1%positive) (Sketch.mk 2%positive)
           demo_heap3 [] (Counter.mk 2 2 1 5 0 {["a" := 5]})
           (Counter.mk 4096 1024 512 3 0 {["b" := 3]})).
  - apply demo_heap3_ok.
  - vm_compute. reflexivity.
  - vm_compute. reflexivity.
Defined.

Lemma sketch_nonzero_witness :
  0 <= stream_length (Update (New (K:=string) (Some 2) None None) "a" 5)
  ∧ Sketch.__len__ (2 ^ 63 - 1) (Sketch.mk 1%positive) demo_heap3
    = Some (if stream_length
                 (Update (New (K:=string) (Some 2) None None) "a" 5)
               >? 2 ^ 63 - 1
            then Raise OverflowError
            else Return (stream_length
                           (Update (New (K:=string) (Some 2) None None)
                              "a" 5)))
  ∧ Sketch.__nonzero__ (2 ^ 63 - 1) (Sketch.mk 1%positive) demo_heap3
    = Some (if stream_length
                 (Update (New (K:=string) (Some 2) None None) "a" 5)
               >? 2 ^ 63 - 1
            then Raise OverflowError
            else Return (bool_decide
                           (0 < stream_length
                                  (Update (New (K:=string) (Some 2) None None)
                                     "a" 5)))).
Proof.
  apply (sketch_nonzero (2 ^ 63 - 1) (Update (New (Some 2) None None) "a" 5)
           [] [] (Counter.mk 2 2 1 5 0 {["a" := 5]})).
  - lia.
  - vm_compute. reflexivity.
  - vm_compute. reflexivity.
Defined.

(** The docstring of [Sketch.__or__] run through the sketch, on a
    64-bit platform. *)
Example doc_sketch_or :
  sketch_union_scenario (2 ^ 63 - 1)
  = Some ((100, 100), Return 200, (200, 200), Return true).
Proof. vm_compute. reflexivity. Qed.

(** The docstrings of [Sketch.__len__] and [Sketch.__nonzero__]:
    [len(s)] is 100 and [bool(s)] is true after [s.update('foo', 100)]
    (the key plays no part), 0 and false on a sketch that has seen
    nothing. *)
Example doc_sketch_len :
  sketch_len_scenario (2 ^ 63 - 1) 100 = Some (Return 100, Return true)
  ∧ sketch_len_scenario (2 ^ 63 - 1) 0 = Some (Return 0, Return false).
Proof. split; vm_compute; reflexivity. Qed.

(** Past [sys.maxsize] the builtin [len] gives up: after
    [s.update('a', 2 ** 63)] both [len(s)] and [bool(s)] raise
    [OverflowError]. *)
Example sketch_len_overflow :
  sketch_len_scenario (2 ^ 63 - 1) (2 ^ 63)
  = Some (Raise OverflowError, Raise OverflowError).
Proof. vm_compute. reflexivity. Qed.

Example test_merge :
  test_merge_scenario = Some ((300, 300), (100, 100), (200, 200)).
Proof. vm_compute. reflexivity. Qed.
